(** * MockMate: interception and resolution engine

    A shallow embedding of the request matcher, the scenario resolver, the
    response builder, the mock-or-forward decision of both handlers, the
    certificate cache, the leaf certificate issuer, the request framing of
    the intercepting proxy and the upstream forwarder, with the properties
    the design document states about them.

    Strings are [string] (one [ascii] per code unit), numbers are [Z],
    JavaScript objects used as dictionaries are [gmap string _], the
    insertion-ordered [Map] of the certificate cache is an association
    list.  Calls into the platform (URL parsing, PEM decoding, [fetch]) are
    parameters of the sections that use them. *)

From Stdlib Require Import ZArith Lia Bool Ascii.
From stdpp Require Import base option list strings gmap.

Local Open Scope Z_scope.

(** ** Characters and strings *)

Module Chars.

Definition code (c : ascii) : nat := nat_of_ascii c.

Definition between (lo hi : nat) (c : ascii) : bool :=
  (Nat.leb lo (code c)) && (Nat.leb (code c) hi).

Definition isc (d c : ascii) : bool := Ascii.eqb c d.

(** [\d]: the ten ASCII digits. *)
Definition digit (c : ascii) : bool := between 48 57 c.

(** [[a-zA-Z_]] *)
Definition ident_start (c : ascii) : bool :=
  between 97 122 c || between 65 90 c || isc "_"%char c.

(** [[a-zA-Z0-9_]] *)
Definition ident_char (c : ascii) : bool :=
  ident_start c || digit c.

(** The class [[.+*?^${}()|[\]\\]] of the first [replace] of pathToRegex. *)
Definition regex_meta (c : ascii) : bool :=
  isc "."%char c || isc "+"%char c || isc "*"%char c || isc "?"%char c || isc "^"%char c || isc "$"%char c
  || isc "{"%char c || isc "}"%char c || isc "("%char c || isc ")"%char c || isc "|"%char c
  || isc "["%char c || isc "]"%char c || isc "\"%char c.

Definition slash : ascii := "/"%char.
Definition colon : ascii := ":"%char.

Definition CR : ascii := ascii_of_nat 13.
Definition LF : ascii := ascii_of_nat 10.

(** [toLowerCase] on the ASCII letters. *)
Definition lower (c : ascii) : ascii :=
  if between 65 90 c then ascii_of_nat (code c + 32) else c.

End Chars.

Module Str.

Fixpoint all (p : ascii -> bool) (s : string) : bool :=
  match s with
  | EmptyString => true
  | String c r => p c && all p r
  end.

Definition is_empty (s : string) : bool :=
  match s with EmptyString => true | _ => false end.

Definition head_is (p : ascii -> bool) (s : string) : bool :=
  match s with EmptyString => false | String c _ => p c end.

Definition eqb (a b : string) : bool := bool_decide (a = b).

Fixpoint map (f : ascii -> ascii) (s : string) : string :=
  match s with
  | EmptyString => EmptyString
  | String c r => String (f c) (map f r)
  end.

Definition toLowerCase (s : string) : string := map Chars.lower s.

(** [startsWith] *)
Fixpoint starts_with (p s : string) : bool :=
  match p, s with
  | EmptyString, _ => true
  | String a p', String b s' => Ascii.eqb a b && starts_with p' s'
  | String _ _, EmptyString => false
  end.

Fixpoint drop (n : nat) (s : string) : string :=
  match n, s with
  | O, _ => s
  | S k, String _ r => drop k r
  | S _, EmptyString => EmptyString
  end.

Fixpoint take (n : nat) (s : string) : string :=
  match n, s with
  | S k, String c r => String c (take k r)
  | _, _ => EmptyString
  end.

(** The longest prefix all of whose characters satisfy [p]. *)
Fixpoint take_while (p : ascii -> bool) (s : string) : string :=
  match s with
  | String c r => if p c then String c (take_while p r) else EmptyString
  | EmptyString => EmptyString
  end.

Fixpoint drop_while (p : ascii -> bool) (s : string) : string :=
  match s with
  | String c r => if p c then drop_while p r else s
  | EmptyString => EmptyString
  end.

(** [indexOf]: offset of the first occurrence of [needle], if any. *)
Fixpoint index_of (needle s : string) : option nat :=
  if starts_with needle s then Some O
  else match s with
       | EmptyString => None
       | String _ r => S <$> index_of needle r
       end.


(** [needle] occurs in [s]. *)
Definition contains (needle s : string) : Prop :=
  exists pre post : string, s = pre +:+ needle +:+ post.
End Str.

(** ** Request matcher, scenario resolver, response builder (matcher.ts) *)

Module Matcher.

Import Chars.

(** Scenario bodies are untyped JSON values; nothing here inspects them. *)
#[local] Unset Elimination Schemes.
Inductive json : Type :=
  | JNull
  | JBool (b : bool)
  | JNum (n : Z)
  | JStr (s : string)
  | JArr (items : list json)
  | JObj (fields : list (string * json)).
#[local] Set Elimination Schemes.

(** The fields of [Scenario] the engine reads; [requestBody],
    [queryParams] and [requestMatcher] are carried by the registry and
    never consulted here. *)
Record Scenario : Type := mkScenario {
  sc_name : string;
  sc_statusCode : Z;
  sc_body : json;
  sc_headers : option (gmap string string);
  sc_responseHeaders : option (gmap string string);
  sc_delay : option Z
}.

Record Resource : Type := mkResource {
  res_id : string;
  res_method : string;
  res_path : string;
  res_scenarios : list Scenario;
  res_passthrough : option bool
}.

Record MatchResult : Type := mkMatch {
  resource : Resource;
  params : gmap string string
}.

(** [ResponseConfig]: exactly the five properties of the object literal
    that buildResponse returns. *)
Record ResponseConfig : Type := mkResponse {
  rc_statusCode : Z;
  rc_headers : gmap string string;
  rc_body : json;
  rc_delay : Z;
  rc_scenario : string
}.

(** *** pathToRegex *)

(** [path.replace(/[.+*?^${}()|[\]\\]/g, '\\$&')] *)
Fixpoint escapeMeta (s : string) : string :=
  match s with
  | EmptyString => EmptyString
  | String c r =>
      if regex_meta c then String "\" (String c (escapeMeta r))
      else String c (escapeMeta r)
  end.

Definition group_source : string := "([^/]+)".

(** The second [replace], of every colon followed by an identifier (a
    letter or underscore, then letters, digits and underscores, as many as
    there are) by the group, pushing the identifier: one left-to-right
    pass.  With [inname] the characters at the head of [s] continue the
    parameter name whose colon has just been read; the first component of
    the result is that (rest of the) name, the second the rewritten text
    of what follows it, the third the names pushed after it, in order. *)
Fixpoint replaceParams (inname : bool) (s : string)
  : string * string * list string :=
  match s with
  | EmptyString => (EmptyString, EmptyString, [])
  | String c r =>
      if inname && ident_char c then
        let '(n, out, names) := replaceParams true r in
        (String c n, out, names)
      else if isc colon c && Str.head_is ident_start r then
        let '(n, out, names) := replaceParams true r in
        (EmptyString, group_source +:+ out, n :: names)
      else
        let '(_, out, names) := replaceParams false r in
        (EmptyString, String c out, names)
  end.

(** A [RegExp] is represented by its source text. *)
Record CompiledPath : Type := mkCompiled {
  regex : string;
  paramNames : list string
}.

Definition pathToRegex (path : string) : CompiledPath :=
  let pattern := escapeMeta path in
  let '(_, pattern, names) := replaceParams false pattern in
  let pattern := "^" +:+ pattern +:+ "$" in
  {| regex := pattern; paramNames := names |}.

(** *** The regular expressions pathToRegex can build

    Assertions [^] and [$], literal characters, identity escapes of syntax
    characters, and the group [([^/]+)].  [parseRegExp] reads a source of
    that fragment ([skip] characters of an already recognised group or
    escape remain to be passed over) and answers [None] for anything
    else. *)
Inductive rtoken : Type :=
  | RBegin
  | REnd
  | RChar (c : ascii)
  | RGroup.

Fixpoint parseRegExp (skip : nat) (s : string) : option (list rtoken) :=
  match s with
  | EmptyString => Some []
  | String c r =>
      match skip with
      | S k => parseRegExp k r
      | O =>
          if isc "\" c then
            match r with
            | String d _ =>
                if regex_meta d then cons (RChar d) <$> parseRegExp 1 r
                else None
            | EmptyString => None
            end
          else if isc "(" c then
            if Str.starts_with "[^/]+)" r
            then cons RGroup <$> parseRegExp 6 r
            else None
          else if isc "^" c then cons RBegin <$> parseRegExp 0 r
          else if isc "$" c then cons REnd <$> parseRegExp 0 r
          else if regex_meta c then None
          else cons (RChar c) <$> parseRegExp 0 r
      end
  end.

(** Backtracking matcher.  The result is the text matched from the current
    position and the captures, in group order. *)
Definition capture (acc : string) (m : string * list string)
  : string * list string :=
  (acc +:+ m.1, acc :: m.2).

(** [([^/]+)] is greedy: take one more character when that leads to a
    match, stop here otherwise; at least one character. *)
Fixpoint group_greedy (k : string -> option (string * list string))
  (acc s : string) : option (string * list string) :=
  let stop :=
    if Str.is_empty acc then None else capture acc <$> k s in
  match s with
  | EmptyString => stop
  | String d r =>
      if isc slash d then stop
      else match group_greedy k (acc +:+ String d "") r with
           | Some m => Some m
           | None => stop
           end
  end.

Fixpoint rmatch (toks : list rtoken) (at_start : bool) (s : string)
  : option (string * list string) :=
  match toks with
  | [] => Some (EmptyString, [])
  | RBegin :: ts => if at_start then rmatch ts at_start s else None
  | REnd :: ts =>
      match s with
      | EmptyString => rmatch ts at_start s
      | String _ _ => None
      end
  | RChar c :: ts =>
      match s with
      | String d r =>
          if Ascii.eqb c d
          then (fun m => (String d m.1, m.2)) <$> rmatch ts false r
          else None
      | EmptyString => None
      end
  | RGroup :: ts => group_greedy (rmatch ts false) EmptyString s
  end.

(** The leftmost position at which the pattern matches. *)
Fixpoint exec_at (toks : list rtoken) (at_start : bool) (s : string)
  : option (string * list string) :=
  match rmatch toks at_start s with
  | Some m => Some m
  | None =>
      match s with
      | EmptyString => None
      | String _ r => exec_at toks false r
      end
  end.

(** [str.match(regex)] for a regex without the [g] flag: the match array,
    element 0 the whole match and then one element per group.  A source
    outside the fragment gives [None] as well; pathToRegex never builds
    one (lemma [pathToRegex_compiles] below). *)
Definition RegExp_exec (source s : string) : option (list string) :=
  toks ← parseRegExp 0 source;
  m ← exec_at toks true s;
  Some (m.1 :: m.2).

Definition RegExp_test (source s : string) : bool :=
  bool_decide (is_Some (RegExp_exec source s)).

(** *** extractParams *)

(** [o[k] = v] for a string [v] on an object that was created by the
    literal [{}] and has been filled by such assignments only; the map
    holds the own properties of the object.  The key [__proto__] is an
    accessor of [Object.prototype]: the assignment calls its setter, which
    ignores a value that is neither an object nor [null], and the object
    gets no property.  Every other key is created or overwritten. *)
Definition assign (k v : string) (o : gmap string string)
  : gmap string string :=
  if Str.eqb k "__proto__" then o else <[k := v]> o.

(** The loop [params[paramNames[i]] = match[i + 1]]. *)
Fixpoint bindParams (names : list string) (i : nat) (m : list string)
  (params : gmap string string) : gmap string string :=
  match names with
  | [] => params
  | n :: rest =>
      bindParams rest (S i) m
        (assign n (default EmptyString (m !! S i)) params)
  end.

Definition extractParams (path pattern : string) : gmap string string :=
  let c := pathToRegex pattern in
  match RegExp_exec (regex c) path with
  | None => ∅
  | Some m => bindParams (paramNames c) 0 m ∅
  end.

(** *** matchRequest *)

(** [s.replace(/\/$/, '')] *)
Fixpoint stripTrailingSlash (s : string) : string :=
  match s with
  | EmptyString => EmptyString
  | String c r =>
      if Str.is_empty r then (if isc slash c then EmptyString else s)
      else String c (stripTrailingSlash r)
  end.

Definition normalizePath (p : string) : string :=
  if Str.eqb p "/" then "/" else stripTrailingSlash p.

Fixpoint matchRequest (method path : string) (resources : list Resource)
  : option MatchResult :=
  let normalizedPath := normalizePath path in
  match resources with
  | [] => None
  | r :: rest =>
      if negb (Str.eqb (res_method r) method) then
        matchRequest method path rest
      else
        let normalizedResourcePath := normalizePath (res_path r) in
        let c := pathToRegex normalizedResourcePath in
        if RegExp_test (regex c) normalizedPath then
          Some {| resource := r;
                  params := extractParams normalizedPath normalizedResourcePath |}
        else matchRequest method path rest
  end.

(** *** resolveScenario *)

(** [scenarios.find(s => s.name === n)] *)
Definition findScenario (n : string) (l : list Scenario) : option Scenario :=
  List.find (fun s => Str.eqb (sc_name s) n) l.

Definition fallbackScenario : Scenario :=
  {| sc_name := "default"; sc_statusCode := 200; sc_body := JObj [];
     sc_headers := Some ∅; sc_responseHeaders := None;
     sc_delay := Some 0 |}.

(** [!scenarioName]: the name is undefined or the empty string. *)
Definition noName (scenarioName : option string) : bool :=
  match scenarioName with
  | None => true
  | Some n => Str.is_empty n
  end.

Definition resolveScenario (r : Resource) (scenarioName : option string)
  : Scenario :=
  if noName scenarioName then
    match findScenario "default" (res_scenarios r) with
    | Some defaultScenario => defaultScenario
    | None =>
        match res_scenarios r with
        | first :: _ => first
        | [] => fallbackScenario
        end
    end
  else
    match findScenario (default EmptyString scenarioName) (res_scenarios r) with
    | Some scenario => scenario
    | None =>
        match findScenario "default" (res_scenarios r) with
        | Some defaultScenario => defaultScenario
        | None =>
            match res_scenarios r with
            | first :: _ => first
            | [] => fallbackScenario
            end
        end
    end.

(** *** buildResponse and handleRequest *)

(** [{ 'Content-Type': 'application/json', ...scenario.responseHeaders }] *)
Definition buildResponse (scenario : Scenario) (ps : gmap string string)
  : ResponseConfig :=
  {| rc_statusCode := sc_statusCode scenario;
     rc_headers :=
       default ∅ (sc_responseHeaders scenario)
         ∪ {[ "Content-Type" := "application/json" ]};
     rc_body := sc_body scenario;
     rc_delay := default 0 (sc_delay scenario);
     rc_scenario := sc_name scenario |}.

(** [headerScenario ?? activeScenario] *)
Definition selectedName (activeScenario : string)
  (headerScenario : option string) : option string :=
  match headerScenario with
  | Some h => Some h
  | None => Some activeScenario
  end.

Definition handleRequest (method path : string) (resources : list Resource)
  (activeScenario : string) (headerScenario : option string)
  : option ResponseConfig :=
  match matchRequest method path resources with
  | None => None
  | Some m =>
      let scenarioName := selectedName activeScenario headerScenario in
      let scenario := resolveScenario (resource m) scenarioName in
      Some (buildResponse scenario (params m))
  end.

(** The scenario a non-empty name designates. *)
Definition requested (n : string) (l : list Scenario) : option Scenario :=
  if Str.is_empty n then None else findScenario n l.

(** *** Vocabulary of the properties of pathToRegex *)

(** Following the design document: every colon that an identifier follows
    declares a parameter, named by the longest identifier after it. *)
Fixpoint colonNames (s : string) : list string :=
  match s with
  | EmptyString => []
  | String c r =>
      if isc colon c && Str.head_is ident_start r
      then Str.take_while ident_char r :: colonNames r
      else colonNames r
  end.

(** The pieces a compiled pattern is made of. *)
Inductive piece : Type :=
  | Plain (c : ascii)
  | Escaped (c : ascii)
  | Group.

Definition renderPiece (p : piece) : string :=
  match p with
  | Plain c => String c EmptyString
  | Escaped c => String "\" (String c EmptyString)
  | Group => group_source
  end.

Definition render (ps : list piece) : string :=
  foldr (fun p acc => renderPiece p +:+ acc) EmptyString ps.

Definition pieceToken (p : piece) : rtoken :=
  match p with
  | Plain c | Escaped c => RChar c
  | Group => RGroup
  end.

Definition wellFormed (p : piece) : Prop :=
  match p with
  | Plain c => regex_meta c = false
  | Escaped c => regex_meta c = true
  | Group => True
  end.

Definition groups (ps : list piece) : nat :=
  length (List.filter (fun p => match p with Group => true | _ => false end) ps).

Definition noSlash (s : string) : Prop :=
  Str.all (fun c => negb (isc slash c)) s = true.

(** A capture of the group: at least one character, none of them a
    slash. *)
Definition goodCapture (v : string) : Prop := v <> EmptyString /\ noSlash v.

End Matcher.

(** ** Mock-or-forward decision (routes/mock.ts, services/proxy-handler.ts) *)

Module Engine.

Import Matcher.

Record Project : Type := mkProject {
  pr_id : string;
  pr_activeScenario : string;
  pr_baseUrl : option string;
  pr_passthroughEnabled : option bool
}.

(** The Mock Registry as the handlers read it: [getActiveProject()] and
    [listResources(id)]. *)
Record Registry : Type := mkRegistry {
  getActiveProject : option Project;
  listResources : string -> list Resource
}.

Record Request : Type := mkRequest {
  req_method : string;
  req_path : string;
  req_headers : gmap string string
}.

(** What a handler does with one request. *)
Inductive Outcome : Type :=
  | NoContext                       (* 503, no active project *)
  | NotFound                        (* 404 *)
  | Forward (baseUrl : string)      (* the request goes to the upstream *)
  | Mock (rc : ResponseConfig) (fromHeader : bool)
  | Declined.                       (* resolveProxyRequest returns null *)

(** Truthiness of an optional string and of an optional boolean. *)
Definition truthyString (s : option string) : bool :=
  match s with
  | Some v => negb (Str.is_empty v)
  | None => false
  end.

Definition truthyBool (b : option bool) : bool := default false b.

Definition canProxy (project : Project) : bool :=
  truthyBool (pr_passthroughEnabled project)
  && truthyString (pr_baseUrl project).

(** [responseConfig.passthrough]: buildResponse writes no such property on
    the object it returns, so the read gives [undefined]. *)
Definition rc_passthrough (rc : ResponseConfig) : option bool := None.

Definition scenarioHeader (req : Request) : option string :=
  req_headers req !! "x-mockmate-scenario".

(** The answer of the direct-connect handler to a matched request;
    [passthrough] is the value read from [responseConfig.passthrough]. *)
Definition answerMatched (activeProject : Project) (passthrough : option bool)
  (responseConfig : ResponseConfig) (headerScenario : option string)
  : Outcome :=
  if truthyBool passthrough && canProxy activeProject
  then Forward (default EmptyString (pr_baseUrl activeProject))
  else Mock responseConfig (truthyString headerScenario).

(** The answer of the proxy path to a matched request. *)
Definition proxyAnswerMatched (project : Project) (passthrough : option bool)
  (responseConfig : ResponseConfig) (headerScenario : option string)
  : Outcome :=
  if truthyBool passthrough && truthyString (pr_baseUrl project)
  then Forward (default EmptyString (pr_baseUrl project))
  else Mock responseConfig (truthyString headerScenario).

(** The direct-connect handler, up to the point where it answers. *)
Definition mockRequestHandler (reg : Registry) (req : Request) : Outcome :=
  match getActiveProject reg with
  | None => NoContext
  | Some activeProject =>
      let resources := listResources reg (pr_id activeProject) in
      let headerScenario := scenarioHeader req in
      match handleRequest (req_method req) (req_path req) resources
              (pr_activeScenario activeProject) headerScenario with
      | None =>
          if canProxy activeProject
          then Forward (default EmptyString (pr_baseUrl activeProject))
          else NotFound
      | Some responseConfig =>
          answerMatched activeProject (rc_passthrough responseConfig)
            responseConfig headerScenario
      end
  end.

Section Proxy.

(** [new URL(u).hostname]; [None] when the constructor throws. *)
Variable urlHostname : string -> option string.

Definition resolveProxyRequest (reg : Registry) (req : Request)
  (host : string) : Outcome :=
  match getActiveProject reg with
  | None => Declined
  | Some project =>
      if negb (truthyString (pr_baseUrl project)) then Declined
      else
        let baseUrl := default EmptyString (pr_baseUrl project) in
        match urlHostname baseUrl with
        | None => Declined
        | Some projectHost =>
            if negb (Str.eqb projectHost host) then Declined
            else
              let resources := listResources reg (pr_id project) in
              let headerScenario := scenarioHeader req in
              match handleRequest (req_method req) (req_path req) resources
                      (pr_activeScenario project) headerScenario with
              | None => Forward baseUrl
              | Some responseConfig =>
                  proxyAnswerMatched project (rc_passthrough responseConfig)
                    responseConfig headerScenario
              end
        end
  end.

End Proxy.

End Engine.

(** ** Certificate cache (services/cert-cache.ts) *)

Module CertCache.

Record CertificateData : Type := mkCertData {
  cert : string;
  privateKey : string
}.

(** A [Map<string, CertificateData>] in insertion order. *)
Definition CertMap : Type := list (string * CertificateData).

Definition map_get (k : string) (m : CertMap) : option CertificateData :=
  snd <$> List.find (fun e => Str.eqb (fst e) k) m.

Definition map_delete (k : string) (m : CertMap) : CertMap :=
  List.filter (fun e => negb (Str.eqb (fst e) k)) m.

(** [set] keeps the position of a key that is present and appends a new
    one. *)
Fixpoint map_set (k : string) (v : CertificateData) (m : CertMap)
  : CertMap :=
  match m with
  | [] => [(k, v)]
  | e :: rest =>
      if Str.eqb (fst e) k then (k, v) :: rest
      else e :: map_set k v rest
  end.

Definition map_keys (m : CertMap) : list string := List.map fst m.

Definition map_size (m : CertMap) : Z := Z.of_nat (List.length m).

Record t : Type := mkCache {
  cache : CertMap;
  maxSize : Z;
  caData : CertificateData;
  hits : Z;
  misses : Z
}.

Record CertCacheOptions : Type := mkOptions {
  opt_maxSize : Z;
  opt_caCert : string;
  opt_caKey : string
}.

Definition new (options : CertCacheOptions) : t :=
  {| cache := [];
     maxSize := opt_maxSize options;
     caData := {| cert := opt_caCert options;
                  privateKey := opt_caKey options |};
     hits := 0;
     misses := 0 |}.

Section WithIssuer.

(** [generateServerCert] of ./certs/generator as one call of [getCert]
    reaches it; [None] when it throws.  The generator draws a new key
    pair, a new serial number and the clock at every call: the variable
    stands for the generator with the draws of the call at hand, and where
    the certificates of several calls are compared every call is given
    its own draws ([runWith] below). *)
Variable generateServerCert :
  CertificateData -> list string -> option CertificateData.

(** The oldest key is removed when it is a truthy string. *)
Definition evictOldest (m : CertMap) : CertMap :=
  match map_keys m with
  | oldestKey :: _ =>
      if Str.is_empty oldestKey then m else map_delete oldestKey m
  | [] => m
  end.

(** The cache after the call and the certificate returned ([None]: the
    issuer threw, after the counter and the eviction). *)
Definition getCert (c : t) (domain : string) : t * option CertificateData :=
  match map_get domain (cache c) with
  | Some cached =>
      ({| cache := map_set domain cached (map_delete domain (cache c));
          maxSize := maxSize c; caData := caData c;
          hits := hits c + 1; misses := misses c |},
       Some cached)
  | None =>
      let misses' := misses c + 1 in
      let cache1 :=
        if map_size (cache c) >=? maxSize c then evictOldest (cache c)
        else cache c in
      match generateServerCert (caData c) [domain] with
      | None =>
          ({| cache := cache1; maxSize := maxSize c; caData := caData c;
              hits := hits c; misses := misses' |}, None)
      | Some crt =>
          ({| cache := map_set domain crt cache1;
              maxSize := maxSize c; caData := caData c;
              hits := hits c; misses := misses' |}, Some crt)
      end
  end.

Definition clear (c : t) : t :=
  {| cache := []; maxSize := maxSize c; caData := caData c;
     hits := 0; misses := 0 |}.

Record Stats : Type := mkStats {
  st_size : Z; st_maxSize : Z; st_hits : Z; st_misses : Z
}.

Definition stats (c : t) : Stats :=
  {| st_size := map_size (cache c); st_maxSize := maxSize c;
     st_hits := hits c; st_misses := misses c |}.

(** Sequences of calls on one cache, for the properties that do not
    compare the certificates of different calls. *)
Inductive Call : Type :=
  | GetCert (domain : string)
  | Clear.

Definition call (c : t) (op : Call) : t :=
  match op with
  | GetCert d => (getCert c d).1
  | Clear => clear c
  end.

Definition run (c : t) (ops : list Call) : t := foldl call c ops.

(** The keys a call removes from the cache. *)
Definition evicted (before after : t) : list string :=
  List.filter (fun k => bool_decide (k ∉ map_keys (cache after)))
    (map_keys (cache before)).

(** The most recently used key: the last one in map order. *)
Definition mru (c : t) : option string := last (map_keys (cache c)).

End WithIssuer.

(** The keys stay distinct and non-empty, and the cache stays within a
    positive bound. *)
Record Inv (c : t) : Prop := mkInv {
  inv_nodup : NoDup (map_keys (cache c));
  inv_nonempty : forall k, k ∈ map_keys (cache c) -> k <> EmptyString;
  inv_size : map_size (cache c) <= maxSize c
}.

(** The keys a miss leaves before the new certificate is stored. *)
Definition afterEviction (c : t) : CertMap :=
  if map_size (cache c) >=? maxSize c then evictOldest (cache c)
  else cache c.

Definition nonEmptyDomains (ops : list Call) : Prop :=
  forall d, GetCert d ∈ ops -> d <> EmptyString.

(** The key order after a call that returns a certificate. *)
Definition keysAfter (max : Z) (keys : list string) (d : string)
  : list string :=
  if bool_decide (d ∈ keys) then
    List.filter (fun x => negb (Str.eqb x d)) keys ++ [d]
  else
    (if Z.of_nat (length keys) >=? max then
       match keys with
       | k :: ks =>
           if Str.is_empty k then k :: ks
           else List.filter (fun x => negb (Str.eqb x k)) (k :: ks)
       | [] => []
       end
     else keys) ++ [d].

End CertCache.

(** ** Certificate authority and leaf issuer (services/certs/generator.ts) *)

Module Certs.

Import Chars.
Export CertCache (CertificateData, mkCertData, cert, privateKey).

Record Attribute : Type := mkAttr {
  attr_name : string;
  attr_value : string
}.

(** An entry of [altNames]: [{ type: 2, value }] for a DNS name and
    [{ type: 7, ip, value }] for an IP address. *)
Record AltName : Type := mkAltName {
  an_type : Z;
  an_value : string;
  an_ip : option string
}.

Definition dnsName (d : string) : AltName :=
  {| an_type := 2; an_value := d; an_ip := None |}.

Definition ipAddress (d : string) : AltName :=
  {| an_type := 7; an_value := d; an_ip := Some d |}.

Inductive Extension : Type :=
  | BasicConstraints (cA : bool)
  | KeyUsage (keyCertSign digitalSignature keyEncipherment : bool)
  | ExtKeyUsage (serverAuth : bool)
  | SubjectAltName (altNames : list AltName)
  | SubjectKeyIdentifier
  | AuthorityKeyIdentifier (keyid : option string).

Record Certificate : Type := mkCertificate {
  publicKey : string;
  serialNumber : string;
  notBefore : Z;
  notAfter : Z;
  subject : list Attribute;
  issuer : list Attribute;
  extensions : list Extension;
  signedWith : option string          (* the key [cert.sign] was called with *)
}.

(** What one call draws from the outside: the key pair, 16 random bytes in
    hexadecimal, the clock. *)
Record Entropy : Type := mkEntropy {
  keys_publicKey : string;
  keys_privateKey : string;
  serialHex : string;
  now : Z
}.

Definition CA_VALIDITY_YEARS : Z := 10.
Definition SERVER_VALIDITY_YEARS : Z := 1.
Definition REGENERATE_THRESHOLD_DAYS : Z := 30.

(** [/^\d+\.\d+\.\d+\.\d+$/.test(domain)]: [dots] more dots are expected
    and [seen] tells that the current run of digits is not empty. *)
Fixpoint ipPattern (dots : nat) (seen : bool) (s : string) : bool :=
  match s with
  | EmptyString => seen && Nat.eqb dots 0
  | String c r =>
      if digit c then ipPattern dots true r
      else if isc "." c then
        match dots with
        | S k => seen && ipPattern k false r
        | O => false
        end
      else false
  end.

Definition looksLikeIP (domain : string) : bool := ipPattern 3 false domain.

(** [[...new Set(l)]]: first occurrences, in order. *)
Fixpoint dedupe (seen l : list string) : list string :=
  match l with
  | [] => []
  | x :: rest =>
      if bool_decide (x ∈ seen) then dedupe seen rest
      else x :: dedupe (x :: seen) rest
  end.

Definition defaultDomains : list string := ["localhost"; "127.0.0.1"].

Definition altNameOf (domain : string) : AltName :=
  if looksLikeIP domain then ipAddress domain else dnsName domain.

Definition buildAltNames (domains : list string) : list AltName :=
  let allDomains := dedupe [] (defaultDomains ++ domains) in
  List.map altNameOf allDomains.

Definition caAttrs : list Attribute :=
  [ mkAttr "commonName" "MockMate CA";
    mkAttr "organizationName" "MockMate";
    mkAttr "countryName" "US" ].

Definition serverAttrs : list Attribute :=
  [ mkAttr "commonName" "MockMate Server";
    mkAttr "organizationName" "MockMate";
    mkAttr "countryName" "US" ].

Section WithForge.

(** node-forge and the clock: PEM decoding ([None] when it throws), PEM
    encoding, the subject key identifier of a certificate, and
    [setFullYear(getFullYear() + n)] on a time stamp. *)
Variable certificateFromPem : string -> option Certificate.
Variable privateKeyFromPem : string -> option string.
Variable certificateToPem : Certificate -> string.
Variable privateKeyToPem : string -> string.
Variable generateSubjectKeyIdentifier : Certificate -> string.
Variable addYears : Z -> Z -> Z.

(** The certificate object generateCA signs. *)
Definition caCertificate (e : Entropy) : Certificate :=
  {| publicKey := keys_publicKey e;
     serialNumber := "01";
     notBefore := now e;
     notAfter := addYears (now e) CA_VALIDITY_YEARS;
     subject := caAttrs;
     issuer := caAttrs;
     extensions :=
       [ BasicConstraints true;
         KeyUsage true true true;
         SubjectKeyIdentifier;
         AuthorityKeyIdentifier None ];
     signedWith := Some (keys_privateKey e) |}.

Definition generateCA (e : Entropy) : CertificateData :=
  {| cert := certificateToPem (caCertificate e);
     privateKey := privateKeyToPem (keys_privateKey e) |}.

(** The certificate object generateServerCert signs with the CA key. *)
Definition serverCertificate (caCert : Certificate) (caKey : string)
  (e : Entropy) (domains : list string) : Certificate :=
  {| publicKey := keys_publicKey e;
     serialNumber := serialHex e;
     notBefore := now e;
     notAfter := addYears (now e) SERVER_VALIDITY_YEARS;
     subject := serverAttrs;
     issuer := subject caCert;
     extensions :=
       [ BasicConstraints false;
         KeyUsage false true true;
         ExtKeyUsage true;
         SubjectAltName (buildAltNames domains);
         SubjectKeyIdentifier;
         AuthorityKeyIdentifier (Some (generateSubjectKeyIdentifier caCert)) ];
     signedWith := Some caKey |}.

Definition generateServerCert (e : Entropy) (ca : CertificateData)
  (domains : list string) : option CertificateData :=
  caCert ← certificateFromPem (cert ca);
  caKey ← privateKeyFromPem (privateKey ca);
  Some {| cert := certificateToPem (serverCertificate caCert caKey e domains);
          privateKey := privateKeyToPem (keys_privateKey e) |}.

End WithForge.

(** Readings of a certificate's extensions. *)
Definition basicConstraintsCA (c : Certificate) : list bool :=
  omap (fun x => match x with BasicConstraints b => Some b | _ => None end)
    (extensions c).

Definition subjectAltNames (c : Certificate) : list AltName :=
  mjoin (omap (fun x => match x with SubjectAltName l => Some l | _ => None end)
           (extensions c)).

(** Following the design document: a dotted quad is four non-empty runs
    of decimal digits separated by dots. *)
Definition digits (s : string) : Prop :=
  s <> EmptyString /\ Str.all digit s = true.

Definition dottedQuad (d : string) : Prop :=
  exists a b c e : string,
    digits a /\ digits b /\ digits c /\ digits e /\
    d = a +:+ "." +:+ b +:+ "." +:+ c +:+ "." +:+ e.

(** [n] dots separate [n + 1] non-empty runs of digits. *)
Fixpoint dottedRuns (n : nat) (s : string) : Prop :=
  match n with
  | O => digits s
  | S k => exists a r : string, digits a /\ s = a +:+ "." +:+ r /\ dottedRuns k r
  end.

End Certs.

(** ** Request framing inside the MITM tunnel (services/proxy-server.ts) *)

Module ProxyServer.

Import Chars.

Definition CRLF : string := String CR (String LF EmptyString).
Definition terminator : string := CRLF +:+ CRLF.

(** Width in bytes of the white-space character whose UTF-8 encoding is
    at the head of [s], 0 when there is none.  [\s] is tab, line feed,
    vertical tab, form feed, carriage return, space, U+00A0, U+1680,
    U+2000 to U+200A, U+2028, U+2029, U+202F, U+205F, U+3000 and
    U+FEFF. *)
Definition spaceWidth (s : string) : nat :=
  match s with
  | EmptyString => 0%nat
  | String c r =>
      let b0 := code c in
      if Nat.leb 9 b0 && Nat.leb b0 13 || Nat.eqb b0 32 then 1%nat
      else
        match r with
        | EmptyString => 0%nat
        | String c1 r1 =>
            let b1 := code c1 in
            if Nat.eqb b0 194 && Nat.eqb b1 160 then 2%nat
            else
              match r1 with
              | EmptyString => 0%nat
              | String c2 _ =>
                  let b2 := code c2 in
                  if Nat.eqb b0 225 && Nat.eqb b1 154 && Nat.eqb b2 128
                     || Nat.eqb b0 226 && Nat.eqb b1 128
                        && (Nat.leb 128 b2 && Nat.leb b2 138
                            || Nat.eqb b2 168 || Nat.eqb b2 169
                            || Nat.eqb b2 175)
                     || Nat.eqb b0 226 && Nat.eqb b1 129 && Nat.eqb b2 159
                     || Nat.eqb b0 227 && Nat.eqb b1 128 && Nat.eqb b2 128
                     || Nat.eqb b0 239 && Nat.eqb b1 187 && Nat.eqb b2 191
                  then 3%nat
                  else 0%nat
              end
        end
  end.

(** [\s*]: [skip] bytes of a character already recognised remain. *)
Fixpoint skipSpaces (skip : nat) (s : string) : string :=
  match s with
  | EmptyString => EmptyString
  | String _ r =>
      match skip with
      | S k => skipSpaces k r
      | O =>
          match spaceWidth s with
          | O => s
          | S k => skipSpaces k r
          end
      end
  end.

(** The pattern [content-length:\s*(\d+)] with the [i] flag, tried at the
    head of [s]: the digits of the group. *)
Definition contentLengthHere (s : string) : option string :=
  if Str.starts_with "content-length:" (Str.toLowerCase s) then
    let d := Str.take_while digit (skipSpaces 0 (Str.drop 15 s)) in
    if Str.is_empty d then None else Some d
  else None.

(** [headerStr.match(...)]: the leftmost match. *)
Fixpoint contentLengthMatch (s : string) : option string :=
  match contentLengthHere s with
  | Some d => Some d
  | None =>
      match s with
      | EmptyString => None
      | String _ r => contentLengthMatch r
      end
  end.

(** [parseInt(d, 10)] on a run of decimal digits. *)
Definition parseInt (d : string) : N :=
  (fix go (acc : N) (s : string) : N :=
     match s with
     | EmptyString => acc
     | String c r => go (acc * 10 + N.of_nat (code c - 48))%N r
     end) 0%N d.

Definition contentLengthOf (headerStr : string) : N :=
  match contentLengthMatch headerStr with
  | Some d => parseInt d
  | None => 0%N
  end.

(** The method and the path of the result of parseHttpRequest. *)
Record ParsedRequest : Type := mkParsed {
  pq_method : string;
  pq_path : string
}.

Definition isSpace (c : ascii) : bool := isc " " c.

Definition firstLine (headerSection : string) : string :=
  match Str.index_of CRLF headerSection with
  | Some i => Str.take i headerSection
  | None => headerSection
  end.

(** What the [data] listener of the TLS socket does with the bytes it
    holds. *)
Inductive Action : Type :=
  | Wait                                  (* return, nothing written *)
  | BadRequest                            (* the synthesized 400 is written *)
  | Dispatch (request : ParsedRequest) (requestData : string).

Section WithURL.

(** [new URL(rawPath)] on an absolute target: [url.pathname + url.search],
    [None] when the constructor throws. *)
Variable urlPathAndSearch : string -> option string.

(** The target of a proxy request may be a full URL: its path and query
    are kept; a target the constructor rejects is kept as it is. *)
Definition pathOfTarget (rawPath : string) : string :=
  if Str.starts_with "http://" rawPath || Str.starts_with "https://" rawPath
  then default rawPath (urlPathAndSearch rawPath)
  else rawPath.

(** [null] when the block has no terminator, when its first line is empty
    and when that line has fewer than two space-separated parts.  The
    header map and the body of the result play no part in the framing and
    are left out. *)
Definition parseHttpRequest (data : string) : option ParsedRequest :=
  headerEndIndex ← Str.index_of terminator data;
  let headerSection := Str.take headerEndIndex data in
  let requestLine := firstLine headerSection in
  if Str.is_empty requestLine then None
  else
    let method := Str.take_while (fun c => negb (isSpace c)) requestLine in
    match Str.drop_while (fun c => negb (isSpace c)) requestLine with
    | EmptyString => None
    | String _ afterSpace =>
        let rawPath :=
          Str.take_while (fun c => negb (isSpace c)) afterSpace in
        Some {| pq_method := method; pq_path := pathOfTarget rawPath |}
    end.

(** One [data] event: the buffer kept for the next event and the action. *)
Definition onData (buffer chunk : string) : string * Action :=
  let buffer := buffer +:+ chunk in
  match Str.index_of terminator buffer with
  | None => (buffer, Wait)
  | Some headerEnd =>
      let headerStr := Str.take headerEnd buffer in
      let contentLength := contentLengthOf headerStr in
      let totalExpected := (N.of_nat headerEnd + 4 + contentLength)%N in
      if (N.of_nat (String.length buffer) <? totalExpected)%N then
        (buffer, Wait)
      else
        let requestData := Str.take (N.to_nat totalExpected) buffer in
        let buffer := Str.drop (N.to_nat totalExpected) buffer in
        match parseHttpRequest requestData with
        | None => (buffer, BadRequest)
        | Some parsed => (buffer, Dispatch parsed requestData)
        end
  end.

End WithURL.

End ProxyServer.

(** ** Upstream forwarder (services/proxy-handler.ts, services/proxy.ts) *)

Module Forwarder.

Import Matcher.

Definition PROXY_TIMEOUT_MS : Z := 30000.

Definition EXCLUDED_REQUEST_HEADERS : list string :=
  ["host"; "connection"; "proxy-connection"; "content-length";
   "transfer-encoding"; "x-mockmate-scenario"].

(** The set of services/proxy.ts has no [proxy-connection]. *)
Definition EXCLUDED_REQUEST_HEADERS_direct : list string :=
  ["host"; "connection"; "content-length"; "transfer-encoding";
   "x-mockmate-scenario"].

Definition EXCLUDED_RESPONSE_HEADERS : list string :=
  ["transfer-encoding"; "content-encoding"; "connection"; "keep-alive"].

(** A response body: bytes relayed from the upstream, or the text of
    [JSON.stringify] of a value. *)
Inductive Body : Type :=
  | Bytes (b : string)
  | Json (j : json).

Record ProxyIncomingRequest : Type := mkIncoming {
  in_method : string;
  in_path : string;
  in_headers : gmap string string;
  in_body : option string
}.

Record ProxyOutgoingResponse : Type := mkOutgoing {
  out_statusCode : Z;
  out_headers : gmap string string;
  out_body : Body;
  out_proxied : bool
}.

(** What the upstream does with one request, and when (milliseconds after
    the call). *)
Inductive Upstream : Type :=
  | Responds (after_ms status : Z) (headers : list (string * string))
      (body : string)
  | Fails (after_ms : Z) (name message : string)
  | Silent.

(** The [await]ed part of the [try] block: its value, or the error it
    throws.  The controller aborts the call when the timer of
    [PROXY_TIMEOUT_MS] fires first. *)
Inductive Attempt : Type :=
  | Completed (status : Z) (headers : list (string * string)) (body : string)
  | Rejected (name message : string).

Definition abortError : Attempt :=
  Rejected "AbortError" "This operation was aborted".

Definition attempt (u : Upstream) : Attempt :=
  match u with
  | Responds t status headers body =>
      if t <? PROXY_TIMEOUT_MS then Completed status headers body
      else abortError
  | Fails t name message =>
      if t <? PROXY_TIMEOUT_MS then Rejected name message else abortError
  | Silent => abortError
  end.

(** A call of the forwarder returns a response or throws. *)
Inductive Result (A : Type) : Type :=
  | Returned (r : A)
  | Thrown (name : string).
Arguments Returned {A} r.
Arguments Thrown {A} name.

Definition keepHeaders (excluded : list string) (hs : gmap string string)
  : gmap string string :=
  filter (fun kv => (Str.toLowerCase kv.1 ∉ excluded)
                    /\ (kv.2 <> EmptyString)) hs.

(** [response.headers.forEach] with [responseHeaders[key] = value] on an
    object created by [{}]: a header named [__proto__] is not stored. *)
Definition responseHeaders (hs : list (string * string))
  : gmap string string :=
  foldl (fun acc kv =>
           if bool_decide (Str.toLowerCase kv.1 ∈ EXCLUDED_RESPONSE_HEADERS)
           then acc else assign kv.1 kv.2 acc) ∅ hs.

Definition jsonContentType : gmap string string :=
  {[ "content-type" := "application/json" ]}.

Definition errorBody (error message : string) : Body :=
  Json (JObj [("error", JStr error); ("message", JStr message)]).

Definition hasBody (method : string) : bool :=
  bool_decide (method ∈ ["POST"; "PUT"; "PATCH"]).

Section WithPlatform.

(** [new URL(input, base).toString()], [None] when the constructor
    throws; and [fetch] with the body read to its end. *)
Variable URL_new : string -> string -> option string.
Variable fetch :
  string -> string -> gmap string string -> option string -> Upstream.

(** forwardRequest of services/proxy-handler.ts. *)
Definition forwardRequest (baseUrl : string) (req : ProxyIncomingRequest)
  : Result ProxyOutgoingResponse :=
  match URL_new (in_path req) baseUrl with
  | None => Thrown "TypeError"
  | Some targetUrl =>
      let forwardHeaders :=
        keepHeaders EXCLUDED_REQUEST_HEADERS (in_headers req) in
      let body :=
        match in_body req with
        | Some b =>
            if hasBody (in_method req) && negb (Str.is_empty b)
            then Some b else None
        | None => None
        end in
      match attempt (fetch targetUrl (in_method req) forwardHeaders body) with
      | Completed status headers body =>
          Returned {| out_statusCode := status;
                      out_headers := responseHeaders headers;
                      out_body := Bytes body;
                      out_proxied := true |}
      | Rejected name message =>
          if Str.eqb name "AbortError" then
            Returned {| out_statusCode := 504;
                        out_headers := jsonContentType;
                        out_body :=
                          errorBody "Gateway Timeout"
                            "Upstream server did not respond within 30s";
                        out_proxied := true |}
          else
            Returned {| out_statusCode := 502;
                        out_headers := jsonContentType;
                        out_body :=
                          errorBody "Bad Gateway"
                            ("Failed to reach upstream server: " +:+ message);
                        out_proxied := true |}
      end
  end.

(** An Express request as proxyRequest reads it. *)
Record ExpressRequest : Type := mkExpress {
  ex_method : string;
  ex_originalUrl : string;
  ex_headers : gmap string string;
  ex_body : option json
}.

(** [ProxyResult] without its [duration]. *)
Record ProxyResult : Type := mkProxyResult {
  pr_statusCode : Z;
  pr_headers : gmap string string;
  pr_body : Body;
  pr_contentType : string
}.

Variable stringify : json -> string.

(** [response.headers.get('content-type') || 'application/octet-stream'] *)
Definition contentTypeOf (hs : list (string * string)) : string :=
  match List.find (fun kv => Str.eqb (Str.toLowerCase kv.1) "content-type") hs with
  | Some kv => if Str.is_empty kv.2 then "application/octet-stream" else kv.2
  | None => "application/octet-stream"
  end.

(** proxyRequest of services/proxy.ts. *)
Definition proxyRequest (baseUrl : string) (req : ExpressRequest)
  : Result ProxyResult :=
  match URL_new (ex_originalUrl req) baseUrl with
  | None => Thrown "TypeError"
  | Some targetUrl =>
      let forwardHeaders :=
        keepHeaders EXCLUDED_REQUEST_HEADERS_direct (ex_headers req) in
      let method := ex_method req in
      let '(forwardHeaders, body) :=
        match ex_body req with
        | Some b =>
            if hasBody method then
              (if bool_decide (is_Some (forwardHeaders !! "content-type"))
               then forwardHeaders
               else <["content-type" := "application/json"]> forwardHeaders,
               Some (stringify b))
            else (forwardHeaders, None)
        | None => (forwardHeaders, None)
        end in
      match attempt (fetch targetUrl method forwardHeaders body) with
      | Completed status headers body =>
          Returned {| pr_statusCode := status;
                      pr_headers := responseHeaders headers;
                      pr_body := Bytes body;
                      pr_contentType := contentTypeOf headers |}
      | Rejected name message =>
          if Str.eqb name "AbortError" then
            Returned {| pr_statusCode := 504;
                        pr_headers := jsonContentType;
                        pr_body :=
                          errorBody "Gateway Timeout"
                            "Upstream server did not respond within 30 seconds";
                        pr_contentType := "application/json" |}
          else
            Returned {| pr_statusCode := 502;
                        pr_headers := jsonContentType;
                        pr_body :=
                          errorBody "Bad Gateway"
                            ("Failed to reach upstream server: " +:+ message);
                        pr_contentType := "application/json" |}
      end
  end.

End WithPlatform.

End Forwarder.

(** ** Concrete registries and requests used by the examples *)

Module Fixtures.
Import Matcher.

Definition scenarioNamed (n : string) (status : Z) : Scenario :=
  {| sc_name := n; sc_statusCode := status;
     sc_body := JObj [("scenario", JStr n)];
     sc_headers := None; sc_responseHeaders := None; sc_delay := None |}.

(** The resource of the fallback test of matcher.test.ts. *)
Definition testResource : Resource :=
  {| res_id := "res_1"; res_method := "GET"; res_path := "/api/test";
     res_scenarios :=
       [scenarioNamed "default" 200; scenarioNamed "active" 200;
        scenarioNamed "header" 200];
     res_passthrough := None |}.

(** A resource without a default scenario. *)
Definition betaResource : Resource :=
  {| res_id := "res_2"; res_method := "GET"; res_path := "/api/beta";
     res_scenarios := [scenarioNamed "beta" 200];
     res_passthrough := None |}.
End Fixtures.

Module EngineFixtures.
Import Matcher Engine Fixtures.

(** [new URL(u).hostname] at the one base URL of the examples. *)
Definition exampleHostname (u : string) : option string :=
  if Str.eqb u "https://api.example.com" then Some "api.example.com"
  else None.

Definition exampleProject (passthroughEnabled : option bool) : Project :=
  {| pr_id := "shop"; pr_activeScenario := "default";
     pr_baseUrl := Some "https://api.example.com";
     pr_passthroughEnabled := passthroughEnabled |}.

(** A resource marked passthrough. *)
Definition ordersResource : Resource :=
  {| res_id := "res_orders"; res_method := "GET"; res_path := "/orders/:id";
     res_scenarios := [scenarioNamed "default" 200; scenarioNamed "error" 500];
     res_passthrough := Some true |}.

Definition exampleRegistry (passthroughEnabled : option bool) : Registry :=
  {| getActiveProject := Some (exampleProject passthroughEnabled);
     listResources := fun _ => [ordersResource] |}.

Definition getOrder : Request :=
  {| req_method := "GET"; req_path := "/orders/42"; req_headers := ∅ |}.

Definition getUnknown : Request :=
  {| req_method := "GET"; req_path := "/unknown"; req_headers := ∅ |}.
End EngineFixtures.

Module CacheFixtures.
Import CertCache.

(** An issuer that always succeeds. *)
Definition exampleIssuer (ca : CertificateData) (domains : list string)
  : option CertificateData :=
  Some {| cert := "cert:" +:+ default EmptyString (head domains);
          privateKey := "key:" +:+ default EmptyString (head domains) |}.

Definition exampleOptions (n : Z) : CertCacheOptions :=
  {| opt_maxSize := n; opt_caCert := "ca.crt"; opt_caKey := "ca.key" |}.
End CacheFixtures.

Module CertsFixtures.
Import Certs.

Definition exampleAddYears (t n : Z) : Z := t + n * 31536000000.

Definition exampleCertToPem (c : Certificate) : string :=
  "PEM:" +:+ serialNumber c.

Definition exampleKeyToPem (k : string) : string := "PEM:" +:+ k.

Definition exampleCaEntropy : Entropy :=
  {| keys_publicKey := "ca.pub"; keys_privateKey := "ca.key";
     serialHex := "00"; now := 0 |}.

Definition exampleCertFromPem (pem : string) : option Certificate :=
  if Str.eqb pem "PEM:01"
  then Some (caCertificate exampleAddYears exampleCaEntropy)
  else None.

Definition exampleKeyFromPem (pem : string) : option string :=
  if Str.starts_with "PEM:" pem then Some (Str.drop 4 pem) else None.

Definition exampleKeyId (c : Certificate) : string := "ski:" +:+ publicKey c.

Definition exampleCA : CertificateData :=
  generateCA exampleCertToPem exampleKeyToPem exampleAddYears exampleCaEntropy.

Definition exampleLeafEntropy : Entropy :=
  {| keys_publicKey := "leaf.pub"; keys_privateKey := "leaf.key";
     serialHex := "0a0b"; now := 1000 |}.

Definition exampleDomains : list string := ["api.example.com"; "10.0.0.7"].

Definition exampleLeaf : CertificateData :=
  {| cert := "PEM:0a0b"; privateKey := "PEM:leaf.key" |}.
End CertsFixtures.

Module FramingFixtures.
Import ProxyServer.
(** Two pipelined requests, the second one not yet complete. *)
Definition firstRequest : string :=
  "POST /a HTTP/1.1" +:+ CRLF +:+ "Content-Length: 2" +:+ CRLF +:+ CRLF +:+ "hi".

(** [new URL(u)] at the targets of the examples: the text from the first
    slash after the authority, a single slash when there is none; a target
    without an authority is rejected. *)
Definition examplePathAndSearch (u : string) : option string :=
  let afterScheme :=
    if Str.starts_with "http://" u then Str.drop 7 u else Str.drop 8 u in
  let fromSlash :=
    Str.drop_while (fun c => negb (Chars.isc "/" c)) afterScheme in
  if Str.is_empty afterScheme then None
  else Some (if Str.is_empty fromSlash then "/" else fromSlash).

End FramingFixtures.

Module ForwarderFixtures.
Import Matcher Forwarder.

(** [new URL(input, base)] at the inputs of the examples: a target that
    is only an authority marker has no host and is rejected; a path is
    appended to the origin. *)
Definition exampleURL (input base : string) : option string :=
  if Str.eqb input "//" then None else Some (base +:+ input).

(** An upstream that never answers. *)
Definition silentUpstream (url method : string)
  (headers : gmap string string) (body : option string) : Upstream :=
  Silent.

(** An upstream that refuses the connection at once. *)
Definition refusingUpstream (url method : string)
  (headers : gmap string string) (body : option string) : Upstream :=
  Fails 3 "TypeError" "fetch failed".

Definition getTarget (target : string) : ProxyIncomingRequest :=
  {| in_method := "GET"; in_path := target; in_headers := ∅;
     in_body := None |}.

Definition expressGet (target : string) : ExpressRequest :=
  {| ex_method := "GET"; ex_originalUrl := target; ex_headers := ∅;
     ex_body := None |}.

Definition exampleStringify (j : json) : string := "{}".
End ForwarderFixtures.

(** ** Vocabulary of the routing properties *)

Module Routing.

Import Chars Matcher.

(** The pieces of the pattern a path pattern compiles to: an escaped piece
    for a syntax character, nothing for the characters of a parameter
    name, a group for the colon of a parameter, a plain piece for any
    other character. *)
Fixpoint piecesOf (inname : bool) (p : string) : list piece :=
  match p with
  | EmptyString => []
  | String c r =>
      if regex_meta c then Escaped c :: piecesOf false r
      else if inname && ident_char c then piecesOf true r
      else if isc colon c && Str.head_is ident_start r
      then Group :: piecesOf true r
      else Plain c :: piecesOf false r
  end.

(** The text of a list of pieces with the groups replaced by values. *)
Fixpoint fill (ps : list piece) (vals : list string) : string :=
  match ps with
  | [] => EmptyString
  | Plain c :: rest | Escaped c :: rest => String c (fill rest vals)
  | Group :: rest =>
      match vals with
      | v :: vs => v +:+ fill rest vs
      | [] => fill rest []
      end
  end.

(** A pattern with a value in the place of every declared parameter,
    left to right. *)
Fixpoint instantiate (inname : bool) (p : string) (vals : list string)
  : string :=
  match p with
  | EmptyString => EmptyString
  | String c r =>
      if inname && ident_char c then instantiate true r vals
      else if isc colon c && Str.head_is ident_start r then
        match vals with
        | v :: vs => v +:+ instantiate true r vs
        | [] => instantiate true r []
        end
      else String c (instantiate false r vals)
  end.

(** A resource answers a request: same method, and the compiled pattern
    of its normalized path matches the normalized request path. *)
Definition resourceMatches (method path : string) (r : Resource) : bool :=
  Str.eqb (res_method r) method
  && RegExp_test (regex (pathToRegex (normalizePath (res_path r))))
       (normalizePath path).

Definition matchOf (path : string) (r : Resource) : MatchResult :=
  {| resource := r;
     params := extractParams (normalizePath path)
                 (normalizePath (res_path r)) |}.

Definition endsWithSlash (p : string) : Prop :=
  exists q : string, p = q +:+ "/".

End Routing.

(** ** CONNECT handling and the plain HTTP proxy (services/proxy-server.ts) *)

Module ConnectFixtures.
Import Engine.
(** A request whose scenario header names no scenario. *)
Definition getOrderGhost : Request :=
  {| req_method := "GET"; req_path := "/orders/42";
     req_headers := {[ "x-mockmate-scenario" := "ghost" ]} |}.
End ConnectFixtures.

Module Connect.

Import Chars Matcher Engine.

(** [s.split(sep)] for a separator of one character. *)
Fixpoint splitOn (sep : ascii) (s : string) : list string :=
  match s with
  | EmptyString => [EmptyString]
  | String c r =>
      if Ascii.eqb c sep then EmptyString :: splitOn sep r
      else match splitOn sep r with
           | h :: t => String c h :: t
           | [] => [String c EmptyString]
           end
  end.

(** [c] does not occur in [s]. *)
Definition without (c : ascii) (s : string) : Prop :=
  Str.all (fun x => negb (Ascii.eqb x c)) s = true.

Section WithPlatform.

(** [new URL(u).hostname]; [None] when the constructor throws. *)
Variable urlHostname : string -> option string.

(** [generateServerCert] as the certificate cache calls it. *)
Variable generateServerCert :
  CertCache.CertificateData -> list string -> option CertCache.CertificateData.

Definition shouldIntercept (reg : Registry) (hostname : string) : bool :=
  match getActiveProject reg with
  | None => false
  | Some project =>
      if negb (truthyString (pr_baseUrl project)) then false
      else match urlHostname (default EmptyString (pr_baseUrl project)) with
           | Some projectHost => Str.eqb projectHost hostname
           | None => false
           end
  end.

(** What handleConnect does with a CONNECT line.  The port of a blind
    tunnel is [parseInt] of the text carried here. *)
Inductive ConnectDecision : Type :=
  | BadConnect                                   (* 400 *)
  | BlindTunnel (hostname portText : string)
  | Mitm (hostname : string) (certData : option CertCache.CertificateData).

Definition handleConnect (reg : Registry) (certCache : CertCache.t)
  (connectLine : string) : ConnectDecision * CertCache.t :=
  let parts := splitOn " " connectLine in
  match parts !! 1%nat with
  | None => (BadConnect, certCache)
  | Some target =>
      if Str.is_empty target then (BadConnect, certCache)
      else
        let hostAndPort := splitOn ":" target in
        let hostname := default EmptyString (hostAndPort !! 0%nat) in
        let portStr := hostAndPort !! 1%nat in
        let portText :=
          if truthyString portStr then default EmptyString portStr
          else "443" in
        if negb (shouldIntercept reg hostname) then
          (BlindTunnel hostname portText, certCache)
        else
          let '(certCache', certData) :=
            CertCache.getCert generateServerCert certCache hostname in
          (Mitm hostname certData, certCache')
  end.

(** The first chunk of a connection: CONNECT or plain HTTP proxy. *)
Definition isConnect (firstLine : string) : bool :=
  Str.starts_with "CONNECT " firstLine.

End WithPlatform.

End Connect.

(** ** Vocabulary of the certificate cache properties *)

Module CacheCounting.

Import CertCache.

(** The [getCert] calls of a sequence that come after its last [clear]. *)
Definition callsSinceClear (ops : list Call) : nat :=
  foldl (fun n op => match op with GetCert _ => S n | Clear => O end) O ops.

End CacheCounting.

(** ** Certificates on disk (services/certs/generator.ts) *)

Module CertStore.

Import Certs.

Record CertificatePair : Type := mkPair {
  ca : CertificateData;
  server : CertificateData
}.

Record CertificateValidation : Type := mkValidation {
  isValid : bool;
  expiryDate : option Z;
  daysUntilExpiry : option Z;
  shouldRegenerate : bool
}.

(** [1000 * 60 * 60 * 24] *)
Definition DAY_MS : Z := 1000 * 60 * 60 * 24.

Section WithForge.

Variable certificateFromPem : string -> option Certificate.

(** [now] is the reading of the clock by [new Date()]; dates are their
    [getTime()], in milliseconds. *)
Definition validateCertificate (now : Z) (certPem : string)
  : CertificateValidation :=
  match certificateFromPem certPem with
  | Some cert =>
      let expiryDate := notAfter cert in
      let daysUntilExpiry := (expiryDate - now) / DAY_MS in
      {| isValid := true;
         expiryDate := Some expiryDate;
         daysUntilExpiry := Some daysUntilExpiry;
         shouldRegenerate := daysUntilExpiry <=? REGENERATE_THRESHOLD_DAYS |}
  | None =>
      {| isValid := false; expiryDate := None; daysUntilExpiry := None;
         shouldRegenerate := true |}
  end.

Definition isCertificateExpired (now : Z) (certPem : string) : bool :=
  match certificateFromPem certPem with
  | Some cert => notAfter cert <? now
  | None => true
  end.

Definition getCertificateExpiry (certPem : string) : option Z :=
  match certificateFromPem certPem with
  | Some cert => Some (notAfter cert)
  | None => None
  end.

(** The clock is read once in each validation. *)
Definition shouldRegenerateCerts (now1 now2 : Z) (certs : CertificatePair)
  : bool :=
  let caValidation := validateCertificate now1 (cert (ca certs)) in
  let serverValidation := validateCertificate now2 (cert (server certs)) in
  shouldRegenerate caValidation || shouldRegenerate serverValidation.

End WithForge.

(** The calls of [fs], [path] and [os] the module makes, on a file system
    of type [FS].  A call that changes the file system returns the new
    one, with [None] in the place of the result when it throws. *)
Record Platform (FS : Type) : Type := mkPlatform {
  homedir : string;
  path_join : list string -> string;
  existsSync : FS -> string -> bool;
  readFileSync : FS -> string -> option string;
  writeFileSync : string -> string -> Z -> FS -> FS * option unit;
  mkdirSync : string -> FS -> FS * option unit
}.

Arguments homedir {FS}.
Arguments path_join {FS}.
Arguments existsSync {FS}.
Arguments readFileSync {FS}.
Arguments writeFileSync {FS}.
Arguments mkdirSync {FS}.

(** Statements in sequence: the first that throws ends the run. *)
Definition andThen {FS : Type} (a b : FS -> FS * option unit)
  : FS -> FS * option unit :=
  fun fs =>
    match a fs with
    | (fs1, Some _) => b fs1
    | (fs1, None) => (fs1, None)
    end.

Infix ">>;" := andThen (at level 62, right associativity).

Section WithPlatform.

Context {FS : Type}.
Variable os : Platform FS.
Variable certificateFromPem : string -> option Certificate.
Variable privateKeyFromPem : string -> option string.
Variable certificateToPem : Certificate -> string.
Variable privateKeyToPem : string -> string.
Variable generateSubjectKeyIdentifier : Certificate -> string.
Variable addYears : Z -> Z -> Z.

Definition CERTS_DIR : string :=
  path_join os [homedir os; ".mockmate"; "certs"].
Definition CA_CERT_PATH : string := path_join os [CERTS_DIR; "ca.crt"].
Definition CA_KEY_PATH : string := path_join os [CERTS_DIR; "ca.key"].
Definition SERVER_CERT_PATH : string := path_join os [CERTS_DIR; "server.crt"].
Definition SERVER_KEY_PATH : string := path_join os [CERTS_DIR; "server.key"].

(** [0o644] and [0o600] *)
Definition MODE_CERT : Z := 420.
Definition MODE_KEY : Z := 384.

Definition saveCertificates (certs : CertificatePair)
  : FS -> FS * option unit :=
  (fun fs =>
     if negb (existsSync os fs CERTS_DIR) then mkdirSync os CERTS_DIR fs
     else (fs, Some tt)) >>;
  writeFileSync os CA_CERT_PATH (cert (ca certs)) MODE_CERT >>;
  writeFileSync os CA_KEY_PATH (privateKey (ca certs)) MODE_KEY >>;
  writeFileSync os SERVER_CERT_PATH (cert (server certs)) MODE_CERT >>;
  writeFileSync os SERVER_KEY_PATH (privateKey (server certs)) MODE_KEY.

Definition loadCertificates (fs : FS) : option CertificatePair :=
  if negb (existsSync os fs CA_CERT_PATH)
     || negb (existsSync os fs CA_KEY_PATH)
     || negb (existsSync os fs SERVER_CERT_PATH)
     || negb (existsSync os fs SERVER_KEY_PATH)
  then None
  else
    caCert ← readFileSync os fs CA_CERT_PATH;
    caKey ← readFileSync os fs CA_KEY_PATH;
    serverCert ← readFileSync os fs SERVER_CERT_PATH;
    serverKey ← readFileSync os fs SERVER_KEY_PATH;
    Some {| ca := {| cert := caCert; privateKey := caKey |};
            server := {| cert := serverCert; privateKey := serverKey |} |}.

(** What one call of ensureCertificates draws from the outside: the two
    readings of the clock of the validations, and the draws of the two
    generators. *)
Record Draws : Type := mkDraws {
  validateCaAt : Z;
  validateServerAt : Z;
  caEntropy : Entropy;
  serverEntropy : Entropy
}.

Definition ensureCertificates (w : Draws) (domains : list string) (fs : FS)
  : FS * option CertificatePair :=
  let existing := loadCertificates fs in
  let generate :=
    let ca := generateCA certificateToPem privateKeyToPem addYears
                (caEntropy w) in
    match generateServerCert certificateFromPem privateKeyFromPem
            certificateToPem privateKeyToPem generateSubjectKeyIdentifier
            addYears (serverEntropy w) ca domains with
    | None => (fs, None)
    | Some server =>
        let certs := {| ca := ca; server := server |} in
        match saveCertificates certs fs with
        | (fs1, Some _) => (fs1, Some certs)
        | (fs1, None) => (fs1, None)
        end
    end in
  match existing with
  | Some certs =>
      if negb (shouldRegenerateCerts certificateFromPem
                 (validateCaAt w) (validateServerAt w) certs)
      then (fs, Some certs)
      else generate
  | None => generate
  end.

(** What the module relies on from the file system: a write that returns
    leaves the written text in the file and touches no other path, and
    the four files have four different paths. *)
Record lawful : Prop := mkLawful {
  written_exists : forall fs fs1 p d m,
    writeFileSync os p d m fs = (fs1, Some tt) -> existsSync os fs1 p = true;
  written_read : forall fs fs1 p d m,
    writeFileSync os p d m fs = (fs1, Some tt) ->
    readFileSync os fs1 p = Some d;
  written_others : forall fs fs1 p d m q,
    writeFileSync os p d m fs = (fs1, Some tt) -> q <> p ->
    existsSync os fs1 q = existsSync os fs q /\
    readFileSync os fs1 q = readFileSync os fs q;
  certPaths_distinct :
    NoDup [CA_CERT_PATH; CA_KEY_PATH; SERVER_CERT_PATH; SERVER_KEY_PATH]
}.

End WithPlatform.

End CertStore.

Module StoreFixtures.
Import Certs CertStore CertsFixtures.

(** A file system that keeps the text of every file, with paths joined
    by slashes. *)
Definition exampleOS : Platform (gmap string string) :=
  {| homedir := "/home/dev";
     path_join := fun parts => foldr (fun a b =>
       if Str.is_empty b then a else a +:+ "/" +:+ b) EmptyString parts;
     existsSync := fun fs p => bool_decide (is_Some (fs !! p));
     readFileSync := fun fs p => fs !! p;
     writeFileSync := fun p d _ fs => (<[p := d]> fs, Some tt);
     mkdirSync := fun _ fs => (fs, Some tt) |}.

Definition exampleServerCertificate : Certificate :=
  serverCertificate exampleKeyId exampleAddYears
    (caCertificate exampleAddYears exampleCaEntropy) "ca.key"
    exampleLeafEntropy exampleDomains.

(** A decoder that knows the two certificates of the examples. *)
Definition storeCertFromPem (pem : string) : option Certificate :=
  if Str.eqb pem "PEM:01"
  then Some (caCertificate exampleAddYears exampleCaEntropy)
  else if Str.eqb pem "PEM:0a0b" then Some exampleServerCertificate
  else None.

Definition examplePair : CertificatePair :=
  {| ca := exampleCA; server := exampleLeaf |}.

Definition firstDraws : Draws :=
  {| validateCaAt := 500; validateServerAt := 500;
     caEntropy := exampleCaEntropy; serverEntropy := exampleLeafEntropy |}.

(** A later call, two hundred days after. *)
Definition laterDraws : Draws :=
  {| validateCaAt := 200 * DAY_MS; validateServerAt := 200 * DAY_MS + 1;
     caEntropy := exampleLeafEntropy; serverEntropy := exampleCaEntropy |}.

End StoreFixtures.

(** ** Successive [data] events of one tunnel (services/proxy-server.ts) *)

Module Tunnel.

Import ProxyServer.

(** The listener run on the chunks of successive [data] events, from the
    bytes [buffer] holds: the bytes held afterwards and the action of each
    event, in order. *)
Fixpoint deliver (urlPathAndSearch : string -> option string)
  (buffer : string) (chunks : list string) : string * list Action :=
  match chunks with
  | [] => (buffer, [])
  | chunk :: rest =>
      let '(buffer1, action) := onData urlPathAndSearch buffer chunk in
      let '(buffer2, actions) := deliver urlPathAndSearch buffer1 rest in
      (buffer2, action :: actions)
  end.

(** [Buffer.concat] *)
Definition concat (chunks : list string) : string :=
  foldr String.append EmptyString chunks.

End Tunnel.

Module TunnelFixtures.
Import ProxyServer.
Definition secondRequest : string :=
  "GET /b HTTP/1.1" +:+ CRLF +:+ "Accept: */*" +:+ CRLF +:+ CRLF.
End TunnelFixtures.

Module ForwardingFixtures.
Import Matcher Forwarder ForwarderFixtures.

(** A request that carries headers the forwarder is to drop. *)
Definition postOrder : ProxyIncomingRequest :=
  {| in_method := "POST"; in_path := "/orders";
     in_headers :=
       {[ "Host" := "api.example.com"; "X-MockMate-Scenario" := "error";
          "x-empty" := ""; "accept" := "text/plain" ]};
     in_body := Some "{}" |}.

(** An upstream that answers at once and tells what it should not have
    been sent. *)
Definition tellTale (url method : string) (headers : gmap string string)
  (body : option string) : Upstream :=
  if bool_decide (is_Some (headers !! "Host"))
     || bool_decide (is_Some (headers !! "X-MockMate-Scenario"))
     || bool_decide (is_Some (headers !! "x-empty"))
  then Responds 0 200 [] "leak"
  else Responds 5 201
         [("content-type", "text/plain"); ("Transfer-Encoding", "chunked");
          ("__proto__", "x"); ("x-upstream", "1")] "ok".

(** The same upstream without the test. *)
Definition plainUpstream (url method : string) (headers : gmap string string)
  (body : option string) : Upstream :=
  Responds 5 201
    [("content-type", "text/plain"); ("Transfer-Encoding", "chunked");
     ("__proto__", "x"); ("x-upstream", "1")] "ok".

End ForwardingFixtures.

Module LengthFixtures.
Import ProxyServer.
(** A request without a body whose target holds the text of a length
    header. *)
Definition misleadingTarget : string :=
  "GET /x?content-length:5 HTTP/1.1" +:+ CRLF +:+ "Accept: text/plain"
  +:+ CRLF +:+ CRLF.
End LengthFixtures.

(** ** Calls of the cache with the draws of the issuer *)

Module CacheRecency.

Import CertCache.

Section Drawn.

(** generateServerCert together with what one call of it draws from the
    outside: a new key pair, a new serial number and the clock.  Two calls
    for the same host under the same CA give two different
    certificates. *)
Variable issueWith :
  Certs.Entropy -> CertificateData -> list string -> option CertificateData.

(** A call on the cache; a [getCert] carries the draws its miss would
    use. *)
Inductive DrawnCall : Type :=
  | GetCertWith (e : Certs.Entropy) (domain : string)
  | ClearCache.

Definition callWith (c : t) (op : DrawnCall) : t :=
  match op with
  | GetCertWith e d => (getCert (issueWith e) c d).1
  | ClearCache => clear c
  end.

Definition runWith (c : t) (ops : list DrawnCall) : t := foldl callWith c ops.

End Drawn.

(** A sequence of [getCert] calls. *)
Definition requests (calls : list (Certs.Entropy * string))
  : list DrawnCall :=
  List.map (fun p => GetCertWith p.1 p.2) calls.

(** Following the design document, least recently used by access
    recency: the hosts of a sequence of requests, each once, in the order
    of their last request, the least recently requested first. *)
Fixpoint recency (hosts : list string) : list string :=
  match hosts with
  | [] => []
  | h :: rest =>
      if bool_decide (h ∈ rest) then recency rest else h :: recency rest
  end.

(** The last [n] elements of a list. *)
Definition lastN {A : Type} (n : nat) (l : list A) : list A :=
  drop (length l - n) l.

End CacheRecency.

Module RecencyFixtures.
Import CertCache CacheRecency.

(** An issuer whose certificates carry the serial number it drew. *)
Definition serialIssuer (e : Certs.Entropy) (ca : CertificateData)
  (domains : list string) : option CertificateData :=
  match domains with
  | [d] => Some {| cert := "cert:" +:+ d +:+ "#" +:+ Certs.serialHex e;
                   privateKey := "key:" +:+ Certs.keys_privateKey e |}
  | _ => None
  end.

Definition draw (serial : string) : Certs.Entropy :=
  {| Certs.keys_publicKey := "pub" +:+ serial;
     Certs.keys_privateKey := "priv" +:+ serial;
     Certs.serialHex := serial; Certs.now := 0 |}.

End RecencyFixtures.

(** * Properties *)

Module StrFacts.

Import Str.

Lemma eqb_eq (a b : string) : eqb a b = true <-> a = b.
Proof. unfold eqb. apply bool_decide_eq_true. Qed.

Lemma app_cons (c : ascii) (a b : string) :
  String c a +:+ b = String c (a +:+ b).
Proof. reflexivity. Qed.

Lemma app_nil (b : string) : "" +:+ b = b.
Proof. reflexivity. Qed.

Lemma length_app (a b : string) :
  String.length (a +:+ b) = (String.length a + String.length b)%nat.
Proof.
  induction a as [|c a IH]; [done|].
  rewrite app_cons; simpl; by rewrite IH.
Qed.

Lemma app_assoc (a b c : string) : (a +:+ b) +:+ c = a +:+ (b +:+ c).
Proof.
  induction a as [|x a IH]; [done|].
  by rewrite !app_cons, IH.
Qed.

Lemma app_empty_r (a : string) : a +:+ "" = a.
Proof.
  induction a as [|x a IH]; [done|].
  by rewrite app_cons, IH.
Qed.


Lemma take_drop_while (p : ascii -> bool) (s : string) :
  take_while p s +:+ drop_while p s = s.
Proof.
  induction s as [|c r IH]; simpl; [done|].
  destruct (p c); [by rewrite app_cons, IH | done].
Qed.

Lemma all_take_while (p : ascii -> bool) (s : string) :
  all p (take_while p s) = true.
Proof.
  induction s as [|c r IH]; simpl; [done|].
  destruct (p c) eqn:E; simpl; [by rewrite E | done].
Qed.



Lemma is_empty_false (s : string) : is_empty s = false <-> s <> EmptyString.
Proof. destruct s; simpl; split; congruence. Qed.

Lemma eqb_refl (a : string) : eqb a a = true.
Proof. by apply eqb_eq. Qed.

Lemma eqb_neq (a b : string) : eqb a b = false <-> a <> b.
Proof. unfold eqb. apply bool_decide_eq_false. Qed.

End StrFacts.

(** ** Scenario resolution *)

Module MatcherProps.
Import Matcher Fixtures StrFacts.

Lemma resolveScenario_order (r : Resource) (n : string) :
  resolveScenario r (Some n) =
    match requested n (res_scenarios r),
          findScenario "default" (res_scenarios r), res_scenarios r with
    | Some s, _, _ => s
    | None, Some d, _ => d
    | None, None, first :: _ => first
    | None, None, [] => fallbackScenario
    end.
Proof.
  unfold resolveScenario, requested, noName; simpl.
  destruct (Str.is_empty n); [done|].
  by destruct (findScenario n (res_scenarios r)).
Qed.

(** Claim C1, as amended.  For a matched resource the resolver tries one
    requested name -- the per-request override when the request carries
    one, the active scenario name of the project otherwise, an empty name
    counting as none -- then the scenario named default, then the first
    declared scenario, each step only when the one before finds nothing.
    An override that names no scenario of the resource therefore falls to
    default: the active scenario is not tried after it.  A resource
    without scenarios gets the built-in fallback: status 200, empty body,
    empty headers, zero delay. *)
Theorem scenario_resolution_order
  (method path active : string) (resources : list Resource)
  (header : option string) (m : MatchResult) :
  matchRequest method path resources = Some m ->
  exists sc : Scenario,
    handleRequest method path resources active header
      = Some (buildResponse sc (params m)) /\
    sc = match requested (default active header) (res_scenarios (resource m)),
               findScenario "default" (res_scenarios (resource m)),
               res_scenarios (resource m) with
         | Some s, _, _ => s
         | None, Some d, _ => d
         | None, None, first :: _ => first
         | None, None, [] => fallbackScenario
         end /\
    sc_statusCode fallbackScenario = 200 /\
    sc_body fallbackScenario = JObj [] /\
    sc_headers fallbackScenario = Some ∅ /\
    sc_delay fallbackScenario = Some 0.
Proof.
  intros Hm.
  exists (resolveScenario (resource m) (Some (default active header))).
  split; [|split; [apply resolveScenario_order | done]].
  unfold handleRequest; rewrite Hm.
  by destruct header.
Qed.

(** The theorem at the request of the fallback test: override
    [invalid], active scenario [active]. *)
Lemma scenario_resolution_order_witness :
  matchRequest "GET" "/api/test" [testResource] = Some (mkMatch testResource ∅) /\
  exists sc : Scenario,
    handleRequest "GET" "/api/test" [testResource] "active" (Some "invalid")
      = Some (buildResponse sc ∅) /\
    sc = scenarioNamed "default" 200 /\
    sc_statusCode fallbackScenario = 200 /\
    sc_body fallbackScenario = JObj [] /\
    sc_headers fallbackScenario = Some ∅ /\
    sc_delay fallbackScenario = Some 0.
Proof.
  split; [vm_compute; reflexivity|].
  apply (scenario_resolution_order "GET" "/api/test" "active" [testResource]
           (Some "invalid") (mkMatch testResource ∅)).
  vm_compute; reflexivity.
Defined.

(** Claim C1 as stated fails: the override [invalid] names no scenario
    of the resource, the active scenario [active] names one, and the
    resolver returns [default]. *)
Lemma invalid_override_skips_active :
  findScenario "invalid" (res_scenarios testResource) = None /\
  findScenario "active" (res_scenarios testResource)
    = Some (scenarioNamed "active" 200) /\
  matchRequest "GET" "/api/test" [testResource] = Some (mkMatch testResource ∅) /\
  handleRequest "GET" "/api/test" [testResource] "active" (Some "invalid")
    = Some (buildResponse (scenarioNamed "default" 200) ∅) /\
  handleRequest "GET" "/api/test" [testResource] "active" (Some "invalid")
    <> Some (buildResponse (scenarioNamed "active" 200) ∅).
Proof.
  repeat split; try (vm_compute; reflexivity).
  vm_compute; discriminate.
Qed.

Lemma buildResponse_name (a b : Scenario) (ps : gmap string string) :
  buildResponse a ps = buildResponse b ps -> sc_name a = sc_name b.
Proof. intros H. by injection H. Qed.

Lemma findScenario_name (n : string) (l : list Scenario) (s : Scenario) :
  findScenario n l = Some s -> sc_name s = n.
Proof.
  unfold findScenario; intros H.
  apply List.find_some in H as [_ H]. by apply eqb_eq in H.
Qed.

(** Claim C10, as amended.  An override header equal to the empty string
    makes handleRequest resolve as if no name were requested: the default
    scenario, else the first one, else the fallback, whatever the active
    scenario is.  That differs from the answer without the header whenever
    the active scenario name is not empty, names a scenario of the
    resource, is not [default], and the resource either has a default
    scenario or starts with a scenario of another name. *)
Theorem empty_override_is_no_name
  (method path active : string) (resources : list Resource)
  (m : MatchResult) :
  matchRequest method path resources = Some m ->
  let l := res_scenarios (resource m) in
  let unnamed :=
    match findScenario "default" l, l with
    | Some d, _ => d
    | None, first :: _ => first
    | None, [] => fallbackScenario
    end in
  handleRequest method path resources active (Some EmptyString)
    = Some (buildResponse unnamed (params m)) /\
  resolveScenario (resource m) None = unnamed /\
  forall s : Scenario,
    active <> EmptyString ->
    findScenario active l = Some s ->
    active <> "default" ->
    (is_Some (findScenario "default" l)
     \/ exists f rest, l = f :: rest /\ sc_name f <> active) ->
    handleRequest method path resources active None
      = Some (buildResponse s (params m)) /\
    handleRequest method path resources active (Some EmptyString)
      <> handleRequest method path resources active None.
Proof.
  intros Hm l unnamed.
  assert (He : handleRequest method path resources active (Some EmptyString)
               = Some (buildResponse unnamed (params m))).
  { unfold handleRequest; rewrite Hm; simpl. done. }
  split; [exact He|]. split; [done|].
  intros s Hne Hs Hnd Hcase.
  assert (Ha : handleRequest method path resources active None
               = Some (buildResponse s (params m))).
  { unfold handleRequest; rewrite Hm; simpl.
    unfold resolveScenario, noName; simpl.
    apply is_empty_false in Hne; rewrite Hne.
    fold l; by rewrite Hs. }
  split; [exact Ha|].
  rewrite He, Ha; intros Hsame.
  assert (Heq : buildResponse unnamed (params m) = buildResponse s (params m))
    by congruence.
  apply buildResponse_name in Heq.
  apply findScenario_name in Hs as Hsn.
  subst unnamed.
  destruct Hcase as [[d Hd] | (f & rest & Hl & Hf)].
  - rewrite Hd in Heq. apply findScenario_name in Hd. congruence.
  - destruct (findScenario "default" l) as [d|] eqn:Hd.
    + apply findScenario_name in Hd. congruence.
    + rewrite Hl in Heq. congruence.
Qed.

(** The theorem on the resource of the fallback test. *)
Lemma empty_override_is_no_name_witness :
  handleRequest "GET" "/api/test" [testResource] "active" (Some EmptyString)
    = Some (buildResponse (scenarioNamed "default" 200) ∅) /\
  handleRequest "GET" "/api/test" [testResource] "active" None
    = Some (buildResponse (scenarioNamed "active" 200) ∅) /\
  handleRequest "GET" "/api/test" [testResource] "active" (Some EmptyString)
    <> handleRequest "GET" "/api/test" [testResource] "active" None.
Proof.
  destruct (empty_override_is_no_name "GET" "/api/test" "active"
              [testResource] (mkMatch testResource ∅)
              ltac:(vm_compute; reflexivity)) as (H1 & _ & H2).
  destruct (H2 (scenarioNamed "active" 200)
              ltac:(discriminate) ltac:(vm_compute; reflexivity)
              ltac:(discriminate)
              ltac:(left; eexists; vm_compute; reflexivity)) as [H3 H4].
  exact (conj H1 (conj H3 H4)).
Defined.

(** Claim C10 as stated fails on a resource without a default scenario
    whose first scenario is the active one: the empty override and the
    absent override give the same answer. *)
Lemma empty_override_same_without_default :
  matchRequest "GET" "/api/beta" [betaResource] = Some (mkMatch betaResource ∅) /\
  findScenario "beta" (res_scenarios betaResource)
    = Some (scenarioNamed "beta" 200) /\
  "beta" <> "default" /\
  handleRequest "GET" "/api/beta" [betaResource] "beta" (Some EmptyString)
    = handleRequest "GET" "/api/beta" [betaResource] "beta" None.
Proof.
  repeat split; try (vm_compute; reflexivity). discriminate.
Qed.
End MatcherProps.

(** ** Mock or forward *)

Module EngineProps.
Import Matcher Engine Fixtures EngineFixtures StrFacts.

Lemma handleRequest_none (method path active : string)
  (resources : list Resource) (header : option string) :
  handleRequest method path resources active header = None
  <-> matchRequest method path resources = None.
Proof.
  unfold handleRequest.
  destruct (matchRequest method path resources); split; congruence.
Qed.

(** A matched request is answered with the mock on both paths. *)
Lemma matched_request_is_mocked
  (urlHostname : string -> option string) (reg : Registry) (req : Request)
  (project : Project) (rc : ResponseConfig) :
  getActiveProject reg = Some project ->
  handleRequest (req_method req) (req_path req)
    (listResources reg (pr_id project)) (pr_activeScenario project)
    (scenarioHeader req) = Some rc ->
  mockRequestHandler reg req = Mock rc (truthyString (scenarioHeader req)) /\
  forall host, resolveProxyRequest urlHostname reg req host = Declined \/
    resolveProxyRequest urlHostname reg req host
      = Mock rc (truthyString (scenarioHeader req)).
Proof.
  intros Hp Hrc; split.
  - unfold mockRequestHandler; rewrite Hp, Hrc. done.
  - intros host. unfold resolveProxyRequest; rewrite Hp.
    destruct (negb (truthyString (pr_baseUrl project))); [by left|].
    destruct (urlHostname _); [|by left].
    destruct (negb (Str.eqb s host)); [by left|].
    rewrite Hrc. by right.
Qed.

(** Claim C2, a defect of the code.  A request that matches a resource
    marked passthrough, while the active project has a non-empty base
    URL, is answered with the mock by both handlers, whatever the
    passthrough flag of the project: the response configuration that
    buildResponse makes carries no passthrough mark, so the branch of the
    handlers that forwards a matched request is never taken. *)
Theorem marked_resource_is_mocked
  (urlHostname : string -> option string) (reg : Registry) (req : Request)
  (project : Project) (m : MatchResult) (b : string) :
  getActiveProject reg = Some project ->
  matchRequest (req_method req) (req_path req)
    (listResources reg (pr_id project)) = Some m ->
  res_passthrough (resource m) = Some true ->
  pr_baseUrl project = Some b -> b <> EmptyString ->
  let rc :=
    buildResponse
      (resolveScenario (resource m)
         (selectedName (pr_activeScenario project) (scenarioHeader req)))
      (params m) in
  handleRequest (req_method req) (req_path req)
    (listResources reg (pr_id project)) (pr_activeScenario project)
    (scenarioHeader req) = Some rc /\
  rc_passthrough rc = None /\
  mockRequestHandler reg req = Mock rc (truthyString (scenarioHeader req)) /\
  forall host : string,
    urlHostname b = Some host ->
    resolveProxyRequest urlHostname reg req host
      = Mock rc (truthyString (scenarioHeader req)).
Proof.
  intros Hp Hm _ Hb Hne rc.
  assert (Hrc : handleRequest (req_method req) (req_path req)
                  (listResources reg (pr_id project))
                  (pr_activeScenario project) (scenarioHeader req)
                = Some rc)
    by (unfold handleRequest; by rewrite Hm).
  split; [done|]. split; [done|]. split.
  - unfold mockRequestHandler. by rewrite Hp, Hrc.
  - intros host Hh. unfold resolveProxyRequest.
    rewrite Hp, Hb; simpl. apply is_empty_false in Hne; rewrite Hne; simpl.
    rewrite Hh, eqb_refl; simpl. by rewrite Hrc.
Qed.

(** The theorem on the example project, whose one resource is marked
    passthrough, with the passthrough flag of the project on. *)
Lemma marked_resource_is_mocked_witness :
  res_passthrough ordersResource = Some true /\
  mockRequestHandler (exampleRegistry (Some true)) getOrder
    = Mock (buildResponse (scenarioNamed "default" 200) {[ "id" := "42" ]})
        false /\
  resolveProxyRequest exampleHostname (exampleRegistry (Some true)) getOrder
    "api.example.com"
    = Mock (buildResponse (scenarioNamed "default" 200) {[ "id" := "42" ]})
        false.
Proof.
  split; [reflexivity|].
  destruct (marked_resource_is_mocked exampleHostname
              (exampleRegistry (Some true)) getOrder
              (exampleProject (Some true))
              {| resource := ordersResource; params := {[ "id" := "42" ]} |}
              "https://api.example.com")
    as (_ & _ & H1 & H2).
  - reflexivity.
  - vm_compute. reflexivity.
  - reflexivity.
  - reflexivity.
  - discriminate.
  - split; [exact H1|]. apply H2. reflexivity.
Defined.

Lemma canProxy_spec (project : Project) :
  canProxy project = true <->
  pr_passthroughEnabled project = Some true /\
  exists b, pr_baseUrl project = Some b /\ b <> EmptyString.
Proof.
  unfold canProxy, truthyBool, truthyString.
  destruct (pr_passthroughEnabled project) as [[|]|],
           (pr_baseUrl project) as [b|]; simpl;
    try (split; [discriminate | intros [? (? & ? & ?)]; congruence]).
  destruct b; simpl.
  - split; [discriminate | intros [_ (b & [= <-] & Hb)]; done].
  - split; [intros _; split; [done | eexists; split; [done | discriminate]] | done].
Qed.

(** Claim C3, as amended.  When no resource matches, the direct-connect
    handler forwards exactly when the project has passthrough enabled and
    a non-empty base URL, and answers not found otherwise.  The proxy
    path, which handles a request only when the host of the base URL is
    the requested host, always forwards an unmatched request, whatever
    the passthrough flag, and never answers not found. *)
Theorem unmatched_request_decision
  (urlHostname : string -> option string) (reg : Registry) (req : Request)
  (project : Project) :
  getActiveProject reg = Some project ->
  matchRequest (req_method req) (req_path req)
    (listResources reg (pr_id project)) = None ->
  (canProxy project = true <->
     pr_passthroughEnabled project = Some true /\
     exists b, pr_baseUrl project = Some b /\ b <> EmptyString) /\
  (canProxy project = true ->
     mockRequestHandler reg req
       = Forward (default EmptyString (pr_baseUrl project))) /\
  (canProxy project = false -> mockRequestHandler reg req = NotFound) /\
  (forall host b,
     pr_baseUrl project = Some b -> b <> EmptyString ->
     urlHostname b = Some host ->
     resolveProxyRequest urlHostname reg req host = Forward b) /\
  (forall host, resolveProxyRequest urlHostname reg req host <> NotFound).
Proof.
  intros Hp Hm.
  apply (handleRequest_none _ _ (pr_activeScenario project) _
           (scenarioHeader req)) in Hm.
  split; [apply canProxy_spec|].
  split; [|split; [|split]].
  - intros Hc. unfold mockRequestHandler. by rewrite Hp, Hm, Hc.
  - intros Hc. unfold mockRequestHandler. by rewrite Hp, Hm, Hc.
  - intros host b Hb Hne Hh. unfold resolveProxyRequest.
    rewrite Hp, Hb; simpl. apply is_empty_false in Hne; rewrite Hne; simpl.
    rewrite Hh, eqb_refl; simpl. by rewrite Hm.
  - intros host. unfold resolveProxyRequest. rewrite Hp.
    destruct (negb (truthyString (pr_baseUrl project))); [done|].
    destruct (urlHostname _); [|done].
    destruct (negb (Str.eqb s host)); [done|].
    by rewrite Hm.
Qed.

(** The theorem on the example project: the direct handler with the
    flag on, the proxy path with the flag off. *)
Lemma unmatched_request_decision_witness :
  mockRequestHandler (exampleRegistry (Some true)) getUnknown
    = Forward "https://api.example.com" /\
  resolveProxyRequest exampleHostname (exampleRegistry (Some false))
    getUnknown "api.example.com" = Forward "https://api.example.com".
Proof.
  destruct (unmatched_request_decision exampleHostname
              (exampleRegistry (Some true)) getUnknown
              (exampleProject (Some true))
              eq_refl ltac:(vm_compute; reflexivity))
    as (_ & H1 & _).
  destruct (unmatched_request_decision exampleHostname
              (exampleRegistry (Some false)) getUnknown
              (exampleProject (Some false))
              eq_refl ltac:(vm_compute; reflexivity))
    as (_ & _ & _ & H2 & _).
  split.
  - exact (H1 ltac:(vm_compute; reflexivity)).
  - exact (H2 "api.example.com" "https://api.example.com" eq_refl
             ltac:(discriminate) ltac:(vm_compute; reflexivity)).
Defined.

(** Claim C3 as stated fails: with the passthrough flag off the direct
    handler answers not found and the proxy path forwards. *)
Lemma proxy_path_forwards_without_flag :
  getActiveProject (exampleRegistry (Some false))
    = Some (exampleProject (Some false)) /\
  matchRequest "GET" "/unknown" [ordersResource] = None /\
  canProxy (exampleProject (Some false)) = false /\
  mockRequestHandler (exampleRegistry (Some false)) getUnknown = NotFound /\
  resolveProxyRequest exampleHostname (exampleRegistry (Some false))
    getUnknown "api.example.com" = Forward "https://api.example.com".
Proof. repeat split; vm_compute; reflexivity. Qed.

End EngineProps.

(** ** Certificate cache *)

Module CertCacheProps.
Import CertCache CacheFixtures StrFacts.

Section WithIssuer.

Variable issue : CertificateData -> list string -> option CertificateData.

Lemma map_get_None (k : string) (m : CertMap) :
  map_get k m = None <-> k ∉ map_keys m.
Proof.
  unfold map_get, map_keys.
  induction m as [|[k' v] m IH]; simpl.
  - split; [intros _; apply not_elem_of_nil | done].
  - destruct (Str.eqb k' k) eqn:E; simpl.
    + apply eqb_eq in E; subst. split; [done|]. intros H; exfalso; apply H; left.
    + apply eqb_neq in E. rewrite IH, not_elem_of_cons. intuition congruence.
Qed.

Lemma map_keys_delete (k : string) (m : CertMap) :
  map_keys (map_delete k m) = List.filter (fun x => negb (Str.eqb x k)) (map_keys m).
Proof.
  unfold map_keys, map_delete.
  induction m as [|[k' v] m IH]; simpl; [done|].
  destruct (negb (Str.eqb k' k)); simpl; by rewrite IH.
Qed.

Lemma map_keys_set_new (k : string) (v : CertificateData) (m : CertMap) :
  k ∉ map_keys m -> map_keys (map_set k v m) = map_keys m ++ [k].
Proof.
  unfold map_keys.
  induction m as [|[k' v'] m IH]; simpl; [done|].
  intros [Hne Hni]%not_elem_of_cons.
  destruct (Str.eqb k' k) eqn:E.
  - apply eqb_eq in E; congruence.
  - simpl. by rewrite IH.
Qed.

Lemma filter_neq_notin (k : string) (l : list string) :
  k ∉ l -> List.filter (fun x => negb (Str.eqb x k)) l = l.
Proof.
  induction l as [|x l IH]; simpl; [done|].
  intros [Hne Hni]%not_elem_of_cons.
  assert (Str.eqb x k = false) as -> by (apply eqb_neq; congruence).
  simpl. by rewrite IH.
Qed.

Lemma elem_of_filter_neq (k y : string) (l : list string) :
  y ∈ List.filter (fun x => negb (Str.eqb x k)) l <-> y ∈ l /\ y <> k.
Proof.
  rewrite !list_elem_of_In, List.filter_In, negb_true_iff, eqb_neq. done.
Qed.

Lemma NoDup_filter_neq (k : string) (l : list string) :
  NoDup l -> NoDup (List.filter (fun x => negb (Str.eqb x k)) l).
Proof.
  induction 1 as [|x l Hx Hl IH]; simpl; [constructor|].
  destruct (negb (Str.eqb x k)); [|done].
  constructor; [|done]. rewrite elem_of_filter_neq. tauto.
Qed.

Lemma length_filter_neq_in (k : string) (l : list string) :
  NoDup l -> k ∈ l ->
  S (length (List.filter (fun x => negb (Str.eqb x k)) l)) = length l.
Proof.
  induction 1 as [|x l Hx Hl IH]; simpl.
  - intros H; by apply not_elem_of_nil in H.
  - intros [->|Hin]%elem_of_cons.
    + rewrite eqb_refl; simpl. by rewrite filter_neq_notin.
    + assert (Str.eqb x k = false) as ->
        by (apply eqb_neq; intros ->; done).
      simpl. by rewrite IH.
Qed.

Lemma getCert_maxSize (c : t) (d : string) :
  maxSize (getCert issue c d).1 = maxSize c.
Proof.
  unfold getCert. destruct (map_get d (cache c)); [done|].
  by destruct (issue _ _).
Qed.

Lemma run_maxSize (c : t) (ops : list Call) :
  maxSize (run issue c ops) = maxSize c.
Proof.
  revert c; induction ops as [|op ops IH]; intros c; [done|].
  unfold run in *; simpl. rewrite IH.
  destruct op; simpl; [apply getCert_maxSize | done].
Qed.

(** The keys after a hit: the domain moves to the end. *)
Lemma getCert_hit_keys (c : t) (d : string) (v : CertificateData) :
  map_get d (cache c) = Some v ->
  map_keys (cache (getCert issue c d).1)
    = List.filter (fun x => negb (Str.eqb x d)) (map_keys (cache c)) ++ [d].
Proof.
  intros Hv. unfold getCert; rewrite Hv; simpl.
  rewrite map_keys_set_new; rewrite map_keys_delete; [done|].
  rewrite elem_of_filter_neq. tauto.
Qed.

Lemma getCert_miss_keys (c : t) (d : string) :
  map_get d (cache c) = None ->
  map_keys (cache (getCert issue c d).1)
    = map_keys (afterEviction c)
      ++ match issue (caData c) [d] with Some _ => [d] | None => [] end.
Proof.
  intros Hv. unfold getCert; rewrite Hv; fold (afterEviction c).
  destruct (issue _ _); simpl; [|by rewrite app_nil_r].
  rewrite map_keys_set_new; [done|].
  apply map_get_None in Hv.
  unfold afterEviction, evictOldest.
  destruct (_ >=? _); [|done].
  destruct (map_keys (cache c)) as [|k ks] eqn:Hk; [by rewrite Hk|].
  destruct (Str.is_empty k); [by rewrite Hk|].
  rewrite map_keys_delete, Hk, elem_of_filter_neq. tauto.
Qed.

Lemma afterEviction_keys (c : t) :
  map_keys (afterEviction c) =
    if map_size (cache c) >=? maxSize c then
      match map_keys (cache c) with
      | k :: ks =>
          if Str.is_empty k then k :: ks
          else List.filter (fun x => negb (Str.eqb x k)) (k :: ks)
      | [] => []
      end
    else map_keys (cache c).
Proof.
  unfold afterEviction, evictOldest.
  destruct (_ >=? _); [|done].
  destruct (map_keys (cache c)) as [|k ks] eqn:Hk; [done|].
  destruct (Str.is_empty k); [done|].
  by rewrite map_keys_delete, Hk.
Qed.

Lemma map_size_keys (m : CertMap) :
  map_size m = Z.of_nat (length (map_keys m)).
Proof. unfold map_size, map_keys. by rewrite length_map. Qed.

Lemma getCert_inv (c : t) (d : string) :
  1 <= maxSize c -> d <> EmptyString -> Inv c -> Inv (getCert issue c d).1.
Proof.
  intros Hmax Hd [Hnd Hne Hsz].
  rewrite map_size_keys in Hsz.
  destruct (map_get d (cache c)) as [v|] eqn:Hv.
  - pose proof (getCert_hit_keys c d v Hv) as Hk.
    assert (Hin : d ∈ map_keys (cache c)).
    { destruct (decide (d ∈ map_keys (cache c))) as [|Hn]; [done|].
      apply map_get_None in Hn. congruence. }
    constructor.
    + rewrite Hk. apply NoDup_app. split; [by apply NoDup_filter_neq|].
      split; [|apply NoDup_singleton].
      intros x Hx [->|[]%not_elem_of_nil]%elem_of_cons.
      apply elem_of_filter_neq in Hx. tauto.
    + rewrite Hk. intros k [Hx| ->%list_elem_of_singleton]%elem_of_app; [|done].
      apply elem_of_filter_neq in Hx. apply Hne; tauto.
    + rewrite getCert_maxSize, map_size_keys, Hk, List.length_app; simpl.
      pose proof (length_filter_neq_in d _ Hnd Hin). lia.
  - pose proof (getCert_miss_keys c d Hv) as Hk.
    pose proof (afterEviction_keys c) as Ha.
    apply map_get_None in Hv.
    assert (Hsub : forall x, x ∈ map_keys (afterEviction c) ->
                     x ∈ map_keys (cache c)).
    { intros x. rewrite Ha.
      destruct (_ >=? _); [|done].
      destruct (map_keys (cache c)) as [|k ks]; [done|].
      destruct (Str.is_empty k); [done|].
      rewrite elem_of_filter_neq; tauto. }
    assert (Hnd' : NoDup (map_keys (afterEviction c))).
    { rewrite Ha. destruct (_ >=? _); [|done].
      destruct (map_keys (cache c)) as [|k ks]; [done|].
      destruct (Str.is_empty k); [done|]. by apply NoDup_filter_neq. }
    assert (Hlen : Z.of_nat (length (map_keys (afterEviction c))) + 1
                   <= maxSize c).
    { rewrite Ha. rewrite map_size_keys, Z.geb_leb.
      destruct (Z.leb_spec (maxSize c) (Z.of_nat (length (map_keys (cache c)))))
        as [Hge|Hlt]; [|lia].
      destruct (map_keys (cache c)) as [|k ks] eqn:Hks; [simpl in *; lia|].
      assert (Hk0 : k <> EmptyString) by (apply Hne; left).
      apply is_empty_false in Hk0; rewrite Hk0.
      pose proof (length_filter_neq_in k (k :: ks) Hnd ltac:(left)) as Hl.
      remember (length (List.filter (fun x => negb (Str.eqb x k)) (k :: ks)))
        as a eqn:Ea.
      remember (length (k :: ks)) as b eqn:Eb.
      clear -Hl Hsz. lia. }
    constructor.
    + rewrite Hk. apply NoDup_app. split; [done|].
      split; [|destruct (issue _ _); [apply NoDup_singleton | constructor]].
      intros x Hx. destruct (issue _ _); [|apply not_elem_of_nil].
      intros ->%list_elem_of_singleton. by apply Hv, Hsub.
    + rewrite Hk. intros k [Hx|Hx]%elem_of_app; [by apply Hne, Hsub|].
      destruct (issue _ _); [|by apply not_elem_of_nil in Hx].
      by apply list_elem_of_singleton in Hx as ->.
    + rewrite getCert_maxSize, map_size_keys, Hk, List.length_app.
      destruct (issue _ _); simpl; lia.
Qed.

Lemma call_inv (c : t) (op : Call) :
  1 <= maxSize c -> (forall d, op = GetCert d -> d <> EmptyString) ->
  Inv c -> Inv (call issue c op).
Proof.
  intros Hmax Hd HI. destruct op as [d|]; simpl.
  - apply getCert_inv; auto.
  - constructor; simpl; [constructor | by intros k ?%not_elem_of_nil | unfold map_size; simpl; lia].
Qed.

Lemma run_inv (c : t) (ops : list Call) :
  1 <= maxSize c -> nonEmptyDomains ops -> Inv c -> Inv (run issue c ops).
Proof.
  revert c; induction ops as [|op ops IH]; intros c Hmax Hd HI; [done|].
  unfold run in *; simpl. apply IH.
  - destruct op; simpl; [by rewrite getCert_maxSize | done].
  - intros d Hin. apply Hd. by right.
  - apply call_inv; [done| |done]. intros d ->. apply Hd. by left.
Qed.

Lemma new_inv (options : CertCacheOptions) :
  0 <= opt_maxSize options -> Inv (new options).
Proof.
  intros H. constructor; simpl; [constructor | by intros k ?%not_elem_of_nil | unfold map_size; simpl; lia].
Qed.

(** Keys stay distinct whatever the bound and the domains. *)
Lemma getCert_nodup (c : t) (d : string) :
  NoDup (map_keys (cache c)) -> NoDup (map_keys (cache (getCert issue c d).1)).
Proof.
  intros Hnd.
  destruct (map_get d (cache c)) as [v|] eqn:Hv.
  - rewrite (getCert_hit_keys c d v Hv).
    apply NoDup_app. split; [by apply NoDup_filter_neq|].
    split; [|apply NoDup_singleton].
    intros x Hx [->|[]%not_elem_of_nil]%elem_of_cons.
    apply elem_of_filter_neq in Hx. tauto.
  - rewrite (getCert_miss_keys c d Hv).
    pose proof (afterEviction_keys c) as Ha.
    apply map_get_None in Hv.
    apply NoDup_app. split; [|split].
    + rewrite Ha. destruct (_ >=? _); [|done].
      destruct (map_keys (cache c)) as [|k ks]; [done|].
      destruct (Str.is_empty k); [done|]. by apply NoDup_filter_neq.
    + intros x Hx. destruct (issue _ _); [|apply not_elem_of_nil].
      intros ->%list_elem_of_singleton. apply Hv.
      revert Hx. rewrite Ha. destruct (_ >=? _); [|done].
      destruct (map_keys (cache c)) as [|k ks]; [done|].
      destruct (Str.is_empty k); [done|].
      rewrite elem_of_filter_neq; tauto.
    + destruct (issue _ _); [apply NoDup_singleton | constructor].
Qed.

Lemma run_nodup (c : t) (ops : list Call) :
  NoDup (map_keys (cache c)) -> NoDup (map_keys (cache (run issue c ops))).
Proof.
  revert c; induction ops as [|op ops IH]; intros c Hnd; [done|].
  unfold run in *; simpl. apply IH.
  destruct op; simpl; [by apply getCert_nodup | constructor].
Qed.

Lemma last_not_first (k : string) (ks : list string) :
  NoDup (k :: ks) -> ks <> [] -> last (k :: ks) <> Some k.
Proof.
  intros Hnd Hks Hl.
  apply NoDup_cons in Hnd as [Hk _]. apply Hk.
  destruct ks as [|x ks]; [done|].
  change (last (k :: x :: ks)) with (last (x :: ks)) in Hl.
  apply last_Some in Hl as [l' ->].
  apply elem_of_app; right; left.
Qed.

Lemma evicted_elem (c c' : t) (k : string) :
  k ∈ evicted c c' <->
  k ∈ map_keys (cache c) /\ k ∉ map_keys (cache c').
Proof.
  unfold evicted.
  rewrite list_elem_of_In, List.filter_In, bool_decide_eq_true, <- list_elem_of_In.
  done.
Qed.

(** After a call that returns a certificate the requested domain is the
    most recently used key. *)
Lemma getCert_mru (c : t) (d : string) (crt : CertificateData) :
  (getCert issue c d).2 = Some crt -> mru (getCert issue c d).1 = Some d.
Proof.
  intros Hr. unfold mru.
  destruct (map_get d (cache c)) as [v|] eqn:Hv.
  - rewrite (getCert_hit_keys c d v Hv). apply last_snoc.
  - rewrite (getCert_miss_keys c d Hv).
    unfold getCert in Hr; rewrite Hv in Hr.
    destruct (issue _ _); [apply last_snoc | done].
Qed.

(** What one call can remove: nothing on a hit; on a miss at most the
    oldest key, and only at capacity. *)
Lemma getCert_evicted (c : t) (d k : string) :
  k ∈ evicted c (getCert issue c d).1 ->
  map_get d (cache c) = None /\
  maxSize c <= map_size (cache c) /\
  head (map_keys (cache c)) = Some k.
Proof.
  rewrite evicted_elem. intros [Hin Hout].
  destruct (map_get d (cache c)) as [v|] eqn:Hv.
  - exfalso; apply Hout.
    rewrite (getCert_hit_keys c d v Hv), elem_of_app, elem_of_filter_neq.
    destruct (decide (k = d)) as [->|]; [right; left | by left].
  - split; [done|].
    rewrite (getCert_miss_keys c d Hv), elem_of_app in Hout.
    rewrite afterEviction_keys, Z.geb_leb in Hout.
    destruct (Z.leb_spec (maxSize c) (map_size (cache c))) as [Hge|Hlt];
      [|tauto].
    split; [done|].
    destruct (map_keys (cache c)) as [|k0 ks]; [by apply not_elem_of_nil in Hin|].
    destruct (Str.is_empty k0); [tauto|].
    rewrite elem_of_filter_neq in Hout.
    destruct (decide (k = k0)) as [->|]; [done | tauto].
Qed.

(** Claim C5, as amended.  For a cache created with a bound of at least
    1 and any sequence of [getCert] and [clear] calls on non-empty host
    names, the cache never holds more entries than the bound; when the
    bound is at least 2, no call evicts the most recently used entry; and
    a call that returns a certificate makes its host the most recently
    used one. *)
Theorem cache_bounded_and_mru_kept
  (options : CertCacheOptions) (ops : list Call) :
  1 <= opt_maxSize options ->
  (nonEmptyDomains ops ->
     map_size (cache (run issue (new options) ops)) <= opt_maxSize options) /\
  (2 <= opt_maxSize options ->
     forall d k : string,
       k ∈ evicted (run issue (new options) ops)
             (call issue (run issue (new options) ops) (GetCert d)) ->
       mru (run issue (new options) ops) <> Some k) /\
  (forall d crt,
     (getCert issue (run issue (new options) ops) d).2 = Some crt ->
     mru (call issue (run issue (new options) ops) (GetCert d)) = Some d).
Proof.
  intros Hmax. split; [|split].
  - intros Hd.
    pose proof (run_inv (new options) ops Hmax Hd
                  (new_inv options ltac:(simpl; lia))) as [_ _ Hsz].
    by rewrite run_maxSize in Hsz.
  - intros H2 d k Hev.
    apply getCert_evicted in Hev as (_ & Hge & Hhd).
    rewrite run_maxSize in Hge; simpl in Hge.
    pose proof (run_nodup (new options) ops ltac:(constructor)) as Hnd.
    unfold mru.
    rewrite map_size_keys in Hge.
    destruct (map_keys (cache (run issue (new options) ops)))
      as [|k0 [|k1 ks]]; simpl in Hge, Hhd; try lia.
    injection Hhd as ->.
    by apply last_not_first.
  - intros d crt. apply getCert_mru.
Qed.

Lemma getCert_caData (c : t) (d : string) :
  caData (getCert issue c d).1 = caData c.
Proof.
  unfold getCert. destruct (map_get d (cache c)); [done|].
  by destruct (issue _ _).
Qed.

Lemma getCert_keysAfter (c : t) (d : string) :
  is_Some (issue (caData c) [d]) ->
  map_keys (cache (getCert issue c d).1)
    = keysAfter (maxSize c) (map_keys (cache c)) d.
Proof.
  intros [crt Hc]. unfold keysAfter.
  destruct (map_get d (cache c)) as [v|] eqn:Hv.
  - rewrite (getCert_hit_keys c d v Hv).
    rewrite bool_decide_eq_true_2; [done|].
    destruct (decide (d ∈ map_keys (cache c))) as [|Hn]; [done|].
    apply map_get_None in Hn. congruence.
  - rewrite (getCert_miss_keys c d Hv), Hc, afterEviction_keys, map_size_keys.
    apply map_get_None in Hv. by rewrite bool_decide_eq_false_2.
Qed.

End WithIssuer.

(** The theorem on a cache of two entries. *)
Lemma cache_bounded_and_mru_kept_witness :
  map_size (cache (run exampleIssuer (new (exampleOptions 2))
              [GetCert "a.example"; Clear; GetCert "a.example";
               GetCert "b.example"])) <= 2 /\
  mru (run exampleIssuer (new (exampleOptions 2))
         [GetCert "a.example"; Clear; GetCert "a.example";
          GetCert "b.example"]) <> Some "a.example".
Proof.
  destruct (cache_bounded_and_mru_kept exampleIssuer (exampleOptions 2)
              [GetCert "a.example"; Clear; GetCert "a.example";
               GetCert "b.example"] ltac:(simpl; lia)) as (H1 & H2 & _).
  split.
  - apply H1. intros d Hd.
    repeat (apply elem_of_cons in Hd as [Hd|Hd];
            [first [discriminate Hd | injection Hd as ->; discriminate]|]).
    by apply not_elem_of_nil in Hd.
  - apply (H2 ltac:(simpl; lia) "c.example" "a.example").
    assert (E : evicted
                  (run exampleIssuer (new (exampleOptions 2))
                     [GetCert "a.example"; Clear; GetCert "a.example";
                      GetCert "b.example"])
                  (call exampleIssuer
                     (run exampleIssuer (new (exampleOptions 2))
                        [GetCert "a.example"; Clear; GetCert "a.example";
                         GetCert "b.example"]) (GetCert "c.example"))
                = ["a.example"]) by (vm_compute; reflexivity).
    rewrite E. left.
Defined.

(** Claim C5 as stated fails: a cache bounded by 1 evicts its only
    entry, which is the most recently used one, on the next miss; and a
    cache bounded by 0 holds one entry after the first call. *)
Lemma size_one_evicts_most_recent :
  mru (run exampleIssuer (new (exampleOptions 1)) [GetCert "a.example"])
    = Some "a.example" /\
  map_get "b.example"
    (cache (run exampleIssuer (new (exampleOptions 1)) [GetCert "a.example"]))
    = None /\
  map_size
    (cache (run exampleIssuer (new (exampleOptions 1)) [GetCert "a.example"]))
    = opt_maxSize (exampleOptions 1) /\
  evicted
    (run exampleIssuer (new (exampleOptions 1)) [GetCert "a.example"])
    (run exampleIssuer (new (exampleOptions 1))
       [GetCert "a.example"; GetCert "b.example"])
    = ["a.example"] /\
  map_size
    (cache (run exampleIssuer (new (exampleOptions 0)) [GetCert "a.example"]))
    > opt_maxSize (exampleOptions 0).
Proof. repeat split; vm_compute; reflexivity. Qed.

End CertCacheProps.

(** ** Leaf certificates *)

Module CertsProps.
Import Chars Certs CertsFixtures StrFacts.

Lemma dottedQuad_runs (d : string) : dottedQuad d <-> dottedRuns 3 d.
Proof.
  unfold dottedQuad; simpl. split.
  - intros (a & b & c & e & Ha & Hb & Hc & He & ->).
    exists a, (b +:+ "." +:+ c +:+ "." +:+ e). repeat split; try apply Ha.
    exists b, (c +:+ "." +:+ e). repeat split; try apply Hb.
    exists c, e. repeat split; try apply Hc; apply He.
  - intros (a & r1 & Ha & -> & b & r2 & Hb & -> & c & e & Hc & -> & He).
    by exists a, b, c, e.
Qed.

Lemma ipPattern_digits (a t : string) (n : nat) (seen : bool) :
  Str.all digit a = true ->
  ipPattern n seen (a +:+ t) = ipPattern n (seen || negb (Str.is_empty a)) t.
Proof.
  revert seen; induction a as [|c a IH]; intros seen Ha; simpl in *.
  - by rewrite orb_false_r.
  - apply andb_true_iff in Ha as [Hc Ha].
    rewrite ?app_cons; simpl. rewrite Hc, IH by done.
    by rewrite orb_true_r.
Qed.

Lemma ipPattern_complete (n : nat) (s : string) :
  dottedRuns n s -> ipPattern n false s = true.
Proof.
  revert s; induction n as [|n IH]; intros s; simpl.
  - intros [Hne Hd].
    rewrite <- (app_empty_r s), ipPattern_digits by done.
    apply is_empty_false in Hne. by rewrite Hne.
  - intros (a & r & [Hne Hd] & -> & Hr).
    rewrite ipPattern_digits by done.
    apply is_empty_false in Hne. rewrite Hne; simpl.
    by apply IH.
Qed.

Lemma ipPattern_sound_step (s : string) (n : nat) (seen : bool) :
  ipPattern n seen s = true ->
  exists a : string,
    Str.all digit a = true /\ (seen = false -> a <> EmptyString) /\
    match n with
    | O => s = a
    | S k => exists r, s = a +:+ "." +:+ r /\ ipPattern k false r = true
    end.
Proof.
  revert n seen; induction s as [|c s IH]; intros n seen; simpl.
  - intros [-> Hn]%andb_true_iff. apply Nat.eqb_eq in Hn as ->.
    exists EmptyString. done.
  - destruct (digit c) eqn:Hc.
    + intros H. apply IH in H as (a & Ha & _ & Hn).
      exists (String c a). simpl; rewrite Hc, Ha. split; [done|]. split; [done|].
      destruct n as [|k]; [by rewrite Hn|].
      destruct Hn as (r & -> & Hr). by exists r.
    + destruct (isc "." c) eqn:Hdot; [|done].
      apply Ascii.eqb_eq in Hdot as ->.
      destruct n as [|k]; [done|].
      intros [-> Hr]%andb_true_iff.
      exists EmptyString. split; [done|]. split; [done|]. by exists s.
Qed.

Lemma ipPattern_sound (n : nat) (s : string) :
  ipPattern n false s = true -> dottedRuns n s.
Proof.
  revert s; induction n as [|n IH]; intros s H;
    apply ipPattern_sound_step in H as (a & Ha & Hne & Hn); simpl.
  - subst. split; [by apply Hne | done].
  - destruct Hn as (r & -> & Hr).
    exists a, r. split; [split; [by apply Hne | done]|]. split; [done|].
    by apply IH.
Qed.

(** The regular expression of the issuer recognises exactly the dotted
    quads. *)
Lemma looksLikeIP_dottedQuad (d : string) :
  looksLikeIP d = true <-> dottedQuad d.
Proof.
  rewrite dottedQuad_runs. unfold looksLikeIP.
  split; [apply ipPattern_sound | apply ipPattern_complete].
Qed.

Lemma elem_of_dedupe (x : string) (seen l : list string) :
  x ∈ dedupe seen l <-> x ∈ l /\ x ∉ seen.
Proof.
  revert seen; induction l as [|y l IH]; intros seen; simpl.
  - split; [by intros ?%not_elem_of_nil | by intros [?%not_elem_of_nil _]].
  - case_bool_decide as Hy.
    + rewrite IH, elem_of_cons. split; [tauto|].
      intros [[->|Hx] Hn]; [done | tauto].
    + rewrite elem_of_cons, IH, !elem_of_cons.
      destruct (decide (x = y)) as [->|Hne]; tauto.
Qed.

Lemma elem_of_buildAltNames (an : AltName) (domains : list string) :
  an ∈ buildAltNames domains <->
  exists d, (d ∈ defaultDomains \/ d ∈ domains) /\ an = altNameOf d.
Proof.
  unfold buildAltNames. rewrite list_elem_of_fmap.
  split.
  - intros (d & -> & Hd). apply elem_of_dedupe in Hd as [Hd _].
    apply elem_of_app in Hd. by exists d.
  - intros (d & Hd & ->). exists d. split; [done|].
    apply elem_of_dedupe. split; [by apply elem_of_app | apply not_elem_of_nil].
Qed.

Lemma altNameOf_value (d : string) : an_value (altNameOf d) = d.
Proof. unfold altNameOf. by destruct (looksLikeIP d). Qed.

Section WithForge.

Variable certificateFromPem : string -> option Certificate.
Variable privateKeyFromPem : string -> option string.
Variable certificateToPem : Certificate -> string.
Variable privateKeyToPem : string -> string.
Variable generateSubjectKeyIdentifier : Certificate -> string.
Variable addYears : Z -> Z -> Z.

(** Claim C7.  Every certificate generateServerCert issues has the
    subject of the CA as issuer and is signed with the CA key, has
    [basicConstraints.cA = false], lists [localhost] as a DNS name and
    [127.0.0.1] as an IP address among its alternative names whatever
    the requested domains, and lists every requested domain: as an IP
    address, and not as a DNS name, when it is a dotted quad, as a DNS
    name, and not as an IP address, otherwise. *)
Theorem leaf_certificate_profile
  (e : Entropy) (ca : CertificateData) (domains : list string)
  (out : CertificateData) :
  generateServerCert certificateFromPem privateKeyFromPem certificateToPem
    privateKeyToPem generateSubjectKeyIdentifier addYears e ca domains
    = Some out ->
  exists (caCert leaf : Certificate) (caKey : string),
    certificateFromPem (cert ca) = Some caCert /\
    privateKeyFromPem (privateKey ca) = Some caKey /\
    cert out = certificateToPem leaf /\
    issuer leaf = subject caCert /\
    signedWith leaf = Some caKey /\
    basicConstraintsCA leaf = [false] /\
    dnsName "localhost" ∈ subjectAltNames leaf /\
    ipAddress "127.0.0.1" ∈ subjectAltNames leaf /\
    forall d : string, d ∈ domains ->
      (dottedQuad d ->
         ipAddress d ∈ subjectAltNames leaf /\
         dnsName d ∉ subjectAltNames leaf) /\
      (~ dottedQuad d ->
         dnsName d ∈ subjectAltNames leaf /\
         ipAddress d ∉ subjectAltNames leaf).
Proof.
  unfold generateServerCert. intros H.
  destruct (certificateFromPem (cert ca)) as [caCert|] eqn:Hc; [|done].
  destruct (privateKeyFromPem (privateKey ca)) as [caKey|] eqn:Hk; [|done].
  simpl in H. injection H as <-.
  eexists caCert, _, caKey. repeat (split; [reflexivity|]).
  simpl. unfold subjectAltNames; simpl. rewrite app_nil_r.
  split; [apply elem_of_buildAltNames; exists "localhost";
          split; [left; left | done]|].
  split; [apply elem_of_buildAltNames; exists "127.0.0.1";
          split; [left; right; left | done]|].
  intros d Hd.
  assert (Hin : altNameOf d ∈ buildAltNames domains)
    by (apply elem_of_buildAltNames; exists d; tauto).
  assert (Hother : forall an, an_value an = d -> an <> altNameOf d ->
                     an ∉ buildAltNames domains).
  { intros an Hv Hne (d' & _ & ->)%elem_of_buildAltNames.
    rewrite altNameOf_value in Hv. congruence. }
  unfold altNameOf in *. rewrite <- looksLikeIP_dottedQuad.
  destruct (looksLikeIP d); split; intros Hq; try done.
  all: split; [done | by apply Hother].
Qed.

End WithForge.

(** The theorem for one host name and one address under an example CA. *)
Lemma leaf_certificate_profile_witness :
  exists (caCert leaf : Certificate) (caKey : string),
    exampleCertFromPem (cert exampleCA) = Some caCert /\
    exampleKeyFromPem (privateKey exampleCA) = Some caKey /\
    cert exampleLeaf = exampleCertToPem leaf /\
    issuer leaf = subject caCert /\
    signedWith leaf = Some caKey /\
    basicConstraintsCA leaf = [false] /\
    dnsName "localhost" ∈ subjectAltNames leaf /\
    ipAddress "127.0.0.1" ∈ subjectAltNames leaf /\
    forall d : string, d ∈ exampleDomains ->
      (dottedQuad d ->
         ipAddress d ∈ subjectAltNames leaf /\
         dnsName d ∉ subjectAltNames leaf) /\
      (~ dottedQuad d ->
         dnsName d ∈ subjectAltNames leaf /\
         ipAddress d ∉ subjectAltNames leaf).
Proof.
  apply (leaf_certificate_profile exampleCertFromPem exampleKeyFromPem
           exampleCertToPem exampleKeyToPem exampleKeyId exampleAddYears
           exampleLeafEntropy exampleCA exampleDomains exampleLeaf).
  vm_compute; reflexivity.
Defined.

End CertsProps.

(** ** Request framing *)

Module ProxyServerProps.
Import Chars Str ProxyServer FramingFixtures StrFacts.

Lemma starts_with_app (p s : string) :
  Str.starts_with p s = true <-> exists r, s = p +:+ r.
Proof.
  revert s; induction p as [|a p IH]; intros s; simpl.
  - split; [by exists s | done].
  - destruct s as [|b s]; [split; [done | by intros [r Hr]]|].
    rewrite andb_true_iff, Ascii.eqb_eq, IH. split.
    + intros [-> [r ->]]. by exists r.
    + intros [r Hr]. rewrite app_cons in Hr. injection Hr as -> ->. eauto.
Qed.

Lemma drop_app_length (p r : string) :
  Str.drop (String.length p) (p +:+ r) = r.
Proof. induction p as [|a p IH]; [done | by rewrite app_cons]. Qed.

Lemma index_of_unfold (needle s : string) :
  Str.index_of needle s =
    if Str.starts_with needle s then Some O
    else match s with
         | EmptyString => None
         | String _ r => S <$> Str.index_of needle r
         end.
Proof. by destruct s. Qed.

Lemma index_of_Some (needle s : string) (i : nat) :
  Str.index_of needle s = Some i ->
  s = Str.take i s +:+ needle +:+ Str.drop (i + String.length needle) s
  /\ (i + String.length needle <= String.length s)%nat.
Proof.
  revert i; induction s as [|c s IH]; intros i; rewrite index_of_unfold.
  - destruct (Str.starts_with needle EmptyString) eqn:E; [|done].
    intros [= <-]. apply starts_with_app in E as [r Hr].
    destruct needle; [done | by rewrite app_cons in Hr].
  - destruct (Str.starts_with needle (String c s)) eqn:E.
    + intros [= <-]. apply starts_with_app in E as [r Hr].
      rewrite Hr. change (Str.take 0 (needle +:+ r)) with EmptyString.
      rewrite app_nil. change (0 + String.length needle)%nat with (String.length needle).
      rewrite drop_app_length, length_app. split; [done | lia].
    + destruct (Str.index_of needle s) as [j|] eqn:Ej; [|done].
      intros [= <-]. destruct (IH j eq_refl) as [Hs Hl].
      simpl. rewrite app_cons. split; [by rewrite <- Hs | lia].
Qed.

Lemma index_of_None (needle s : string) :
  Str.index_of needle s = None <-> ~ contains needle s.
Proof.
  split.
  - induction s as [|c s IH]; rewrite index_of_unfold.
    + destruct (Str.starts_with needle EmptyString) eqn:E; [done|].
      intros _ (pre & post & H).
      destruct pre; [|by rewrite app_cons in H].
      rewrite app_nil in H.
      assert (Str.starts_with needle EmptyString = true)
        by (apply starts_with_app; eauto). congruence.
    + destruct (Str.starts_with needle (String c s)) eqn:E; [done|].
      destruct (Str.index_of needle s) as [j|]; [done|].
      intros _ (pre & post & H).
      destruct pre as [|a pre].
      * rewrite app_nil in H.
        assert (Str.starts_with needle (String c s) = true)
          by (apply starts_with_app; eauto). congruence.
      * rewrite app_cons in H. injection H as -> ->.
        apply IH; [done|]. by exists pre, post.
  - intros Hn. destruct (Str.index_of needle s) as [i|] eqn:E; [|done].
    exfalso; apply Hn. apply index_of_Some in E as [E _].
    by eexists _, _.
Qed.

(** Without the header name there is no declared length. *)
Lemma toLowerCase_cons (c : ascii) (s : string) :
  Str.toLowerCase (String c s) = String (lower c) (Str.toLowerCase s).
Proof. done. Qed.



Lemma starts_with_long (n s rest : string) :
  (String.length n <= String.length s)%nat ->
  Str.starts_with n (s +:+ rest) = Str.starts_with n s.
Proof.
  revert s; induction n as [|a n IH]; intros s; simpl; [done|].
  destruct s as [|b s]; simpl; [lia|]. intros Hl.
  rewrite ?app_cons. simpl. rewrite IH by lia. done.
Qed.

Lemma index_of_app (n s rest : string) (i : nat) :
  Str.index_of n s = Some i -> Str.index_of n (s +:+ rest) = Some i.
Proof.
  revert i; induction s as [|c s IH]; intros i Hi.
  - pose proof (index_of_Some _ _ _ Hi) as [_ Hl]. simpl in Hl.
    destruct n; [|simpl in Hl; lia].
    rewrite index_of_unfold in Hi. rewrite index_of_unfold. done.
  - pose proof (index_of_Some _ _ _ Hi) as [_ Hl].
    rewrite index_of_unfold in Hi. rewrite index_of_unfold.
    rewrite starts_with_long by lia.
    destruct (Str.starts_with n (String c s)); [done|].
    rewrite app_cons.
    destruct (Str.index_of n s) as [j|]; [|done].
    by rewrite (IH j eq_refl).
Qed.

Lemma take_app_le (k : nat) (s rest : string) :
  (k <= String.length s)%nat -> Str.take k (s +:+ rest) = Str.take k s.
Proof.
  revert s; induction k as [|k IH]; intros s Hk.
  - by destruct s, rest.
  - destruct s as [|c s]; simpl in Hk; [lia|].
    rewrite ?app_cons. simpl. by rewrite IH by lia.
Qed.

Lemma take_app_length (s rest : string) :
  Str.take (String.length s) (s +:+ rest) = s.
Proof.
  induction s as [|c s IH]; simpl.
  - by destruct rest.
  - rewrite ?app_cons. simpl. by rewrite ?IH.
Qed.

Lemma toLowerCase_app (a b : string) :
  Str.toLowerCase (a +:+ b) = Str.toLowerCase a +:+ Str.toLowerCase b.
Proof.
  induction a as [|c a IH]; [done|].
  rewrite ?app_cons, !toLowerCase_cons, ?app_cons. simpl. by rewrite ?IH.
Qed.

Lemma toLowerCase_length (a : string) :
  String.length (Str.toLowerCase a) = String.length a.
Proof.
  induction a as [|c a IH]; [done|].
  rewrite toLowerCase_cons. simpl. by rewrite IH.
Qed.

Lemma spaceWidth_digit (c : ascii) (r : string) :
  digit c = true -> spaceWidth (String c r) = 0%nat.
Proof.
  intros Hc. unfold spaceWidth.
  destruct c as [[] [] [] [] [] [] [] []]; try discriminate Hc;
    destruct r as [|c1 [|c2 r2]]; reflexivity.
Qed.

Lemma skipSpaces_blank (ws s : string) :
  Str.all (fun c => isc " " c || isc "009" c) ws = true ->
  Str.head_is digit s = true ->
  skipSpaces 0 (ws +:+ s) = s.
Proof.
  intros Hws Hs. induction ws as [|c ws IH].
  - rewrite app_nil. destruct s as [|d s]; [done|]. simpl in Hs.
    unfold skipSpaces. by rewrite spaceWidth_digit.
  - simpl in Hws. apply andb_true_iff in Hws as [Hc Hws].
    rewrite ?app_cons.
    assert (Hw : forall r, spaceWidth (String c r) = 1%nat).
    { intros r. unfold isc in Hc.
      apply orb_true_iff in Hc as [->%Ascii.eqb_eq | ->%Ascii.eqb_eq];
        reflexivity. }
    change (skipSpaces 0 (String c (ws +:+ s))) with
      (match spaceWidth (String c (ws +:+ s)) with
       | O => String c (ws +:+ s)
       | S k => skipSpaces k (ws +:+ s)
       end).
    rewrite Hw. by apply IH.
Qed.

Lemma take_while_run (p : ascii -> bool) (d rest : string) :
  Str.all p d = true -> Str.head_is p rest = false ->
  Str.take_while p (d +:+ rest) = d.
Proof.
  intros Hd Hr. induction d as [|c d IH].
  - rewrite app_nil. destruct rest as [|c r]; [done|]. simpl in *.
    by rewrite Hr.
  - simpl in Hd. apply andb_true_iff in Hd as [Hc Hd].
    rewrite ?app_cons. simpl. by rewrite Hc, IH.
Qed.

Lemma head_is_app (p : ascii -> bool) (d rest : string) :
  d <> EmptyString -> Str.all p d = true ->
  Str.head_is p (d +:+ rest) = true.
Proof.
  destruct d as [|c d]; [done|]. intros _ H. simpl in H.
  apply andb_true_iff in H as [Hc _]. by rewrite ?app_cons.
Qed.

Lemma contentLengthHere_header (name ws d rest : string) :
  Str.toLowerCase name = "content-length:" ->
  Str.all (fun c => isc " " c || isc "009" c) ws = true ->
  d <> EmptyString -> Str.all digit d = true ->
  Str.head_is digit rest = false ->
  contentLengthHere (name +:+ ws +:+ d +:+ rest) = Some d.
Proof.
  intros Hn Hws Hd Hall Hr. unfold contentLengthHere.
  rewrite toLowerCase_app, Hn.
  assert (Str.starts_with "content-length:"
            ("content-length:" +:+ Str.toLowerCase (ws +:+ d +:+ rest)) = true)
    as -> by (apply starts_with_app; by eexists).
  assert (Hl : String.length name = 15%nat)
    by (by rewrite <- toLowerCase_length, Hn).
  rewrite <- Hl, drop_app_length.
  rewrite skipSpaces_blank by (done || by apply head_is_app).
  rewrite take_while_run by done.
  by destruct d.
Qed.

Lemma contentLengthMatch_skip (pre s r : string) :
  ~ Str.contains "content-length:" (Str.toLowerCase pre +:+ "content-length") ->
  Str.toLowerCase s = "content-length:" +:+ r ->
  contentLengthMatch (pre +:+ s) = contentLengthMatch s.
Proof.
  intros Hn Hs. induction pre as [|c pre IH]; [by rewrite app_nil|].
  rewrite app_cons.
  change (contentLengthMatch (String c (pre +:+ s))) with
    (match contentLengthHere (String c (pre +:+ s)) with
     | Some d => Some d
     | None => contentLengthMatch (pre +:+ s)
     end).
  assert (Hh : contentLengthHere (String c (pre +:+ s)) = None).
  { unfold contentLengthHere.
    destruct (Str.starts_with _ _) eqn:E; [|done]. exfalso. apply Hn.
    rewrite <- app_cons, toLowerCase_app, Hs in E.
    change ("content-length:" +:+ r)
      with ("content-length" +:+ (":" +:+ r)) in E.
    rewrite <- app_assoc, starts_with_long in E.
    - apply starts_with_app in E as [q Hq]. by exists EmptyString, q.
    - rewrite length_app, toLowerCase_length. simpl. lia. }
  rewrite Hh. apply IH. intros (a & b & Hab). apply Hn.
  exists (String (lower c) a), b.
  by rewrite toLowerCase_cons, !app_cons, Hab.
Qed.

(** *** The request line *)






Section WithURL.

Variable urlPathAndSearch : string -> option string.




End WithURL.



End ProxyServerProps.

(** ** Upstream forwarder *)

Module ForwarderProps.
Import Matcher Forwarder ForwarderFixtures StrFacts.

Section WithPlatform.

Variable URL_new : string -> string -> option string.
Variable fetch :
  string -> string -> gmap string string -> option string -> Upstream.
Variable stringify : json -> string.

(** Once the target URL exists the forwarder returns: the relayed answer,
    504 when the timer fired first, 502 for any other failure. *)
Lemma forwardRequest_returns (baseUrl url : string)
  (req : ProxyIncomingRequest) (u : Upstream) :
  URL_new (in_path req) baseUrl = Some url ->
  (forall target method headers body, fetch target method headers body = u) ->
  exists r : ProxyOutgoingResponse,
    forwardRequest URL_new fetch baseUrl req = Returned r /\
    out_proxied r = true /\
    match attempt u with
    | Completed status headers body =>
        out_statusCode r = status /\ out_body r = Bytes body
    | Rejected name message =>
        if Str.eqb name "AbortError" then
          out_statusCode r = 504 /\
          out_body r = errorBody "Gateway Timeout"
                         "Upstream server did not respond within 30s"
        else
          out_statusCode r = 502 /\
          out_body r = errorBody "Bad Gateway"
                         ("Failed to reach upstream server: " +:+ message)
    end.
Proof.
  intros Hu Hf. unfold forwardRequest; rewrite Hu, Hf.
  destruct (attempt u) as [st hs b|n m]; [by eexists|].
  destruct (Str.eqb n "AbortError"); by eexists.
Qed.

Lemma attempt_silent : attempt Silent = abortError.
Proof. reflexivity. Qed.

Lemma attempt_late (t status : Z) (headers : list (string * string))
  (body : string) :
  PROXY_TIMEOUT_MS <= t -> attempt (Responds t status headers body) = abortError.
Proof.
  intros Ht. simpl. by destruct (Z.ltb_spec t PROXY_TIMEOUT_MS); [lia|].
Qed.

(** Claim C9, violated by the code.  Both forwarders build the target URL
    before their [try] block: when the constructor rejects the request
    target against the base URL, its TypeError leaves the forwarder and
    no response object is returned. *)
Theorem forwarder_throws_on_bad_target (baseUrl : string)
  (req : ProxyIncomingRequest) (ereq : ExpressRequest) :
  URL_new (in_path req) baseUrl = None ->
  URL_new (ex_originalUrl ereq) baseUrl = None ->
  forwardRequest URL_new fetch baseUrl req = Thrown "TypeError" /\
  proxyRequest URL_new fetch stringify baseUrl ereq = Thrown "TypeError".
Proof.
  intros H1 H2. unfold forwardRequest, proxyRequest. by rewrite H1, H2.
Qed.

End WithPlatform.

(** The theorem at the request target [//]. *)
Lemma forwarder_throws_on_bad_target_witness :
  forwardRequest exampleURL silentUpstream "https://api.example.com"
    (getTarget "//") = Thrown "TypeError" /\
  proxyRequest exampleURL silentUpstream exampleStringify
    "https://api.example.com" (expressGet "//") = Thrown "TypeError".
Proof.
  apply (forwarder_throws_on_bad_target exampleURL silentUpstream
           exampleStringify "https://api.example.com"
           (getTarget "//") (expressGet "//")); reflexivity.
Defined.

Example silent_upstream_gives_504 :
  exists r,
    forwardRequest exampleURL silentUpstream "https://api.example.com"
      (getTarget "/unknown") = Returned r /\
    out_statusCode r = 504 /\
    out_body r = errorBody "Gateway Timeout"
                   "Upstream server did not respond within 30s".
Proof. eexists. repeat split. Qed.

Example refused_connection_gives_502 :
  exists r,
    forwardRequest exampleURL refusingUpstream "https://api.example.com"
      (getTarget "/unknown") = Returned r /\
    out_statusCode r = 502 /\
    out_body r = errorBody "Bad Gateway"
                   "Failed to reach upstream server: fetch failed".
Proof. eexists. repeat split. Qed.

End ForwarderProps.

(** ** Path patterns *)

Module PathProps.
Import Chars Matcher StrFacts.

(** *** Parameter names *)

Lemma ident_not_colon (c : ascii) : ident_char c = true -> isc colon c = false.
Proof.
  destruct (isc colon c) eqn:E; [|done].
  apply Ascii.eqb_eq in E as ->. done.
Qed.

Lemma meta_not_ident (c : ascii) : regex_meta c = true -> ident_char c = false.
Proof.
  unfold regex_meta, isc. rewrite !orb_true_iff, !Ascii.eqb_eq.
  intros H. repeat destruct H as [H|H]; by subst.
Qed.

Lemma meta_not_colon (c : ascii) : regex_meta c = true -> isc colon c = false.
Proof.
  unfold regex_meta, isc. rewrite !orb_true_iff, !Ascii.eqb_eq.
  intros H. repeat destruct H as [H|H]; by subst.
Qed.

Lemma ident_start_char (c : ascii) : ident_start c = true -> ident_char c = true.
Proof. unfold ident_char. by intros ->. Qed.

Lemma colonNames_skip_ident (s : string) :
  colonNames (Str.drop_while ident_char s) = colonNames s.
Proof.
  induction s as [|c s IH]; simpl; [done|].
  destruct (ident_char c) eqn:E; [|done].
  by rewrite IH, (ident_not_colon c E).
Qed.

Lemma replaceParams_name (s : string) :
  (replaceParams true s).1.1 = Str.take_while ident_char s.
Proof.
  induction s as [|c s IH]; simpl; [done|].
  destruct (ident_char c) eqn:E; simpl.
  - destruct (replaceParams true s) as [[n out] names]; simpl in *.
    by rewrite IH.
  - destruct (isc colon c && Str.head_is ident_start s).
    + by destruct (replaceParams true s) as [[n out] names].
    + by destruct (replaceParams false s) as [[n out] names].
Qed.

Lemma replaceParams_names (s : string) (inname : bool) :
  (replaceParams inname s).2 = colonNames s.
Proof.
  revert inname; induction s as [|c s IH]; intros inname; simpl; [done|].
  destruct (inname && ident_char c) eqn:E.
  - apply andb_true_iff in E as [_ E].
    rewrite (ident_not_colon c E); simpl.
    specialize (IH true).
    by destruct (replaceParams true s) as [[n out] names].
  - destruct (isc colon c && Str.head_is ident_start s).
    + pose proof (IH true) as IHt. pose proof (replaceParams_name s) as Hn.
      destruct (replaceParams true s) as [[n out] names]; simpl in *.
      by rewrite IHt, Hn.
    + specialize (IH false).
      by destruct (replaceParams false s) as [[n out] names].
Qed.

Lemma head_is_escapeMeta (s : string) :
  Str.head_is ident_start (escapeMeta s) = Str.head_is ident_start s.
Proof.
  destruct s as [|c s]; simpl; [done|].
  destruct (regex_meta c) eqn:E; [|done]. simpl.
  apply meta_not_ident in E. unfold ident_char in E.
  by apply orb_false_iff in E as [-> _].
Qed.

Lemma take_ident_escapeMeta (s : string) :
  Str.take_while ident_char (escapeMeta s) = Str.take_while ident_char s.
Proof.
  induction s as [|c s IH]; simpl; [done|].
  destruct (regex_meta c) eqn:E; simpl.
  - by rewrite (meta_not_ident c E).
  - by rewrite IH.
Qed.

Lemma colonNames_escapeMeta (s : string) :
  colonNames (escapeMeta s) = colonNames s.
Proof.
  induction s as [|c s IH]; simpl; [done|].
  destruct (regex_meta c) eqn:E; simpl.
  - by rewrite (meta_not_colon c E), IH.
  - by rewrite head_is_escapeMeta, take_ident_escapeMeta, IH.
Qed.

(** The names pathToRegex records are the declared ones, in order. *)
Lemma paramNames_declared (pattern : string) :
  paramNames (pathToRegex pattern) = colonNames pattern.
Proof.
  unfold pathToRegex.
  pose proof (replaceParams_names (escapeMeta pattern) false) as H.
  destruct (replaceParams false (escapeMeta pattern)) as [[n out] names].
  simpl in *. by rewrite H, colonNames_escapeMeta.
Qed.

(** *** The compiled source *)

Lemma render_cons (p : piece) (ps : list piece) :
  render (p :: ps) = renderPiece p +:+ render ps.
Proof. done. Qed.

Lemma groups_cons (p : piece) (ps : list piece) :
  groups (p :: ps) =
    ((match p with Group => 1 | _ => 0 end) + groups ps)%nat.
Proof. unfold groups; simpl. by destruct p. Qed.

Lemma replaceParams_rendered (p : string) (inname : bool) :
  exists ps : list piece,
    (replaceParams inname (escapeMeta p)).1.2 = render ps /\
    Forall wellFormed ps /\
    groups ps = length (replaceParams inname (escapeMeta p)).2.
Proof.
  revert inname; induction p as [|c p IH]; intros inname.
  - exists []. simpl. by split.
  - simpl escapeMeta. destruct (regex_meta c) eqn:E.
    + destruct (IH false) as (ps & Hr & Hw & Hg).
      exists (Escaped c :: ps).
      cbn [replaceParams].
      replace (inname && ident_char "\"%char) with false
        by (by destruct inname).
      change (isc colon "\"%char) with false. cbn [andb].
      rewrite (meta_not_colon c E). cbn [andb].
      destruct (replaceParams false (escapeMeta p)) as [[n out] names].
      simpl in *. rewrite Hr. split; [done|]. split; [|by rewrite groups_cons].
      by constructor.
    + cbn [replaceParams].
      destruct (inname && ident_char c).
      * destruct (IH true) as (ps & Hr & Hw & Hg). exists ps.
        by destruct (replaceParams true (escapeMeta p)) as [[n out] names].
      * destruct (isc colon c && Str.head_is ident_start (escapeMeta p)).
        -- destruct (IH true) as (ps & Hr & Hw & Hg). exists (Group :: ps).
           destruct (replaceParams true (escapeMeta p)) as [[n out] names].
           simpl in *. rewrite Hr. split; [done|].
           split; [by constructor | by rewrite groups_cons, Hg].
        -- destruct (IH false) as (ps & Hr & Hw & Hg). exists (Plain c :: ps).
           destruct (replaceParams false (escapeMeta p)) as [[n out] names].
           simpl in *. rewrite Hr. split; [done|].
           split; [by constructor | by rewrite groups_cons].
Qed.

Lemma not_meta (c : ascii) :
  regex_meta c = false ->
  isc "\"%char c = false /\ isc "("%char c = false /\
  isc "^"%char c = false /\ isc "$"%char c = false.
Proof.
  unfold regex_meta. rewrite !orb_false_iff. tauto.
Qed.

Lemma parseRegExp_render (ps : list piece) (rest : string) :
  Forall wellFormed ps ->
  parseRegExp 0 (render ps +:+ rest)
    = (fun ts => List.map pieceToken ps ++ ts) <$> parseRegExp 0 rest.
Proof.
  induction 1 as [|p ps Hp Hps IH].
  - simpl. rewrite app_nil. by destruct (parseRegExp 0 rest).
  - rewrite render_cons, app_assoc.
    destruct p as [c|c|]; simpl in Hp.
    + simpl renderPiece. rewrite app_cons, app_nil. cbn [parseRegExp].
      destruct (not_meta c Hp) as (-> & -> & -> & ->). rewrite Hp, IH.
      by destruct (parseRegExp 0 rest).
    + simpl renderPiece. rewrite !app_cons, app_nil. cbn [parseRegExp].
      change (isc "\"%char "\"%char) with true. cbn match.
      rewrite Hp, IH. by destruct (parseRegExp 0 rest).
    + unfold renderPiece, group_source.
      change (parseRegExp 0 ("([^/]+)" +:+ render ps +:+ rest))
        with (cons RGroup <$> parseRegExp 0 (render ps +:+ rest)).
      rewrite IH. by destruct (parseRegExp 0 rest).
Qed.

(** Every source pathToRegex builds is in the fragment: it parses to the
    start assertion, one token per literal character or group, and the
    end assertion. *)
Lemma pathToRegex_compiles (pattern : string) :
  exists ps : list piece,
    parseRegExp 0 (regex (pathToRegex pattern))
      = Some (RBegin :: List.map pieceToken ps ++ [REnd]) /\
    groups ps = length (paramNames (pathToRegex pattern)).
Proof.
  unfold pathToRegex.
  destruct (replaceParams_rendered pattern false) as (ps & Hr & Hw & Hg).
  destruct (replaceParams false (escapeMeta pattern)) as [[n out] names].
  simpl in *. exists ps. split; [|done].
  rewrite Hr. change ("^" +:+ render ps +:+ "$")
    with (String "^" (render ps +:+ "$")).
  cbn [parseRegExp]. change (isc "\"%char "^"%char) with false.
  change (isc "("%char "^"%char) with false.
  change (isc "^"%char "^"%char) with true. cbn match.
  rewrite app_nil, parseRegExp_render by done. done.
Qed.

(** *** Matching *)

Lemma app_eq_empty (a b : string) : a +:+ b = EmptyString -> a = EmptyString.
Proof. destruct a; [done | by rewrite app_cons]. Qed.

Lemma group_greedy_spec (k : string -> option (string * list string))
  (acc s : string) (r : string * list string) :
  group_greedy k acc s = Some r ->
  exists (g rest : string) (r' : string * list string),
    s = g +:+ rest /\ k rest = Some r' /\ r = capture (acc +:+ g) r' /\
    acc +:+ g <> EmptyString /\ noSlash g.
Proof.
  revert acc; induction s as [|d s IH]; intros acc.
  - simpl. destruct (Str.is_empty acc) eqn:E; [done|].
    destruct (k EmptyString) as [r'|] eqn:Hk; [|done].
    intros [= <-]. exists EmptyString, EmptyString, r'.
    rewrite !app_empty_r. apply is_empty_false in E. by repeat split.
  - cbn [group_greedy].
    assert (Hstop :
      (if Str.is_empty acc then None else capture acc <$> k (String d s))
        = Some r ->
      exists (g rest : string) (r' : string * list string),
        String d s = g +:+ rest /\ k rest = Some r' /\
        r = capture (acc +:+ g) r' /\
        acc +:+ g <> EmptyString /\ noSlash g).
    { destruct (Str.is_empty acc) eqn:E; [done|].
      destruct (k (String d s)) as [r'|] eqn:Hk; [|done].
      intros [= <-]. exists EmptyString, (String d s), r'.
      rewrite !app_empty_r. apply is_empty_false in E. by repeat split. }
    destruct (isc slash d) eqn:Hd; [exact Hstop|].
    destruct (group_greedy k (acc +:+ String d EmptyString) s) as [r0|] eqn:Hg;
      [|exact Hstop].
    intros [= <-]. apply IH in Hg as (g & rest & r' & -> & Hk & -> & Hne & Hs).
    exists (String d g), rest, r'.
    assert (Ha : (acc +:+ String d EmptyString) +:+ g = acc +:+ String d g)
      by (by rewrite app_assoc, app_cons, app_nil).
    rewrite Ha in Hne |- *. rewrite app_cons.
    repeat split; try done.
    unfold noSlash in *; simpl. by rewrite Hd, Hs.
Qed.

Lemma rmatch_body (ps : list piece) (st : bool) (s : string)
  (r : string * list string) :
  rmatch (List.map pieceToken ps ++ [REnd]) st s = Some r ->
  r.1 = s /\ length r.2 = groups ps /\ Forall goodCapture r.2.
Proof.
  revert st s r; induction ps as [|p ps IH]; intros st s r.
  - simpl. destruct s; [|done]. intros [= <-]. by repeat split.
  - assert (Hchar : forall c,
      rmatch (RChar c :: List.map pieceToken ps ++ [REnd]) st s = Some r ->
      r.1 = s /\ length r.2 = groups ps /\ Forall goodCapture r.2).
    { intros c. cbn [rmatch]. destruct s as [|d s]; [done|].
      destruct (Ascii.eqb c d); [|done].
      destruct (rmatch _ false s) as [r'|] eqn:Hr; [|done].
      intros [= <-]. apply IH in Hr as (H1 & H2 & H3).
      simpl. by rewrite H1. }
    rewrite groups_cons.
    destruct p as [c|c|]; [apply Hchar | apply Hchar |].
    simpl List.map. cbn [app rmatch].
    intros (g & rest & r' & -> & Hk & -> & Hne & Hs)%group_greedy_spec.
    apply IH in Hk as (H1 & H2 & H3).
    rewrite app_nil in Hne |- *. simpl. rewrite H1, H2.
    repeat split; try done. by constructor.
Qed.

Lemma exec_at_anchored (ts : list rtoken) (s : string) :
  exec_at (RBegin :: ts) false s = None.
Proof. induction s as [|c s IH]; simpl; [done | exact IH]. Qed.

(** Whatever matches, matches the entire path, with one well-formed
    capture for every declared parameter. *)
Lemma exec_whole_path (pattern path : string) (m : list string) :
  RegExp_exec (regex (pathToRegex pattern)) path = Some m ->
  exists caps : list string,
    m = path :: caps /\
    length caps = length (paramNames (pathToRegex pattern)) /\
    Forall goodCapture caps.
Proof.
  unfold RegExp_exec.
  destruct (pathToRegex_compiles pattern) as (ps & -> & Hg).
  simpl. rewrite <- Hg.
  assert (He : exec_at (RBegin :: List.map pieceToken ps ++ [REnd]) true path
               = rmatch (List.map pieceToken ps ++ [REnd]) true path).
  { destruct path as [|c path]; cbn [exec_at rmatch];
      destruct (rmatch _ true _); try done. apply exec_at_anchored. }
  rewrite He.
  destruct (rmatch _ true path) as [r|] eqn:Hr; [|done].
  intros [= <-]. apply rmatch_body in Hr as (H1 & H2 & H3).
  exists r.2. by rewrite H1.
Qed.

(** *** Binding the captures *)

Lemma assign_other (k v n : string) (o : gmap string string) :
  n <> k -> assign k v o !! n = o !! n.
Proof.
  intros Hn. unfold assign. destruct (Str.eqb k "__proto__"); [done|].
  by rewrite lookup_insert_ne.
Qed.

Lemma assign_same (k v : string) (o : gmap string string) :
  k <> "__proto__" -> assign k v o !! k = Some v.
Proof.
  intros Hk. unfold assign.
  assert (Str.eqb k "__proto__" = false) as -> by (by apply eqb_neq).
  apply lookup_insert_eq.
Qed.

Lemma dom_assign (k v : string) (o : gmap string string) :
  k <> "__proto__" -> dom (assign k v o) = {[ k ]} ∪ dom o.
Proof.
  intros Hk. unfold assign.
  assert (Str.eqb k "__proto__" = false) as -> by (by apply eqb_neq).
  apply dom_insert_L.
Qed.

Lemma bindParams_other (names : list string) (i : nat) (m : list string)
  (acc : gmap string string) (n : string) :
  n ∉ names -> bindParams names i m acc !! n = acc !! n.
Proof.
  revert i acc; induction names as [|x names IH]; intros i acc Hn; [done|].
  apply not_elem_of_cons in Hn as [Hx Hn]. simpl.
  rewrite IH by done. by apply assign_other.
Qed.

Lemma bindParams_lookup (names : list string) (i : nat) (m : list string)
  (acc : gmap string string) (j : nat) (n : string) :
  NoDup names -> names !! j = Some n -> n <> "__proto__" ->
  bindParams names i m acc !! n
    = Some (default EmptyString (m !! S (i + j))).
Proof.
  revert i acc j; induction names as [|x names IH];
    intros i acc j Hnd Hj Hp; [done|].
  apply NoDup_cons in Hnd as [Hx Hnd]. simpl.
  destruct j as [|j]; simpl in Hj.
  - injection Hj as ->. rewrite bindParams_other by done.
    by rewrite assign_same, Nat.add_0_r.
  - rewrite (IH (S i) _ j) by done. do 3 f_equal. lia.
Qed.

Lemma bindParams_dom (names : list string) (i : nat) (m : list string)
  (acc : gmap string string) :
  "__proto__" ∉ names ->
  dom (bindParams names i m acc) = list_to_set names ∪ dom acc.
Proof.
  revert i acc; induction names as [|x names IH]; intros i acc Hp; simpl.
  - by rewrite (left_id_L ∅ (∪)).
  - apply not_elem_of_cons in Hp as [Hx Hp].
    rewrite IH, dom_assign, !(assoc_L (∪)) by done.
    f_equal. apply (comm_L (∪)).
Qed.

Lemma bindParams_size (names : list string) (m : list string) :
  NoDup names -> "__proto__" ∉ names ->
  size (bindParams names 0 m ∅) = length names.
Proof.
  intros Hnd Hp.
  rewrite <- size_dom, bindParams_dom, dom_empty_L by done.
  rewrite (right_id_L ∅ (∪)).
  by apply size_list_to_set.
Qed.

(** A parameter named [__proto__] is captured and not bound. *)
Lemma bindParams_proto (names : list string) (i : nat) (m : list string)
  (acc : gmap string string) :
  bindParams names i m acc !! "__proto__" = acc !! "__proto__".
Proof.
  revert i acc; induction names as [|x names IH]; intros i acc; [done|].
  simpl. rewrite IH. unfold assign.
  destruct (Str.eqb x "__proto__") eqn:E; [done|].
  apply eqb_neq in E. by rewrite lookup_insert_ne.
Qed.

(** Claim C6, as amended.  For a pattern with [k] declared parameters
    pathToRegex records exactly their [k] names, in declaration order; the
    compiled pattern matches entire paths only, with one non-empty,
    slash-free capture per parameter; and when the [k] names are pairwise
    distinct and none of them is [__proto__], extractParams returns
    exactly [k] parameters, each name bound to its capture.
    [/api/users/:id] matches [/api/users/123] with [id = 123] and rejects
    [/api/users] and [/api/users/123/posts]. *)
Theorem path_compilation (pattern : string) :
  paramNames (pathToRegex pattern) = colonNames pattern /\
  (forall (path : string) (m : list string),
     RegExp_exec (regex (pathToRegex pattern)) path = Some m ->
     exists caps : list string,
       m = path :: caps /\
       length caps = length (colonNames pattern) /\
       Forall goodCapture caps /\
       (NoDup (colonNames pattern) ->
        "__proto__" ∉ colonNames pattern ->
          size (extractParams path pattern) = length (colonNames pattern) /\
          forall (i : nat) (n : string),
            colonNames pattern !! i = Some n ->
            extractParams path pattern !! n = caps !! i)) /\
  (forall path : string,
     RegExp_test (regex (pathToRegex pattern)) path = false ->
     extractParams path pattern = ∅) /\
  extractParams "/api/users/123" "/api/users/:id" = {[ "id" := "123" ]} /\
  RegExp_test (regex (pathToRegex "/api/users/:id")) "/api/users/123" = true /\
  RegExp_test (regex (pathToRegex "/api/users/:id")) "/api/users" = false /\
  RegExp_test (regex (pathToRegex "/api/users/:id")) "/api/users/123/posts"
    = false.
Proof.
  split; [apply paramNames_declared|].
  split; [|split; [|repeat split; vm_compute; reflexivity]].
  - intros path m Hm.
    destruct (exec_whole_path pattern path m Hm) as (caps & -> & Hl & Hc).
    rewrite paramNames_declared in Hl.
    exists caps. repeat (split; [done|]).
    intros Hnd Hp. unfold extractParams. rewrite Hm, paramNames_declared.
    split; [by apply bindParams_size|].
    intros i n Hi.
    assert (Hn : n <> "__proto__").
    { intros ->. apply Hp. by eapply list_elem_of_lookup_2. }
    rewrite (bindParams_lookup _ 0 _ _ i) by done. simpl.
    apply lookup_lt_Some in Hi. rewrite <- Hl in Hi.
    apply lookup_lt_is_Some in Hi as [v Hv]. by rewrite Hv.
  - intros path Ht. unfold RegExp_test in Ht.
    apply bool_decide_eq_false in Ht. unfold extractParams.
    destruct (RegExp_exec _ path) as [m|]; [|done].
    exfalso; apply Ht; eauto.
Qed.

(** The theorem on a pattern with two parameters. *)
Lemma path_compilation_witness :
  exists caps : list string,
    ["/api/users/123/posts/456"; "123"; "456"]
      = "/api/users/123/posts/456" :: caps /\
    length caps = length (colonNames "/api/users/:userId/posts/:postId") /\
    Forall goodCapture caps /\
    size (extractParams "/api/users/123/posts/456"
            "/api/users/:userId/posts/:postId")
      = length (colonNames "/api/users/:userId/posts/:postId") /\
    forall (i : nat) (n : string),
      colonNames "/api/users/:userId/posts/:postId" !! i = Some n ->
      extractParams "/api/users/123/posts/456"
        "/api/users/:userId/posts/:postId" !! n = caps !! i.
Proof.
  destruct (path_compilation "/api/users/:userId/posts/:postId")
    as (_ & H & _).
  destruct (H "/api/users/123/posts/456"
              ["/api/users/123/posts/456"; "123"; "456"])
    as (caps & E & Hl & Hc & Hb); [vm_compute; reflexivity|].
  exists caps. repeat (split; [done|]).
  apply Hb.
  - apply (bool_decide_unpack _). vm_compute. exact I.
  - apply (bool_decide_unpack _). vm_compute. exact I.
Defined.

(** Claim C6 as stated fails on a pattern that declares the same name
    twice: two names are recorded and one parameter is extracted. *)
Lemma repeated_name_binds_once :
  colonNames "/:id/:id" = ["id"; "id"] /\
  paramNames (pathToRegex "/:id/:id") = ["id"; "id"] /\
  RegExp_exec (regex (pathToRegex "/:id/:id")) "/1/2"
    = Some ["/1/2"; "1"; "2"] /\
  extractParams "/1/2" "/:id/:id" = {[ "id" := "2" ]} /\
  size (extractParams "/1/2" "/:id/:id") <> length (colonNames "/:id/:id").
Proof.
  repeat split; try (vm_compute; reflexivity).
  vm_compute. discriminate.
Qed.

End PathProps.

Module RoutingProps.

Import Chars Matcher Routing StrFacts PathProps.

Lemma piecesOf_rendered (p : string) (inname : bool) :
  (replaceParams inname (escapeMeta p)).1.2 = render (piecesOf inname p) /\
  Forall wellFormed (piecesOf inname p).
Proof.
  revert inname; induction p as [|c p IH]; intros inname; [by split|].
  simpl escapeMeta. cbn [piecesOf]. destruct (regex_meta c) eqn:E.
  - destruct (IH false) as (Hr & Hw).
    cbn [replaceParams].
    replace (inname && ident_char "\"%char) with false
      by (by destruct inname).
    change (isc colon "\"%char) with false. cbn [andb].
    rewrite (meta_not_colon c E). cbn [andb].
    destruct (replaceParams false (escapeMeta p)) as [[n out] names].
    simpl in *. rewrite Hr. split; [done | by constructor].
  - cbn [replaceParams]. rewrite head_is_escapeMeta.
    destruct (inname && ident_char c).
    + destruct (IH true) as (Hr & Hw).
      by destruct (replaceParams true (escapeMeta p)) as [[n out] names].
    + destruct (isc colon c && Str.head_is ident_start p).
      * destruct (IH true) as (Hr & Hw).
        destruct (replaceParams true (escapeMeta p)) as [[n out] names].
        simpl in *. rewrite Hr. split; [done | by constructor].
      * destruct (IH false) as (Hr & Hw).
        destruct (replaceParams false (escapeMeta p)) as [[n out] names].
        simpl in *. rewrite Hr. split; [done | by constructor].
Qed.

Lemma groups_piecesOf (p : string) (inname : bool) :
  groups (piecesOf inname p) = length (colonNames p).
Proof.
  revert inname; induction p as [|c p IH]; intros inname; [done|].
  cbn [piecesOf colonNames]. destruct (regex_meta c) eqn:E.
  - rewrite groups_cons, (meta_not_colon c E). simpl. apply IH.
  - destruct (inname && ident_char c) eqn:Ei.
    + apply andb_true_iff in Ei as [_ Ei].
      rewrite (ident_not_colon c Ei). simpl. apply IH.
    + destruct (isc colon c && Str.head_is ident_start p).
      * rewrite groups_cons. simpl. by rewrite IH.
      * rewrite groups_cons. simpl. apply IH.
Qed.

Lemma pathToRegex_tokens (pattern : string) :
  parseRegExp 0 (regex (pathToRegex pattern))
    = Some (RBegin :: List.map pieceToken (piecesOf false pattern) ++ [REnd]).
Proof.
  unfold pathToRegex.
  destruct (piecesOf_rendered pattern false) as (Hr & Hw).
  destruct (replaceParams false (escapeMeta pattern)) as [[n out] names].
  simpl in *. rewrite Hr.
  change ("^" +:+ render (piecesOf false pattern) +:+ "$")
    with (String "^" (render (piecesOf false pattern) +:+ "$")).
  cbn [parseRegExp]. change (isc "\"%char "^"%char) with false.
  change (isc "("%char "^"%char) with false.
  change (isc "^"%char "^"%char) with true. cbn match.
  rewrite app_nil, parseRegExp_render by done. done.
Qed.

Lemma fill_instantiate (p : string) (inname : bool) (vals : list string) :
  fill (piecesOf inname p) vals = instantiate inname p vals.
Proof.
  revert inname vals; induction p as [|c p IH]; intros inname vals; [done|].
  cbn [piecesOf instantiate]. destruct (regex_meta c) eqn:E.
  - rewrite (meta_not_ident c E), (meta_not_colon c E), andb_false_r.
    simpl. by rewrite IH.
  - destruct (inname && ident_char c); [apply IH|].
    destruct (isc colon c && Str.head_is ident_start p); simpl.
    + destruct vals; by rewrite IH.
    + by rewrite IH.
Qed.
Lemma rmatch_fill (ps : list piece) (st : bool) (s : string)
  (r : string * list string) :
  rmatch (List.map pieceToken ps ++ [REnd]) st s = Some r ->
  s = fill ps r.2.
Proof.
  revert st s r; induction ps as [|p ps IH]; intros st s r.
  - simpl. destruct s; [|done]. by intros [= <-].
  - assert (Hchar : forall c,
      rmatch (RChar c :: List.map pieceToken ps ++ [REnd]) st s = Some r ->
      s = String c (fill ps r.2)).
    { intros c. cbn [rmatch]. destruct s as [|d s]; [done|].
      destruct (Ascii.eqb c d) eqn:E; [|done].
      apply Ascii.eqb_eq in E as ->.
      destruct (rmatch _ false s) as [r'|] eqn:Hr; [|done].
      intros [= <-]. apply IH in Hr. simpl. by rewrite <- Hr. }
    destruct p as [c|c|]; [apply Hchar | apply Hchar |].
    simpl List.map. cbn [app rmatch].
    intros (g & rest & r' & -> & Hk & -> & Hne & Hs)%group_greedy_spec.
    apply IH in Hk. rewrite app_nil. simpl. by rewrite <- Hk.
Qed.

Lemma group_greedy_complete (k : string -> option (string * list string))
  (g rest acc : string) :
  noSlash g -> acc +:+ g <> EmptyString -> is_Some (k rest) ->
  is_Some (group_greedy k acc (g +:+ rest)).
Proof.
  revert acc; induction g as [|d g IH]; intros acc Hs Hne Hk.
  - rewrite app_nil. rewrite app_empty_r in Hne.
    apply is_empty_false in Hne.
    destruct Hk as [r Hk].
    destruct rest as [|e rest]; cbn [group_greedy]; rewrite Hne.
    + rewrite Hk. by eexists.
    + destruct (isc slash e); [rewrite Hk; by eexists|].
      destruct (group_greedy k _ rest); [by eexists|].
      rewrite Hk. by eexists.
  - rewrite app_cons. cbn [group_greedy].
    unfold noSlash in Hs; simpl in Hs.
    apply andb_true_iff in Hs as [Hd Hs]. apply negb_true_iff in Hd.
    rewrite Hd.
    destruct (IH (acc +:+ String d EmptyString) Hs) as [r Hr]; [|done|].
    + by rewrite app_assoc, app_cons, app_nil.
    + rewrite Hr. by eexists.
Qed.

Lemma rmatch_complete (ps : list piece) (st : bool) (vals : list string) :
  Forall goodCapture vals -> length vals = groups ps ->
  is_Some (rmatch (List.map pieceToken ps ++ [REnd]) st (fill ps vals)).
Proof.
  revert st vals; induction ps as [|p ps IH]; intros st vals Hv Hl.
  - simpl. by eexists.
  - rewrite groups_cons in Hl.
    assert (Hchar : forall c,
      length vals = groups ps ->
      is_Some (rmatch (RChar c :: List.map pieceToken ps ++ [REnd]) st
                 (String c (fill ps vals)))).
    { intros c Hl'. cbn [rmatch]. rewrite Ascii.eqb_refl.
      destruct (IH false vals Hv Hl') as [r Hr]. rewrite Hr. by eexists. }
    destruct p as [c|c|]; [by apply Hchar | by apply Hchar |].
    destruct vals as [|v vs]; [done|].
    apply Forall_cons in Hv as [[Hne Hs] Hv].
    simpl List.map. cbn [app rmatch fill].
    apply group_greedy_complete; [done | by rewrite app_nil |].
    apply IH; [done|]. simpl in Hl. lia.
Qed.

Lemma exec_at_start (ts : list rtoken) (s : string) :
  exec_at (RBegin :: ts) true s = rmatch ts true s.
Proof.
  destruct s as [|c s]; cbn [exec_at rmatch];
    destruct (rmatch ts true _); try done. apply exec_at_anchored.
Qed.

Lemma test_iff_rmatch (pattern path : string) :
  RegExp_test (regex (pathToRegex pattern)) path = true <->
  is_Some (rmatch (List.map pieceToken (piecesOf false pattern) ++ [REnd])
             true path).
Proof.
  unfold RegExp_test, RegExp_exec.
  rewrite bool_decide_eq_true, pathToRegex_tokens. simpl.
  rewrite exec_at_start.
  destruct (rmatch _ true path) as [r|]; simpl.
  - split; intros _; by eexists.
  - split; intros [? ?]; done.
Qed.

Lemma instantiate_literal (p : string) (vals : list string) :
  colonNames p = [] -> instantiate false p vals = p.
Proof.
  induction p as [|c p IH]; [done|].
  cbn [colonNames instantiate]. simpl.
  destruct (isc colon c && Str.head_is ident_start p); [done|].
  intros H. by rewrite IH.
Qed.

(** X1.  A path matches a compiled pattern exactly when it is the pattern
    with a non-empty, slash-free value in the place of every declared
    parameter; every other character of the pattern, syntax characters of
    regular expressions included, stands for itself. *)
Theorem route_matches_iff_instance (pattern path : string) :
  RegExp_test (regex (pathToRegex pattern)) path = true <->
  exists vals : list string,
    length vals = length (colonNames pattern) /\
    Forall goodCapture vals /\
    path = instantiate false pattern vals.
Proof.
  rewrite test_iff_rmatch. split.
  - intros [r Hr].
    pose proof (rmatch_fill _ _ _ _ Hr) as Hf.
    apply rmatch_body in Hr as (_ & Hl & Hc).
    exists r.2.
    rewrite <- fill_instantiate, <- groups_piecesOf with (inname := false).
    done.
  - intros (vals & Hl & Hc & ->).
    rewrite <- fill_instantiate.
    rewrite <- groups_piecesOf with (inname := false) in Hl.
    by apply rmatch_complete.
Qed.

(** X2.  A pattern that declares no parameter matches its own text and
    nothing else. *)
Theorem literal_route_matches_itself_only (pattern path : string) :
  colonNames pattern = [] ->
  (RegExp_test (regex (pathToRegex pattern)) path = true <-> path = pattern).
Proof.
  intros Hn. rewrite test_iff_rmatch. split.
  - intros [r Hr]. apply rmatch_fill in Hr.
    by rewrite Hr, fill_instantiate, instantiate_literal.
  - intros ->.
    rewrite <- (instantiate_literal pattern [] Hn) at 2.
    rewrite <- fill_instantiate.
    apply rmatch_complete; [constructor|].
    by rewrite groups_piecesOf, Hn.
Qed.

Lemma literal_route_matches_itself_only_witness :
  RegExp_test (regex (pathToRegex "/api/search.json")) "/api/search.json"
    = true <-> "/api/search.json" = "/api/search.json".
Proof.
  apply (literal_route_matches_itself_only "/api/search.json").
  reflexivity.
Defined.

(** *** matchRequest *)

Lemma matchRequest_cons (method path : string) (r : Resource)
  (rest : list Resource) :
  matchRequest method path (r :: rest) =
    if resourceMatches method path r then Some (matchOf path r)
    else matchRequest method path rest.
Proof.
  unfold resourceMatches, matchOf. cbn [matchRequest].
  destruct (Str.eqb (res_method r) method); simpl; [|done].
  by destruct (RegExp_test _ _).
Qed.

(** X3.  matchRequest answers with the first resource of the list, in
    list order, that has the method of the request and whose pattern
    matches the normalized path, and with [null] when there is none:
    order decides between overlapping patterns, a resource of another
    method is never returned. *)
Theorem matchRequest_first_match (method path : string)
  (resources : list Resource) :
  match matchRequest method path resources with
  | Some m =>
      exists before after : list Resource,
        resources = before ++ resource m :: after /\
        Forall (fun r => resourceMatches method path r = false) before /\
        resourceMatches method path (resource m) = true /\
        res_method (resource m) = method /\
        m = matchOf path (resource m)
  | None => Forall (fun r => resourceMatches method path r = false) resources
  end.
Proof.
  induction resources as [|r rest IH]; [by constructor|].
  rewrite matchRequest_cons.
  destruct (resourceMatches method path r) eqn:E.
  - exists [], rest. repeat split; try done.
    unfold resourceMatches in E. apply andb_true_iff in E as [E _].
    by apply eqb_eq in E.
  - destruct (matchRequest method path rest) as [m|].
    + destruct IH as (before & after & -> & Hb & Hm & Hmeth & Hmo).
      exists (r :: before), after. repeat split; try done.
      by constructor.
    + by constructor.
Qed.

(** *** Trailing slashes *)

Lemma stripTrailingSlash_snoc (p : string) :
  stripTrailingSlash (p +:+ "/") = p.
Proof.
  induction p as [|c p IH]; [done|].
  rewrite app_cons. cbn [stripTrailingSlash].
  destruct (p +:+ "/") eqn:E.
  - by destruct p.
  - simpl Str.is_empty. cbv iota. by rewrite IH.
Qed.

Lemma stripTrailingSlash_id (p : string) :
  ~ endsWithSlash p -> stripTrailingSlash p = p.
Proof.
  induction p as [|c p IH]; [done|].
  intros Hn. cbn [stripTrailingSlash].
  destruct p as [|d p].
  - simpl. destruct (isc slash c) eqn:E; [|done].
    apply Ascii.eqb_eq in E as ->. exfalso; apply Hn. by exists EmptyString.
  - simpl Str.is_empty. cbv iota. rewrite IH; [done|].
    intros [q Hq]. apply Hn. exists (String c q). by rewrite app_cons, <- Hq.
Qed.

Lemma normalizePath_snoc (p : string) :
  p <> EmptyString -> normalizePath (p +:+ "/") = p.
Proof.
  intros Hne. unfold normalizePath.
  destruct (Str.eqb (p +:+ "/") "/") eqn:E.
  - apply eqb_eq in E. destruct p as [|c p]; [done|].
    rewrite app_cons in E. injection E as _ E. by destruct p.
  - apply stripTrailingSlash_snoc.
Qed.

Lemma normalizePath_id (p : string) :
  ~ endsWithSlash p -> normalizePath p = p.
Proof.
  intros Hn. unfold normalizePath.
  destruct (Str.eqb p "/") eqn:E; [by apply eqb_eq in E|].
  by apply stripTrailingSlash_id.
Qed.

Lemma matchRequest_normalized (method p q : string)
  (resources : list Resource) :
  normalizePath p = normalizePath q ->
  matchRequest method p resources = matchRequest method q resources.
Proof.
  intros H. induction resources as [|r rest IH]; [done|].
  rewrite !matchRequest_cons. unfold resourceMatches, matchOf.
  by rewrite H, IH.
Qed.

(** X4.  One trailing slash is ignored on the request path: a non-empty
    path that does not end in a slash and the same path followed by one
    slash are matched alike, resource and parameters.  Only one slash is
    removed: with two, the path keeps one. *)
Theorem trailing_slash_ignored (method p : string)
  (resources : list Resource) :
  p <> EmptyString -> ~ endsWithSlash p ->
  matchRequest method (p +:+ "/") resources
    = matchRequest method p resources /\
  normalizePath (p +:+ "//") = p +:+ "/".
Proof.
  intros Hne Hs. split.
  - apply matchRequest_normalized.
    by rewrite normalizePath_snoc, normalizePath_id.
  - replace (p +:+ "//") with ((p +:+ "/") +:+ "/")
      by (by rewrite app_assoc).
    apply normalizePath_snoc. by destruct p.
Qed.

Ltac no_slash_end :=
  let q := fresh "q" in let Hq := fresh "Hq" in
  intros [q Hq];
  repeat (destruct q as [|? q]; [discriminate Hq|];
          rewrite app_cons in Hq; injection Hq as _ Hq);
  destruct q; discriminate Hq.

Lemma trailing_slash_ignored_witness :
  matchRequest "GET" ("/api/test" +:+ "/") [Fixtures.testResource]
    = matchRequest "GET" "/api/test" [Fixtures.testResource] /\
  normalizePath ("/api/test" +:+ "//") = "/api/test" +:+ "/".
Proof.
  apply (trailing_slash_ignored "GET" "/api/test" [Fixtures.testResource]).
  - discriminate.
  - no_slash_end.
Defined.

(** *** resolveScenario *)

Lemma findScenario_elem (n : string) (l : list Scenario) (s : Scenario) :
  findScenario n l = Some s -> s ∈ l.
Proof.
  unfold findScenario. intros H. apply List.find_some in H as [H _].
  by apply list_elem_of_In.
Qed.

Lemma findScenario_first (n : string) (before after : list Scenario)
  (s : Scenario) :
  Forall (fun x => sc_name x <> n) before -> sc_name s = n ->
  findScenario n (before ++ s :: after) = Some s.
Proof.
  unfold findScenario. intros Hb Hs.
  induction Hb as [|x before Hx Hb IH]; simpl.
  - by rewrite Hs, eqb_refl.
  - apply eqb_neq in Hx. by rewrite Hx.
Qed.

(** X5.  resolveScenario returns one of the scenarios of the resource
    whenever the resource has any; the built-in fallback is returned for
    a resource without scenarios and only then; and of several scenarios
    with the requested name the first declared one is returned. *)
Theorem resolveScenario_from_resource (r : Resource)
  (scenarioName : option string) :
  (res_scenarios r <> [] ->
     resolveScenario r scenarioName ∈ res_scenarios r) /\
  (res_scenarios r = [] -> resolveScenario r scenarioName = fallbackScenario) /\
  (forall (n : string) (before after : list Scenario) (s : Scenario),
     scenarioName = Some n -> n <> EmptyString ->
     res_scenarios r = before ++ s :: after ->
     Forall (fun x => sc_name x <> n) before -> sc_name s = n ->
     resolveScenario r scenarioName = s).
Proof.
  split; [|split].
  - intros Hne. unfold resolveScenario.
    assert (Hd : match findScenario "default" (res_scenarios r) with
                 | Some d => d
                 | None => match res_scenarios r with
                           | first :: _ => first
                           | [] => fallbackScenario
                           end
                 end ∈ res_scenarios r).
    { destruct (findScenario "default" (res_scenarios r)) as [d|] eqn:E.
      - by apply findScenario_elem in E.
      - destruct (res_scenarios r); [done | left]. }
    destruct (noName scenarioName); [exact Hd|].
    destruct (findScenario (default EmptyString scenarioName)
                (res_scenarios r)) as [s|] eqn:E; [|exact Hd].
    by apply findScenario_elem in E.
  - intros He. unfold resolveScenario. rewrite He. simpl.
    by destruct (noName scenarioName).
  - intros n before after s -> Hn Hl Hb Hs.
    unfold resolveScenario, noName. apply is_empty_false in Hn.
    rewrite Hn, Hl. simpl. by rewrite findScenario_first.
Qed.

Lemma resolveScenario_from_resource_witness :
  resolveScenario Fixtures.testResource (Some "ghost")
    ∈ res_scenarios Fixtures.testResource /\
  resolveScenario Fixtures.testResource (Some "active")
    = Fixtures.scenarioNamed "active" 200.
Proof.
  destruct (resolveScenario_from_resource Fixtures.testResource
              (Some "ghost")) as (H1 & _ & _).
  destruct (resolveScenario_from_resource Fixtures.testResource
              (Some "active")) as (_ & _ & H3).
  split; [apply H1; discriminate|].
  apply (H3 "active" [Fixtures.scenarioNamed "default" 200]
           [Fixtures.scenarioNamed "header" 200]
           (Fixtures.scenarioNamed "active" 200)); try done.
  repeat constructor. discriminate.
Defined.

End RoutingProps.

Module ConnectProps.

Import Chars Matcher Engine Connect Fixtures EngineFixtures ConnectFixtures StrFacts.

Section WithPlatform.

Variable urlHostname : string -> option string.
Variable issue :
  CertCache.CertificateData -> list string -> option CertCache.CertificateData.



Lemma splitOn_single (sep : ascii) (a : string) :
  without sep a -> splitOn sep a = [a].
Proof.
  unfold without. induction a as [|c a IH]; [done|]. simpl.
  intros [Hc Ha]%andb_true_iff. apply negb_true_iff in Hc.
  by rewrite Hc, IH.
Qed.

Lemma splitOn_app (sep : ascii) (a b : string) :
  without sep a ->
  splitOn sep (a +:+ String sep b) = a :: splitOn sep b.
Proof.
  unfold without. induction a as [|c a IH].
  - intros _. rewrite app_nil. simpl. by rewrite Ascii.eqb_refl.
  - simpl. intros [Hc Ha]%andb_true_iff. apply negb_true_iff in Hc.
    rewrite ?app_cons. simpl. by rewrite Hc, IH.
Qed.

(** X8.  handleConnect reads the target as the second space-separated
    part of the CONNECT line, the host as the text of the target before
    its first colon and the port as the text after it, 443 when the
    target has no port or an empty one; a line without a target is
    answered 400.  The host is intercepted exactly when shouldIntercept
    accepts it, and only then is the certificate cache asked, for that
    host: a blind tunnel and a bad line leave the cache as it is. *)
Theorem connect_line_decision (reg : Registry) (certCache : CertCache.t)
  (verb host port version : string) :
  without " " verb -> without " " host -> without ":" host ->
  without " " port -> without ":" port -> host <> EmptyString ->
  let decide (portText : string) :=
    if shouldIntercept urlHostname reg host then
      (Mitm host (CertCache.getCert issue certCache host).2,
       (CertCache.getCert issue certCache host).1)
    else (BlindTunnel host portText, certCache) in
  handleConnect urlHostname issue reg certCache
    (verb +:+ " " +:+ host +:+ ":" +:+ port +:+ " " +:+ version)
    = decide (if Str.is_empty port then "443" else port) /\
  handleConnect urlHostname issue reg certCache
    (verb +:+ " " +:+ host +:+ " " +:+ version) = decide "443" /\
  handleConnect urlHostname issue reg certCache verb
    = (BadConnect, certCache) /\
  handleConnect urlHostname issue reg certCache (verb +:+ "  " +:+ version)
    = (BadConnect, certCache).
Proof.
  intros Hv Hhs Hhc Hps Hpc Hne decide.
  assert (Hhost : Str.is_empty host = false) by by apply is_empty_false.
  assert (Hfin : forall target portStr,
    Str.is_empty target = false ->
    splitOn ":" target !! 0%nat = Some host ->
    splitOn ":" target !! 1%nat = portStr ->
    forall rest,
    (splitOn " " (verb +:+ " " +:+ rest)) !! 1%nat = Some target ->
    handleConnect urlHostname issue reg certCache (verb +:+ " " +:+ rest)
      = decide (if truthyString portStr then default EmptyString portStr
                else "443")).
  { intros target portStr Ht H0 H1 rest Hparts.
    unfold handleConnect. cbv zeta. rewrite Hparts, Ht, H0, H1. simpl.
    subst decide. cbv beta.
    destruct (shouldIntercept urlHostname reg host); simpl; [|done].
    by destruct (CertCache.getCert issue certCache host). }
  split; [|split; [|split]].
  - rewrite (Hfin (host +:+ ":" +:+ port) (Some port)).
    + unfold truthyString. simpl. by destruct (Str.is_empty port).
    + destruct host; [done | by rewrite app_cons].
    + change (host +:+ ":" +:+ port) with (host +:+ String ":" port).
      by rewrite splitOn_app.
    + change (host +:+ ":" +:+ port) with (host +:+ String ":" port).
      rewrite splitOn_app by done. simpl. by rewrite splitOn_single.
    + change (verb +:+ " " +:+ host +:+ ":" +:+ port +:+ " " +:+ version)
        with (verb +:+ String " " (host +:+ ":" +:+ port +:+ " " +:+ version)).
      rewrite splitOn_app by done. simpl.
      replace (host +:+ ":" +:+ port +:+ " " +:+ version)
        with ((host +:+ ":" +:+ port) +:+ String " " version)
        by (by rewrite !app_assoc).
      rewrite splitOn_app; [done|].
      unfold without in *. clear -Hhs Hps.
      induction host as [|c host IH]; simpl in *.
      * by rewrite app_nil.
      * apply andb_true_iff in Hhs as [-> Hhs]. rewrite app_cons. simpl.
        by apply IH.
  - rewrite (Hfin host None); try done.
    + by rewrite splitOn_single.
    + by rewrite splitOn_single.
    + change (verb +:+ " " +:+ host +:+ " " +:+ version)
        with (verb +:+ String " " (host +:+ String " " version)).
      rewrite splitOn_app by done. simpl. by rewrite splitOn_app.
  - unfold handleConnect. cbv zeta. by rewrite splitOn_single.
  - unfold handleConnect. cbv zeta.
    change (verb +:+ "  " +:+ version)
      with (verb +:+ String " " (EmptyString +:+ String " " version)).
    rewrite splitOn_app by done. done.
Qed.

(** X9.  Whenever a handler answers with a mock, the mock is the built
    response of the scenario resolved for the first matching resource,
    and the answer is recorded as chosen by the header exactly when the
    request carries a non-empty scenario header: also when that header
    names no scenario of the resource and the default one is served. *)
Theorem mock_answer_shape (reg : Registry) (req : Request) (host : string)
  (rc : ResponseConfig) (fromHeader : bool) :
  mockRequestHandler reg req = Mock rc fromHeader \/
  resolveProxyRequest urlHostname reg req host = Mock rc fromHeader ->
  exists (project : Project) (m : MatchResult),
    getActiveProject reg = Some project /\
    matchRequest (req_method req) (req_path req)
      (listResources reg (pr_id project)) = Some m /\
    rc = buildResponse
           (resolveScenario (resource m)
              (Some (default (pr_activeScenario project) (scenarioHeader req))))
           (params m) /\
    fromHeader = truthyString (scenarioHeader req).
Proof.
  assert (Hh : forall project rc0,
    handleRequest (req_method req) (req_path req)
      (listResources reg (pr_id project)) (pr_activeScenario project)
      (scenarioHeader req) = Some rc0 ->
    exists m, matchRequest (req_method req) (req_path req)
                (listResources reg (pr_id project)) = Some m /\
      rc0 = buildResponse
              (resolveScenario (resource m)
                 (Some (default (pr_activeScenario project)
                          (scenarioHeader req)))) (params m)).
  { intros project rc0. unfold handleRequest.
    destruct (matchRequest _ _ _) as [m|]; [|done].
    intros [= <-]. exists m. split; [done|].
    by destruct (scenarioHeader req). }
  intros [H|H].
  - unfold mockRequestHandler in H.
    destruct (getActiveProject reg) as [project|]; [|done].
    destruct (handleRequest _ _ _ _ _) as [rc0|] eqn:E.
    + unfold answerMatched in H. simpl in H. injection H as <- <-.
      destruct (Hh project rc0 E) as (m & Hm & ->). by exists project, m.
    + by destruct (canProxy project).
  - unfold resolveProxyRequest in H.
    destruct (getActiveProject reg) as [project|]; [|done].
    destruct (negb (truthyString (pr_baseUrl project))); [done|].
    destruct (urlHostname _) as [ph|]; [|done].
    destruct (negb (Str.eqb ph host)); [done|].
    destruct (handleRequest _ _ _ _ _) as [rc0|] eqn:E; [|done].
    unfold proxyAnswerMatched in H. simpl in H. injection H as <- <-.
    destruct (Hh project rc0 E) as (m & Hm & ->). by exists project, m.
Qed.

End WithPlatform.


Lemma mock_answer_shape_witness :
  exists (project : Project) (m : MatchResult),
    getActiveProject (exampleRegistry None) = Some project /\
    matchRequest (req_method getOrderGhost) (req_path getOrderGhost)
      (listResources (exampleRegistry None) (pr_id project)) = Some m /\
    buildResponse (scenarioNamed "default" 200) {[ "id" := "42" ]}
      = buildResponse
          (resolveScenario (resource m)
             (Some (default (pr_activeScenario project)
                      (scenarioHeader getOrderGhost))))
          (params m) /\
    true = truthyString (scenarioHeader getOrderGhost).
Proof.
  apply (mock_answer_shape exampleHostname (exampleRegistry None)
           getOrderGhost "api.example.com").
  left. vm_compute. reflexivity.
Defined.

Lemma connect_line_decision_witness :
  handleConnect exampleHostname CacheFixtures.exampleIssuer
    (exampleRegistry None) (CertCache.new (CacheFixtures.exampleOptions 100))
    "CONNECT api.example.com:443 HTTP/1.1"
  = (Mitm "api.example.com"
       (Some {| CertCache.cert := "cert:api.example.com";
                CertCache.privateKey := "key:api.example.com" |}),
     (CertCache.getCert CacheFixtures.exampleIssuer
        (CertCache.new (CacheFixtures.exampleOptions 100))
        "api.example.com").1) /\
  handleConnect exampleHostname CacheFixtures.exampleIssuer
    (exampleRegistry None) (CertCache.new (CacheFixtures.exampleOptions 100))
    "CONNECT api.example.com HTTP/1.1"
  = (Mitm "api.example.com"
       (Some {| CertCache.cert := "cert:api.example.com";
                CertCache.privateKey := "key:api.example.com" |}),
     (CertCache.getCert CacheFixtures.exampleIssuer
        (CertCache.new (CacheFixtures.exampleOptions 100))
        "api.example.com").1) /\
  handleConnect exampleHostname CacheFixtures.exampleIssuer
    (exampleRegistry None) (CertCache.new (CacheFixtures.exampleOptions 100))
    "CONNECT"
  = (BadConnect, CertCache.new (CacheFixtures.exampleOptions 100)) /\
  handleConnect exampleHostname CacheFixtures.exampleIssuer
    (exampleRegistry None) (CertCache.new (CacheFixtures.exampleOptions 100))
    ("CONNECT" +:+ "  " +:+ "HTTP/1.1")
  = (BadConnect, CertCache.new (CacheFixtures.exampleOptions 100)).
Proof.
  apply (connect_line_decision exampleHostname CacheFixtures.exampleIssuer
           (exampleRegistry None)
           (CertCache.new (CacheFixtures.exampleOptions 100))
           "CONNECT" "api.example.com" "443" "HTTP/1.1");
    first [reflexivity | discriminate].
Defined.

End ConnectProps.

Module CacheProps.

Import CertCache CacheCounting CacheFixtures StrFacts CertCacheProps.

Lemma map_get_delete (k k0 : string) (m : CertMap) :
  map_get k (map_delete k0 m) = if Str.eqb k k0 then None else map_get k m.
Proof.
  unfold map_get, map_delete.
  induction m as [|[k' v] m IH]; simpl.
  - by destruct (Str.eqb k k0).
  - destruct (Str.eqb k' k0) eqn:E0; simpl.
    + apply eqb_eq in E0 as ->. rewrite IH.
      destruct (Str.eqb k k0) eqn:E; [done|].
      apply eqb_neq in E.
      assert (Str.eqb k0 k = false) as -> by (apply eqb_neq; congruence).
      done.
    + destruct (Str.eqb k' k) eqn:E; simpl.
      * apply eqb_eq in E as ->. by rewrite E0.
      * exact IH.
Qed.

Lemma map_get_set (k k0 : string) (v : CertificateData) (m : CertMap) :
  map_get k (map_set k0 v m) = if Str.eqb k k0 then Some v else map_get k m.
Proof.
  unfold map_get.
  induction m as [|[k' v'] m IH]; simpl.
  - destruct (Str.eqb k k0) eqn:E.
    + apply eqb_eq in E as ->. by rewrite eqb_refl.
    + apply eqb_neq in E.
      assert (Str.eqb k0 k = false) as -> by (apply eqb_neq; congruence).
      done.
  - destruct (Str.eqb k' k0) eqn:E0; simpl.
    + apply eqb_eq in E0 as ->.
      destruct (Str.eqb k0 k) eqn:E; simpl.
      * apply eqb_eq in E as ->. by rewrite eqb_refl.
      * apply eqb_neq in E.
        assert (Str.eqb k k0 = false) as -> by (apply eqb_neq; congruence).
        done.
    + destruct (Str.eqb k' k) eqn:E; simpl.
      * apply eqb_eq in E as ->. by rewrite E0.
      * exact IH.
Qed.

Lemma map_set_new (k : string) (v : CertificateData) (m : CertMap) :
  k ∉ map_keys m -> map_set k v m = m ++ [(k, v)].
Proof.
  unfold map_keys. induction m as [|[k' v'] m IH]; simpl; [done|].
  intros [Hne Hni]%not_elem_of_cons.
  assert (Str.eqb k' k = false) as -> by (apply eqb_neq; congruence).
  by rewrite IH.
Qed.

Lemma map_delete_absent (k : string) (m : CertMap) :
  k ∉ map_keys m -> map_delete k m = m.
Proof.
  unfold map_keys, map_delete. induction m as [|[k' v'] m IH]; simpl; [done|].
  intros [Hne Hni]%not_elem_of_cons.
  assert (Str.eqb k' k = false) as -> by (apply eqb_neq; congruence).
  simpl. by rewrite IH.
Qed.

Lemma map_delete_snoc (k : string) (v : CertificateData) (m : CertMap) :
  k ∉ map_keys m -> map_delete k (m ++ [(k, v)]) = m.
Proof.
  intros Hk. unfold map_delete. rewrite List.filter_app. simpl.
  rewrite eqb_refl. simpl. rewrite app_nil_r. by apply map_delete_absent.
Qed.

Lemma map_get_snoc (k : string) (v : CertificateData) (m : CertMap) :
  k ∉ map_keys m -> map_get k (m ++ [(k, v)]) = Some v.
Proof.
  intros Hk. rewrite <- (map_set_new k v m Hk), map_get_set.
  by rewrite eqb_refl.
Qed.

Lemma map_delete_keys_absent (k : string) (m : CertMap) :
  k ∉ map_keys (map_delete k m).
Proof. rewrite map_keys_delete, elem_of_filter_neq. tauto. Qed.

Lemma length_map_delete (k : string) (m : CertMap) :
  (length (map_delete k m) <= length m)%nat.
Proof. unfold map_delete. apply List.filter_length_le. Qed.

Lemma length_map_delete_present (k : string) (m : CertMap)
  (v : CertificateData) :
  map_get k m = Some v -> (S (length (map_delete k m)) <= length m)%nat.
Proof.
  unfold map_get, map_delete. induction m as [|[k' v'] m IH]; simpl; [done|].
  destruct (Str.eqb k' k) eqn:E; simpl.
  - intros _. pose proof (List.filter_length_le
      (fun e : string * CertificateData => negb (Str.eqb e.1 k)) m). lia.
  - intros H. apply IH in H. lia.
Qed.

Section WithIssuer.

Variable issue : CertificateData -> list string -> option CertificateData.

Lemma evictOldest_get (k : string) (m : CertMap) (v : CertificateData) :
  map_get k (evictOldest m) = Some v -> map_get k m = Some v.
Proof.
  unfold evictOldest.
  destruct (map_keys m) as [|k0 ks]; [done|].
  destruct (Str.is_empty k0); [done|].
  rewrite map_get_delete. by destruct (Str.eqb k k0).
Qed.

Lemma run_caData (c : t) (ops : list Call) :
  caData (run issue c ops) = caData c.
Proof.
  revert c; induction ops as [|op ops IH]; intros c; [done|].
  unfold run in *; simpl. rewrite IH.
  destruct op; simpl; [apply getCert_caData | done].
Qed.

(** A call that returns a certificate leaves its host in the last place
    of the map. *)
Lemma getCert_last (c : t) (d : string) (crt : CertificateData) :
  (getCert issue c d).2 = Some crt ->
  exists pre : CertMap,
    cache (getCert issue c d).1 = pre ++ [(d, crt)] /\ d ∉ map_keys pre.
Proof.
  unfold getCert.
  destruct (map_get d (cache c)) as [cached|] eqn:Hd; simpl.
  - intros [= ->]. exists (map_delete d (cache c)).
    pose proof (map_delete_keys_absent d (cache c)) as Hn.
    split; [by apply map_set_new | done].
  - set (cache1 := if map_size (cache c) >=? maxSize c
                   then evictOldest (cache c) else cache c).
    assert (Hn : d ∉ map_keys cache1).
    { apply (map_get_None issue).
      destruct (map_get d cache1) as [v|] eqn:Hv; [|done].
      subst cache1. destruct (_ >=? _); [|congruence].
      apply evictOldest_get in Hv. congruence. }
    destruct (issue (caData c) [d]) as [crt'|]; simpl; [|done].
    intros [= ->]. exists cache1. split; [by apply map_set_new | done].
Qed.

(** X11.  Asking again for the host of a call that just returned a
    certificate is a hit, whatever the bound of the cache: the same
    certificate is returned, the issuer is not called (the miss counter
    stays, the hit counter grows by one) and the entries of the cache and
    their order do not change. *)
Theorem repeated_request_is_hit (c : t) (d : string)
  (crt : CertificateData) :
  (getCert issue c d).2 = Some crt ->
  getCert issue (getCert issue c d).1 d =
    ({| cache := cache (getCert issue c d).1;
        maxSize := maxSize c; caData := caData c;
        hits := hits (getCert issue c d).1 + 1;
        misses := misses (getCert issue c d).1 |}, Some crt).
Proof.
  intros Hr. destruct (getCert_last c d crt Hr) as (pre & Hc & Hn).
  pose proof (getCert_maxSize issue c d) as Hm.
  pose proof (getCert_caData issue c d) as Ha.
  destruct (getCert issue c d) as [c1 r]. simpl in *.
  unfold getCert. rewrite Hc, map_get_snoc by done.
  rewrite map_delete_snoc, map_set_new by done.
  by rewrite Hm, Ha.
Qed.

(** The counters of a cache count the calls. *)
Lemma call_counters (c : t) (op : Call) :
  0 <= hits c -> 0 <= misses c -> map_size (cache c) <= misses c ->
  0 <= hits (call issue c op) /\ 0 <= misses (call issue c op) /\
  map_size (cache (call issue c op)) <= misses (call issue c op) /\
  hits (call issue c op) + misses (call issue c op) =
    match op with
    | GetCert _ => hits c + misses c + 1
    | Clear => 0
    end.
Proof.
  intros Hh Hm Hs. destruct op as [d|]; simpl; [|unfold map_size; simpl; lia].
  unfold getCert, map_size in *.
  destruct (map_get d (cache c)) as [cached|] eqn:Hd; simpl.
  - rewrite map_set_new by apply map_delete_keys_absent.
    rewrite List.length_app. simpl.
    pose proof (length_map_delete_present d (cache c) cached Hd). lia.
  - set (cache1 := if Z.of_nat (length (cache c)) >=? maxSize c
                   then evictOldest (cache c) else cache c).
    assert (Hl : (length cache1 <= length (cache c))%nat).
    { subst cache1. destruct (_ >=? _); [|lia]. unfold evictOldest.
      destruct (map_keys (cache c)) as [|k ks]; [lia|].
      destruct (Str.is_empty k); [lia | apply length_map_delete]. }
    destruct (issue (caData c) [d]) as [crt|]; cbn [cache hits misses fst].
    + assert (Hset : (length (map_set d crt cache1) <= S (length cache1))%nat).
      { clear. induction cache1 as [|[k v] m IH]; simpl; [lia|].
        destruct (Str.eqb k d); simpl; lia. }
      lia.
    + lia.
Qed.

(** X12.  On a cache created by the constructor, after any sequence of
    calls, the hit and miss counters are not negative and add up to the
    number of [getCert] calls made since the last [clear] (since the
    creation when there was none), and the cache never holds more entries
    than misses were counted. *)
Theorem counters_count_calls (options : CertCacheOptions)
  (ops : list Call) :
  let c := run issue (new options) ops in
  0 <= hits c /\ 0 <= misses c /\
  hits c + misses c = Z.of_nat (callsSinceClear ops) /\
  map_size (cache c) <= misses c /\
  st_hits (stats c) = hits c /\ st_misses (stats c) = misses c /\
  st_size (stats c) = map_size (cache c) /\
  st_maxSize (stats c) = opt_maxSize options.
Proof.
  cbv zeta.
  assert (H : 0 <= hits (run issue (new options) ops) /\
              0 <= misses (run issue (new options) ops) /\
              map_size (cache (run issue (new options) ops))
                <= misses (run issue (new options) ops) /\
              hits (run issue (new options) ops)
                + misses (run issue (new options) ops)
                = Z.of_nat (callsSinceClear ops)).
  { induction ops as [|op ops IH] using rev_ind.
    - unfold map_size, run, new, callsSinceClear; simpl. lia.
    - destruct IH as (Hh & Hm & Hs & Hc).
      unfold run, callsSinceClear in *. rewrite !foldl_app. simpl.
      destruct (call_counters _ op Hh Hm Hs) as (H1 & H2 & H3 & H4).
      repeat split; try done. rewrite H4.
      destruct op; [rewrite Hc; lia | done]. }
  destruct H as (Hh & Hm & Hs & Hc). simpl. repeat split; try done.
  by rewrite run_maxSize.
Qed.

End WithIssuer.

Lemma repeated_request_is_hit_witness :
  getCert exampleIssuer
    (getCert exampleIssuer (new (exampleOptions 0)) "a.example").1
    "a.example" =
    ({| cache :=
          cache (getCert exampleIssuer (new (exampleOptions 0))
                   "a.example").1;
        maxSize := maxSize (new (exampleOptions 0));
        caData := caData (new (exampleOptions 0));
        hits :=
          hits (getCert exampleIssuer (new (exampleOptions 0))
                  "a.example").1 + 1;
        misses :=
          misses (getCert exampleIssuer (new (exampleOptions 0))
                    "a.example").1 |},
     Some {| cert := "cert:a.example"; privateKey := "key:a.example" |}).
Proof.
  apply (repeated_request_is_hit exampleIssuer (new (exampleOptions 0))
           "a.example").
  reflexivity.
Defined.

End CacheProps.

Module CertStoreProps.

Import Certs CertStore CertsFixtures StoreFixtures StrFacts.

Lemma andThen_returns {FS : Type} (a b : FS -> FS * option unit)
  (fs fs2 : FS) (u : unit) :
  (a >>; b) fs = (fs2, Some u) ->
  exists fs1, a fs = (fs1, Some tt) /\ b fs1 = (fs2, Some tt).
Proof.
  unfold andThen. destruct (a fs) as [fs1 [[]|]] eqn:Ha; [|done].
  destruct u. intros Hb. by exists fs1.
Qed.

Lemma DAY_MS_eq : DAY_MS = 86400000.
Proof. reflexivity. Qed.

Section WithForge.

Variable certificateFromPem : string -> option Certificate.

Lemma validate_keeps (now : Z) (pem : string) :
  shouldRegenerate (validateCertificate certificateFromPem now pem) = false <->
  exists c, certificateFromPem pem = Some c /\
            31 * DAY_MS <= notAfter c - now.
Proof.
  unfold validateCertificate, REGENERATE_THRESHOLD_DAYS.
  rewrite DAY_MS_eq.
  destruct (certificateFromPem pem) as [c|]; cbn [shouldRegenerate].
  - rewrite Z.leb_gt. split.
    + intros H. exists c. split; [done|].
      pose proof (Z.mul_div_le (notAfter c - now) 86400000). lia.
    + intros (c' & [= <-] & H).
      assert (31 <= (notAfter c - now) / 86400000); [|lia].
      apply Z.div_le_lower_bound; lia.
  - split; [done | by intros (? & ? & _)].
Qed.

(** X13.  A certificate is kept exactly when its PEM text decodes and 31
    full days or more remain before its expiry date: with less, and with a
    text that does not decode, it is to be regenerated.  [isValid] only
    tells that the text decodes: it is true of an expired certificate; and
    every certificate that isCertificateExpired reports is to be
    regenerated. *)
Theorem regeneration_threshold (now : Z) (pem : string) :
  (shouldRegenerate (validateCertificate certificateFromPem now pem) = false
   <-> exists c, certificateFromPem pem = Some c /\
                 31 * DAY_MS <= notAfter c - now) /\
  (isValid (validateCertificate certificateFromPem now pem) = true
   <-> is_Some (certificateFromPem pem)) /\
  (isValid (validateCertificate certificateFromPem now pem) = true
   <-> is_Some (getCertificateExpiry certificateFromPem pem)) /\
  (isCertificateExpired certificateFromPem now pem = true ->
   shouldRegenerate (validateCertificate certificateFromPem now pem) = true).
Proof.
  split; [apply validate_keeps|].
  unfold validateCertificate, isCertificateExpired, getCertificateExpiry,
    REGENERATE_THRESHOLD_DAYS.
  rewrite DAY_MS_eq.
  destruct (certificateFromPem pem) as [c|]; cbn [shouldRegenerate isValid].
  - repeat split; try done; try (by eexists).
    rewrite Z.ltb_lt, Z.leb_le. intros H.
    assert ((notAfter c - now) / 86400000 < 0); [|lia].
    apply Z.div_lt_upper_bound; lia.
  - repeat split; try done; by intros [? ?].
Qed.

Lemma regenerate_false (now1 now2 : Z) (certs : CertificatePair) :
  shouldRegenerateCerts certificateFromPem now1 now2 certs = false <->
  (exists c, certificateFromPem (cert (ca certs)) = Some c /\
             31 * DAY_MS <= notAfter c - now1) /\
  (exists c, certificateFromPem (cert (server certs)) = Some c /\
             31 * DAY_MS <= notAfter c - now2).
Proof.
  unfold shouldRegenerateCerts. cbv zeta.
  rewrite orb_false_iff, !validate_keeps. done.
Qed.

End WithForge.

Section WithPlatform.

Context {FS : Type}.
Variable os : Platform FS.
Variable certificateFromPem : string -> option Certificate.
Variable privateKeyFromPem : string -> option string.
Variable certificateToPem : Certificate -> string.
Variable privateKeyToPem : string -> string.
Variable generateSubjectKeyIdentifier : Certificate -> string.
Variable addYears : Z -> Z -> Z.

Lemma save_returns (certs : CertificatePair) (fs fs1 : FS) :
  saveCertificates os certs fs = (fs1, Some tt) ->
  exists fsA fsB fsC fsD : FS,
    writeFileSync os (CA_CERT_PATH os) (cert (ca certs)) MODE_CERT fsA
      = (fsB, Some tt) /\
    writeFileSync os (CA_KEY_PATH os) (privateKey (ca certs)) MODE_KEY fsB
      = (fsC, Some tt) /\
    writeFileSync os (SERVER_CERT_PATH os) (cert (server certs)) MODE_CERT fsC
      = (fsD, Some tt) /\
    writeFileSync os (SERVER_KEY_PATH os) (privateKey (server certs))
      MODE_KEY fsD = (fs1, Some tt).
Proof.
  intros Hs. unfold saveCertificates in Hs.
  apply andThen_returns in Hs as (fsA & _ & Hs).
  apply andThen_returns in Hs as (fsB & HA & Hs).
  apply andThen_returns in Hs as (fsC & HB & Hs).
  apply andThen_returns in Hs as (fsD & HC & HD).
  by exists fsA, fsB, fsC, fsD.
Qed.

Lemma writes_then_load (certs : CertificatePair) (fsA fsB fsC fsD fs1 : FS) :
  lawful os ->
  writeFileSync os (CA_CERT_PATH os) (cert (ca certs)) MODE_CERT fsA
    = (fsB, Some tt) ->
  writeFileSync os (CA_KEY_PATH os) (privateKey (ca certs)) MODE_KEY fsB
    = (fsC, Some tt) ->
  writeFileSync os (SERVER_CERT_PATH os) (cert (server certs)) MODE_CERT fsC
    = (fsD, Some tt) ->
  writeFileSync os (SERVER_KEY_PATH os) (privateKey (server certs))
    MODE_KEY fsD = (fs1, Some tt) ->
  loadCertificates os fs1 = Some certs.
Proof.
  intros [He Hr Ho Hd] HA HB HC HD.
  apply NoDup_cons in Hd as [N1 Hd]. apply NoDup_cons in Hd as [N2 Hd].
  apply NoDup_cons in Hd as [N3 _].
  apply not_elem_of_cons in N1 as [N12 N1].
  apply not_elem_of_cons in N1 as [N13 N1].
  apply not_elem_of_cons in N1 as [N14 _].
  apply not_elem_of_cons in N2 as [N23 N2].
  apply not_elem_of_cons in N2 as [N24 _].
  apply not_elem_of_cons in N3 as [N34 _].
  unfold loadCertificates.
  pose proof (He _ _ _ _ _ HD) as E4. pose proof (Hr _ _ _ _ _ HD) as R4.
  destruct (Ho _ _ _ _ _ (SERVER_CERT_PATH os) HD N34) as [E3 R3].
  rewrite (He _ _ _ _ _ HC) in E3. rewrite (Hr _ _ _ _ _ HC) in R3.
  destruct (Ho _ _ _ _ _ (CA_KEY_PATH os) HD N24) as [E2 R2].
  destruct (Ho _ _ _ _ _ (CA_KEY_PATH os) HC N23) as [E2' R2'].
  rewrite E2', (He _ _ _ _ _ HB) in E2. rewrite R2', (Hr _ _ _ _ _ HB) in R2.
  destruct (Ho _ _ _ _ _ (CA_CERT_PATH os) HD N14) as [E1 R1].
  destruct (Ho _ _ _ _ _ (CA_CERT_PATH os) HC N13) as [E1' R1'].
  destruct (Ho _ _ _ _ _ (CA_CERT_PATH os) HB N12) as [E1'' R1''].
  rewrite E1', E1'', (He _ _ _ _ _ HA) in E1.
  rewrite R1', R1'', (Hr _ _ _ _ _ HA) in R1.
  rewrite E1, E2, E3, E4, R1, R2, R3, R4. simpl.
  by destruct certs as [[] []].
Qed.

(** X14.  What saveCertificates writes, loadCertificates reads back: when
    the four writes return, on a file system that keeps what is written,
    loading gives the saved pair, each of the four texts in its own
    place, whatever the disk held before. *)
Theorem saved_certificates_load_back (certs : CertificatePair)
  (fs fs1 : FS) :
  lawful os ->
  saveCertificates os certs fs = (fs1, Some tt) ->
  loadCertificates os fs1 = Some certs.
Proof.
  intros Hl Hs.
  destruct (save_returns _ _ _ Hs)
    as (fsA & fsB & fsC & fsD & HA & HB & HC & HD).
  exact (writes_then_load certs fsA fsB fsC fsD fs1 Hl HA HB HC HD).
Qed.

Lemma ensure_cases (w : Draws) (domains : list string) (fs fs1 : FS)
  (certs : CertificatePair) :
  ensureCertificates os certificateFromPem privateKeyFromPem
    certificateToPem privateKeyToPem generateSubjectKeyIdentifier addYears
    w domains fs = (fs1, Some certs) ->
  (fs1 = fs /\ loadCertificates os fs = Some certs /\
   shouldRegenerateCerts certificateFromPem (validateCaAt w)
     (validateServerAt w) certs = false) \/
  (ca certs = generateCA certificateToPem privateKeyToPem addYears
                (caEntropy w) /\
   generateServerCert certificateFromPem privateKeyFromPem certificateToPem
     privateKeyToPem generateSubjectKeyIdentifier addYears (serverEntropy w)
     (ca certs) domains = Some (server certs) /\
   saveCertificates os certs fs = (fs1, Some tt) /\
   forall existing, loadCertificates os fs = Some existing ->
     shouldRegenerateCerts certificateFromPem (validateCaAt w)
       (validateServerAt w) existing = true).
Proof.
  unfold ensureCertificates. cbv zeta.
  set (gen := match generateServerCert _ _ _ _ _ _ _ _ _ with
              | Some s => _ | None => _ end).
  assert (Hgen : gen = (fs1, Some certs) ->
    ca certs = generateCA certificateToPem privateKeyToPem addYears
                 (caEntropy w) /\
    generateServerCert certificateFromPem privateKeyFromPem certificateToPem
      privateKeyToPem generateSubjectKeyIdentifier addYears (serverEntropy w)
      (ca certs) domains = Some (server certs) /\
    saveCertificates os certs fs = (fs1, Some tt)).
  { subst gen.
    destruct (generateServerCert _ _ _ _ _ _ _ _ _) as [s|] eqn:Hg; [|done].
    destruct (saveCertificates _ _ _) as [fs2 [[]|]] eqn:Hs; [|done].
    intros [= <- <-]. simpl. done. }
  destruct (loadCertificates os fs) as [ex|] eqn:Hl.
  - destruct (shouldRegenerateCerts _ _ _ ex) eqn:Hr; simpl.
    + intros H. right. destruct (Hgen H) as (? & ? & ?).
      repeat split; try done. by intros ? [= <-].
    + intros [= <- <-]. by left.
  - intros H. right. destruct (Hgen H) as (? & ? & ?).
    repeat split; done.
Qed.

(** X15.  Whatever ensureCertificates returns is what the disk holds
    afterwards.  The pair is either the one loaded from the disk, which is
    then left untouched and needs no regeneration, or a pair made by the
    two generators, the server certificate issued under the new CA, and
    written to the disk; a pair is generated only when none could be
    loaded or the loaded one is to be regenerated. *)
Theorem ensureCertificates_on_disk (w : Draws) (domains : list string)
  (fs fs1 : FS) (certs : CertificatePair) :
  lawful os ->
  ensureCertificates os certificateFromPem privateKeyFromPem
    certificateToPem privateKeyToPem generateSubjectKeyIdentifier addYears
    w domains fs = (fs1, Some certs) ->
  loadCertificates os fs1 = Some certs /\
  ((fs1 = fs /\ loadCertificates os fs = Some certs /\
    shouldRegenerateCerts certificateFromPem (validateCaAt w)
      (validateServerAt w) certs = false) \/
   (ca certs = generateCA certificateToPem privateKeyToPem addYears
                 (caEntropy w) /\
    generateServerCert certificateFromPem privateKeyFromPem certificateToPem
      privateKeyToPem generateSubjectKeyIdentifier addYears (serverEntropy w)
      (ca certs) domains = Some (server certs) /\
    forall existing, loadCertificates os fs = Some existing ->
      shouldRegenerateCerts certificateFromPem (validateCaAt w)
        (validateServerAt w) existing = true)).
Proof.
  intros Hl He. destruct (ensure_cases _ _ _ _ _ He) as
    [(-> & Hld & Hr) | (Hca & Hsv & Hs & Hex)].
  - split; [done|]. by left.
  - split; [|by right].
    destruct (save_returns _ _ _ Hs)
      as (fsA & fsB & fsC & fsD & HA & HB & HC & HD).
    exact (writes_then_load certs fsA fsB fsC fsD fs1 Hl HA HB HC HD).
Qed.

(** X16.  Certificates returned by ensureCertificates are returned again
    by every later call made while both decode and have 31 days or more
    left: the later call writes nothing and generates nothing, and the
    domains it is asked for play no part, so a list of domains that
    differs from the one the server certificate was issued for does not
    lead to a new certificate. *)
Theorem fresh_certificates_are_reused (w w2 : Draws)
  (domains domains2 : list string) (fs fs1 : FS) (certs : CertificatePair) :
  lawful os ->
  ensureCertificates os certificateFromPem privateKeyFromPem
    certificateToPem privateKeyToPem generateSubjectKeyIdentifier addYears
    w domains fs = (fs1, Some certs) ->
  (exists c, certificateFromPem (cert (ca certs)) = Some c /\
             31 * DAY_MS <= notAfter c - validateCaAt w2) ->
  (exists c, certificateFromPem (cert (server certs)) = Some c /\
             31 * DAY_MS <= notAfter c - validateServerAt w2) ->
  ensureCertificates os certificateFromPem privateKeyFromPem
    certificateToPem privateKeyToPem generateSubjectKeyIdentifier addYears
    w2 domains2 fs1 = (fs1, Some certs).
Proof.
  intros Hl He Hca Hsv.
  assert (Hld : loadCertificates os fs1 = Some certs).
  { destruct (ensure_cases _ _ _ _ _ He) as
      [(-> & Hld & _) | (_ & _ & Hs & _)]; [done|].
    destruct (save_returns _ _ _ Hs)
      as (fsA & fsB & fsC & fsD & HA & HB & HC & HD).
    exact (writes_then_load certs fsA fsB fsC fsD fs1 Hl HA HB HC HD). }
  unfold ensureCertificates. cbv zeta. rewrite Hld.
  assert (shouldRegenerateCerts certificateFromPem (validateCaAt w2)
            (validateServerAt w2) certs = false) as ->; [|done].
  by apply regenerate_false.
Qed.

End WithPlatform.

Lemma exampleOS_lawful : lawful exampleOS.
Proof.
  split.
  - intros fs fs1 p d m [= <-]. simpl.
    apply bool_decide_eq_true. rewrite lookup_insert_eq. by eexists.
  - intros fs fs1 p d m [= <-]. simpl. apply lookup_insert_eq.
  - intros fs fs1 p d m q [= <-] Hq. simpl.
    by rewrite lookup_insert_ne.
  - apply (bool_decide_unpack _). by vm_compute.
Qed.

Lemma saved_certificates_load_back_witness :
  loadCertificates exampleOS (saveCertificates exampleOS examplePair ∅).1
    = Some examplePair.
Proof.
  apply (saved_certificates_load_back exampleOS examplePair ∅).
  - exact exampleOS_lawful.
  - reflexivity.
Defined.

Lemma ensureCertificates_on_disk_witness :
  loadCertificates exampleOS (saveCertificates exampleOS examplePair ∅).1
    = Some examplePair /\
  (((saveCertificates exampleOS examplePair ∅).1 = ∅ /\
    loadCertificates exampleOS ∅ = Some examplePair /\
    shouldRegenerateCerts storeCertFromPem (validateCaAt firstDraws)
      (validateServerAt firstDraws) examplePair = false) \/
   (ca examplePair = generateCA exampleCertToPem exampleKeyToPem
                       exampleAddYears (caEntropy firstDraws) /\
    generateServerCert storeCertFromPem exampleKeyFromPem exampleCertToPem
      exampleKeyToPem exampleKeyId exampleAddYears (serverEntropy firstDraws)
      (ca examplePair) exampleDomains = Some (server examplePair) /\
    forall existing, loadCertificates exampleOS ∅ = Some existing ->
      shouldRegenerateCerts storeCertFromPem (validateCaAt firstDraws)
        (validateServerAt firstDraws) existing = true)).
Proof.
  apply (ensureCertificates_on_disk exampleOS storeCertFromPem
           exampleKeyFromPem exampleCertToPem exampleKeyToPem exampleKeyId
           exampleAddYears firstDraws exampleDomains ∅).
  - exact exampleOS_lawful.
  - reflexivity.
Defined.

Lemma fresh_certificates_are_reused_witness :
  ensureCertificates exampleOS storeCertFromPem exampleKeyFromPem
    exampleCertToPem exampleKeyToPem exampleKeyId exampleAddYears
    laterDraws ["other.example"]
    (saveCertificates exampleOS examplePair ∅).1
  = ((saveCertificates exampleOS examplePair ∅).1, Some examplePair).
Proof.
  apply (fresh_certificates_are_reused exampleOS storeCertFromPem
           exampleKeyFromPem exampleCertToPem exampleKeyToPem exampleKeyId
           exampleAddYears firstDraws laterDraws exampleDomains
           ["other.example"] ∅).
  - exact exampleOS_lawful.
  - reflexivity.
  - exists (caCertificate exampleAddYears exampleCaEntropy).
    split; [reflexivity | vm_compute; discriminate].
  - exists exampleServerCertificate.
    split; [reflexivity | vm_compute; discriminate].
Defined.

End CertStoreProps.

Module TunnelProps.

Import ProxyServer Tunnel FramingFixtures TunnelFixtures StrFacts
  ProxyServerProps.

Section WithURL.

Variable urlPathAndSearch : string -> option string.

Lemma onData_wait (buffer chunk : string) :
  (onData urlPathAndSearch buffer chunk).2 = Wait ->
  (onData urlPathAndSearch buffer chunk).1 = buffer +:+ chunk.
Proof.
  unfold onData. cbv zeta.
  destruct (Str.index_of terminator (buffer +:+ chunk)) as [headerEnd|];
    [|done].
  destruct (_ <? _)%N; [done|].
  by destruct (parseHttpRequest _).
Qed.

(** X17.  How the bytes of a request are cut into chunks does not matter:
    as long as the listener waits it holds exactly the bytes received so
    far, and the event that follows gives the action and the left-over
    bytes it would give had everything arrived in one chunk. *)
Theorem chunking_is_transparent (buffer : string) (chunks : list string)
  (chunk : string) :
  Forall (fun a => a = Wait) (deliver urlPathAndSearch buffer chunks).2 ->
  (deliver urlPathAndSearch buffer chunks).1 = buffer +:+ concat chunks /\
  onData urlPathAndSearch (deliver urlPathAndSearch buffer chunks).1 chunk
    = onData urlPathAndSearch buffer (concat chunks +:+ chunk).
Proof.
  revert buffer. induction chunks as [|c cs IH]; intros buffer; simpl.
  - intros _. by rewrite app_empty_r.
  - pose proof (onData_wait buffer c) as Hw.
    destruct (onData urlPathAndSearch buffer c) as [b1 a1]. simpl in Hw.
    specialize (IH b1).
    destruct (deliver urlPathAndSearch b1 cs) as [b2 as2]. simpl in *.
    intros Hall. apply Forall_cons in Hall as [-> Hall].
    assert (b1 = buffer +:+ c) as -> by (by apply Hw).
    destruct (IH Hall) as [-> Hd]. split.
    + by rewrite !app_assoc.
    + rewrite Hd. unfold onData. by rewrite !app_assoc.
Qed.

Lemma onData_frame (f rest : string) (headerEnd : nat) :
  Str.index_of terminator f = Some headerEnd ->
  String.length f
    = (headerEnd + 4 + N.to_nat (contentLengthOf (Str.take headerEnd f)))%nat ->
  onData urlPathAndSearch EmptyString (f +:+ rest) =
    (rest,
     match parseHttpRequest urlPathAndSearch f with
     | Some parsed => Dispatch parsed f
     | None => BadRequest
     end).
Proof.
  intros Hi Hl. unfold onData. cbv zeta. rewrite app_nil.
  rewrite (index_of_app _ _ rest _ Hi).
  pose proof (index_of_Some _ _ _ Hi) as [_ Hle].
  rewrite take_app_le by lia.
  assert (Ht : (N.of_nat headerEnd + 4
                + contentLengthOf (Str.take headerEnd f))%N
               = N.of_nat (String.length f)) by lia.
  rewrite Ht, Nat2N.id, length_app.
  destruct (N.ltb_spec (N.of_nat (String.length f + String.length rest))
              (N.of_nat (String.length f))); [lia|].
  rewrite take_app_length, drop_app_length.
  by destruct (parseHttpRequest urlPathAndSearch f).
Qed.

(** X18.  A complete request at the front of the received bytes is cut at
    its declared length whatever follows it, and one event handles one
    request: of two requests that arrive in the same chunk the first is
    handled and the second is kept, untouched, until another [data] event
    comes; that event handles the second request whatever it brings, an
    empty chunk included, and keeps what it brought. *)
Theorem one_request_per_event (first second : string) (end1 end2 : nat) :
  Str.index_of terminator first = Some end1 ->
  String.length first
    = (end1 + 4 + N.to_nat (contentLengthOf (Str.take end1 first)))%nat ->
  Str.index_of terminator second = Some end2 ->
  String.length second
    = (end2 + 4 + N.to_nat (contentLengthOf (Str.take end2 second)))%nat ->
  onData urlPathAndSearch EmptyString (first +:+ second) =
    (second,
     match parseHttpRequest urlPathAndSearch first with
     | Some parsed => Dispatch parsed first
     | None => BadRequest
     end) /\
  forall chunk : string,
    onData urlPathAndSearch second chunk =
      (chunk,
       match parseHttpRequest urlPathAndSearch second with
       | Some parsed => Dispatch parsed second
       | None => BadRequest
       end).
Proof.
  intros H1 L1 H2 L2. split; [by eapply onData_frame|].
  intros chunk. rewrite <- (onData_frame second chunk end2 H2 L2).
  unfold onData. by rewrite app_nil.
Qed.

End WithURL.

Lemma chunking_is_transparent_witness :
  (deliver examplePathAndSearch EmptyString
     ["GET /b HTTP/1.1"; CRLF +:+ "Accept: */*"]).1
    = EmptyString +:+ concat ["GET /b HTTP/1.1"; CRLF +:+ "Accept: */*"] /\
  onData examplePathAndSearch
    (deliver examplePathAndSearch EmptyString
       ["GET /b HTTP/1.1"; CRLF +:+ "Accept: */*"]).1
    (CRLF +:+ CRLF)
  = onData examplePathAndSearch EmptyString
      (concat ["GET /b HTTP/1.1"; CRLF +:+ "Accept: */*"] +:+ (CRLF +:+ CRLF)).
Proof.
  apply (chunking_is_transparent examplePathAndSearch EmptyString
           ["GET /b HTTP/1.1"; CRLF +:+ "Accept: */*"] (CRLF +:+ CRLF)).
  vm_compute. repeat constructor.
Defined.

Lemma one_request_per_event_witness :
  onData examplePathAndSearch EmptyString (firstRequest +:+ secondRequest) =
    (secondRequest,
     match parseHttpRequest examplePathAndSearch firstRequest with
     | Some parsed => Dispatch parsed firstRequest
     | None => BadRequest
     end) /\
  forall chunk : string,
    onData examplePathAndSearch secondRequest chunk =
      (chunk,
       match parseHttpRequest examplePathAndSearch secondRequest with
       | Some parsed => Dispatch parsed secondRequest
       | None => BadRequest
       end).
Proof.
  apply (one_request_per_event examplePathAndSearch firstRequest
           secondRequest 35 28);
    reflexivity.
Defined.

End TunnelProps.

Module ForwardingProps.

Import Matcher Forwarder ForwarderFixtures ForwardingFixtures StrFacts
  PathProps.

Lemma relayed_excluded (hs : list (string * string)) (k : string) :
  Str.toLowerCase k ∈ EXCLUDED_RESPONSE_HEADERS ->
  responseHeaders hs !! k = None.
Proof.
  intros Hk. unfold responseHeaders.
  induction hs as [|[k' v'] hs IH] using rev_ind; [done|].
  rewrite foldl_app. simpl. case_bool_decide as Hx; [done|].
  destruct (decide (k = k')) as [->|Hne]; [done|].
  by rewrite assign_other.
Qed.

Lemma relayed_proto (hs : list (string * string)) :
  responseHeaders hs !! "__proto__" = None.
Proof.
  unfold responseHeaders.
  induction hs as [|[k' v'] hs IH] using rev_ind; [done|].
  rewrite foldl_app. simpl. case_bool_decide as Hx; [done|].
  unfold assign. destruct (Str.eqb k' "__proto__") eqn:E; [done|].
  apply eqb_neq in E. by rewrite lookup_insert_ne.
Qed.

Lemma relayed_from_upstream (hs : list (string * string)) (k v : string) :
  responseHeaders hs !! k = Some v -> (k, v) ∈ hs.
Proof.
  unfold responseHeaders.
  induction hs as [|[k' v'] hs IH] using rev_ind; [done|].
  rewrite foldl_app. simpl. rewrite elem_of_app, list_elem_of_singleton.
  case_bool_decide as Hx; [by left; apply IH|].
  unfold assign. destruct (Str.eqb k' "__proto__"); [by left; apply IH|].
  destruct (decide (k' = k)) as [->|Hne].
  - rewrite lookup_insert_eq. intros [= ->]. by right.
  - rewrite lookup_insert_ne by done. by left; apply IH.
Qed.

Lemma relayed_present (hs : list (string * string)) (k v : string) :
  (k, v) ∈ hs -> Str.toLowerCase k ∉ EXCLUDED_RESPONSE_HEADERS ->
  k <> "__proto__" ->
  is_Some (responseHeaders hs !! k).
Proof.
  unfold responseHeaders. intros Hin Hk Hp.
  induction hs as [|[k' v'] hs IH] using rev_ind;
    [by apply elem_of_nil in Hin|].
  rewrite foldl_app. simpl.
  apply elem_of_app in Hin as [Hin|Hin].
  - specialize (IH Hin). case_bool_decide as Hx; [done|].
    destruct (decide (k = k')) as [<-|Hne].
    + rewrite assign_same by done. by eexists.
    + by rewrite assign_other.
  - apply list_elem_of_singleton in Hin as [= <- <-].
    rewrite bool_decide_eq_false_2 by done.
    rewrite assign_same by done. by eexists.
Qed.

Lemma json_excluded (k : string) :
  Str.toLowerCase k ∈ EXCLUDED_RESPONSE_HEADERS ->
  jsonContentType !! k = None.
Proof.
  intros Hk. unfold jsonContentType.
  destruct (decide (k = "content-type")) as [->|Hne].
  - exfalso. apply list_elem_of_In in Hk. cbv in Hk.
    intuition discriminate.
  - by rewrite lookup_singleton_ne.
Qed.

Section WithPlatform.

Variable URL_new : string -> string -> option string.

(** X19.  Every response the forwarder returns is flagged as proxied and
    carries none of the excluded response headers, in any letter case.
    It is the synthesized 504 or 502, with the JSON content type alone,
    or the answer of an upstream that came before the time limit: its
    status and body as they are, and its headers without the excluded
    ones, none added.  A header of the upstream that is named [__proto__]
    is lost as well: the assignment that stores the headers creates no
    property of that name. *)
Theorem forwarder_response_shape
  (fetch : string -> string -> gmap string string -> option string -> Upstream)
  (baseUrl : string) (req : ProxyIncomingRequest)
  (r : ProxyOutgoingResponse) :
  forwardRequest URL_new fetch baseUrl req = Returned r ->
  out_proxied r = true /\
  (forall k, Str.toLowerCase k ∈ EXCLUDED_RESPONSE_HEADERS ->
             out_headers r !! k = None) /\
  out_headers r !! "__proto__" = None /\
  ((out_statusCode r = 504 /\ out_headers r = jsonContentType /\
    exists m, out_body r = errorBody "Gateway Timeout" m) \/
   (out_statusCode r = 502 /\ out_headers r = jsonContentType /\
    exists m, out_body r = errorBody "Bad Gateway" m) \/
   (exists (url : string) (headers : gmap string string)
           (sent : option string) (t : Z) (hs : list (string * string))
           (body : string),
      fetch url (in_method req) headers sent
        = Responds t (out_statusCode r) hs body /\
      t < PROXY_TIMEOUT_MS /\
      out_body r = Bytes body /\
      (forall k v, out_headers r !! k = Some v -> (k, v) ∈ hs) /\
      (forall k v, (k, v) ∈ hs ->
         Str.toLowerCase k ∉ EXCLUDED_RESPONSE_HEADERS ->
         k <> "__proto__" ->
         is_Some (out_headers r !! k)))).
Proof.
  unfold forwardRequest.
  destruct (URL_new (in_path req) baseUrl) as [url|]; [|done].
  cbv zeta.
  set (headers := keepHeaders EXCLUDED_REQUEST_HEADERS (in_headers req)).
  set (sent := match in_body req with Some b => _ | None => None end).
  destruct (fetch url (in_method req) headers sent) as [t st hs b|t n m|]
    eqn:Hf; simpl.
  - destruct (Z.ltb_spec t PROXY_TIMEOUT_MS) as [Hlt|Hge]; simpl.
    + intros [= <-]. simpl. split; [done|].
      split; [intros k; apply relayed_excluded|].
      split; [apply relayed_proto|].
      right; right. exists url, headers, sent, t, hs, b.
      repeat split; try done.
      * intros k v. apply relayed_from_upstream.
      * intros k v. apply relayed_present.
    + intros [= <-]. simpl. split; [done|]. split; [apply json_excluded|].
      split; [done|]. left. repeat split. by eexists.
  - destruct (t <? PROXY_TIMEOUT_MS); simpl.
    + destruct (Str.eqb n "AbortError"); intros [= <-]; simpl;
        (split; [done|]); (split; [apply json_excluded|]); (split; [done|]).
      * left. repeat split. by eexists.
      * right; left. repeat split. by eexists.
    + intros [= <-]. simpl. split; [done|]. split; [apply json_excluded|].
      split; [done|]. left. repeat split. by eexists.
  - intros [= <-]. simpl. split; [done|]. split; [apply json_excluded|].
    split; [done|]. left. repeat split. by eexists.
Qed.

(** X20.  The upstream is called once, with the method of the request as
    it is, with the headers of the request whose value is not empty and
    whose name, lower-cased, is not excluded, and with the body only for
    POST, PUT and PATCH and only when it is not empty: two upstreams that
    answer that one call alike get the same response out of the
    forwarder.  So the host, the scenario header and the framing headers
    of the client never reach the upstream. *)
Theorem upstream_call_is_filtered
  (fetch1 fetch2 :
     string -> string -> gmap string string -> option string -> Upstream)
  (baseUrl : string) (req : ProxyIncomingRequest) :
  (forall (url : string) (headers : gmap string string)
          (body : option string),
     URL_new (in_path req) baseUrl = Some url ->
     (forall k v, headers !! k = Some v <->
        in_headers req !! k = Some v /\
        (Str.toLowerCase k ∉ EXCLUDED_REQUEST_HEADERS) /\
        v <> EmptyString) ->
     (forall b, body = Some b <->
        in_body req = Some b /\ b <> EmptyString /\
        in_method req ∈ ["POST"; "PUT"; "PATCH"]) ->
     fetch1 url (in_method req) headers body
       = fetch2 url (in_method req) headers body) ->
  forwardRequest URL_new fetch1 baseUrl req
    = forwardRequest URL_new fetch2 baseUrl req.
Proof.
  intros Hsame. unfold forwardRequest.
  destruct (URL_new (in_path req) baseUrl) as [url|] eqn:Hu; [|done].
  cbv zeta. rewrite (Hsame url); [done | done | |].
  - intros k v. unfold keepHeaders.
    rewrite map_lookup_filter_Some. simpl. tauto.
  - intros b. unfold hasBody.
    destruct (in_body req) as [b0|]; [|split; [done | by intros [? _]]].
    case_bool_decide as Hm; simpl.
    + destruct b0 as [|c b0]; simpl.
      * split; [done | by intros ([= <-] & ? & _)].
      * split; [by intros [= <-] | by intros ([= <-] & _)].
    + split; [done | by intros (_ & _ & ?)].
Qed.

End WithPlatform.

Lemma forwarder_response_shape_witness :
  let r := {| out_statusCode := 201;
              out_headers :=
                {[ "content-type" := "text/plain"; "x-upstream" := "1" ]};
              out_body := Bytes "ok"; out_proxied := true |} in
  out_proxied r = true /\
  (forall k, Str.toLowerCase k ∈ EXCLUDED_RESPONSE_HEADERS ->
             out_headers r !! k = None) /\
  out_headers r !! "__proto__" = None /\
  ((out_statusCode r = 504 /\ out_headers r = jsonContentType /\
    exists m, out_body r = errorBody "Gateway Timeout" m) \/
   (out_statusCode r = 502 /\ out_headers r = jsonContentType /\
    exists m, out_body r = errorBody "Bad Gateway" m) \/
   (exists (url : string) (headers : gmap string string)
           (sent : option string) (t : Z) (hs : list (string * string))
           (body : string),
      tellTale url (in_method postOrder) headers sent
        = Responds t (out_statusCode r) hs body /\
      t < PROXY_TIMEOUT_MS /\
      out_body r = Bytes body /\
      (forall k v, out_headers r !! k = Some v -> (k, v) ∈ hs) /\
      (forall k v, (k, v) ∈ hs ->
         Str.toLowerCase k ∉ EXCLUDED_RESPONSE_HEADERS ->
         k <> "__proto__" ->
         is_Some (out_headers r !! k)))).
Proof.
  apply (forwarder_response_shape exampleURL tellTale
           "https://api.example.com" postOrder).
  vm_compute. reflexivity.
Defined.

Lemma upstream_call_is_filtered_witness :
  forwardRequest exampleURL plainUpstream "https://api.example.com" postOrder
  = forwardRequest exampleURL tellTale "https://api.example.com" postOrder.
Proof.
  apply (upstream_call_is_filtered exampleURL plainUpstream tellTale
           "https://api.example.com" postOrder).
  intros url headers body _ Hh _. unfold tellTale, plainUpstream.
  assert (Hnone : forall k, Str.toLowerCase k ∈ EXCLUDED_REQUEST_HEADERS \/
                            in_headers postOrder !! k = Some EmptyString ->
                            headers !! k = None).
  { intros k Hk. destruct (headers !! k) as [v|] eqn:E; [|done].
    apply Hh in E as (E1 & E2 & E3).
    destruct Hk as [Hk|Hk]; [done | congruence]. }
  rewrite (Hnone "Host"), (Hnone "X-MockMate-Scenario"), (Hnone "x-empty").
  - reflexivity.
  - right. reflexivity.
  - left. apply list_elem_of_In. cbv. tauto.
  - left. apply list_elem_of_In. cbv. tauto.
Defined.

End ForwardingProps.

Module LengthProps.

Import Chars ProxyServer FramingFixtures LengthFixtures StrFacts
  ProxyServerProps TunnelProps.

(** X21.  The declared length is the number that follows the first
    occurrence of the text [content-length:] in the header block, in any
    letter case and after optional spaces or tabs, wherever that
    occurrence is: the header block starts with the request line, so the
    text inside the request target, or at the end of a longer header
    name, is taken for the header. *)
Theorem declared_length_first_occurrence (pre name ws d rest : string) :
  ~ Str.contains "content-length:" (Str.toLowerCase pre +:+ "content-length") ->
  Str.toLowerCase name = "content-length:" ->
  Str.all (fun c => isc " " c || isc "009" c) ws = true ->
  d <> EmptyString -> Str.all digit d = true ->
  Str.head_is digit rest = false ->
  contentLengthOf (pre +:+ name +:+ ws +:+ d +:+ rest) = parseInt d.
Proof.
  intros Hp Hn Hws Hd Hall Hr. unfold contentLengthOf.
  rewrite (contentLengthMatch_skip pre _
             (Str.toLowerCase (ws +:+ d +:+ rest)))
    by (done || by rewrite toLowerCase_app, Hn).
  assert (H := contentLengthHere_header name ws d rest Hn Hws Hd Hall Hr).
  destruct (name +:+ ws +:+ d +:+ rest) as [|c s] eqn:E.
  - by destruct name.
  - change (contentLengthMatch (String c s)) with
      (match contentLengthHere (String c s) with
       | Some d => Some d
       | None => contentLengthMatch s
       end).
    by rewrite H.
Qed.

Lemma declared_length_first_occurrence_witness :
  contentLengthOf
    ("GET /x?" +:+ "content-length:" +:+ EmptyString +:+ "5"
     +:+ (" HTTP/1.1" +:+ CRLF +:+ "Accept: text/plain"))
  = parseInt "5".
Proof.
  apply (declared_length_first_occurrence "GET /x?" "content-length:"
           EmptyString "5" (" HTTP/1.1" +:+ CRLF +:+ "Accept: text/plain"));
    try reflexivity; [|done].
  apply index_of_None. reflexivity.
Defined.

(** The request of the example has no body and is complete, and the
    listener waits for five more bytes. *)
Example misleading_target_waits :
  onData FramingFixtures.examplePathAndSearch EmptyString misleadingTarget
    = (misleadingTarget, Wait).
Proof. reflexivity. Qed.

End LengthProps.

Module CertStoreTotal.

Import Certs CertStore CertsFixtures StoreFixtures StrFacts CertStoreProps.

Section WithPlatform.

Context {FS : Type}.
Variable os : Platform FS.
Variable certificateFromPem : string -> option Certificate.
Variable privateKeyFromPem : string -> option string.
Variable certificateToPem : Certificate -> string.
Variable privateKeyToPem : string -> string.
Variable generateSubjectKeyIdentifier : Certificate -> string.
Variable addYears : Z -> Z -> Z.

Lemma andThen_both (a b : FS -> FS * option unit) :
  (forall fs, exists fs1, a fs = (fs1, Some tt)) ->
  (forall fs, exists fs1, b fs = (fs1, Some tt)) ->
  forall fs, exists fs1, (a >>; b) fs = (fs1, Some tt).
Proof.
  intros Ha Hb fs. unfold andThen.
  destruct (Ha fs) as [fs1 ->]. apply Hb.
Qed.

Lemma saveCertificates_returns (certs : CertificatePair) (fs : FS) :
  (forall p d m fs0, exists fs1, writeFileSync os p d m fs0 = (fs1, Some tt)) ->
  (forall p fs0, exists fs1, mkdirSync os p fs0 = (fs1, Some tt)) ->
  exists fs1, saveCertificates os certs fs = (fs1, Some tt).
Proof.
  intros Hw Hm. unfold saveCertificates.
  revert fs. repeat apply andThen_both; try (intros fs0; apply Hw).
  intros fs0. destruct (negb _); [apply Hm | by exists fs0].
Qed.

(** X22.  ensureCertificates returns a pair, and does not throw, whenever
    the PEM text of the new CA certificate and of its key decode again and
    the directory and the four files can be written: whether the disk
    holds nothing, holds unreadable or outdated certificates, or holds
    certificates that are reused. *)
Theorem ensureCertificates_returns (w : Draws) (domains : list string)
  (fs : FS) :
  is_Some (certificateFromPem
             (certificateToPem (caCertificate addYears (caEntropy w)))) ->
  is_Some (privateKeyFromPem
             (privateKeyToPem (keys_privateKey (caEntropy w)))) ->
  (forall p d m fs0, exists fs1, writeFileSync os p d m fs0 = (fs1, Some tt)) ->
  (forall p fs0, exists fs1, mkdirSync os p fs0 = (fs1, Some tt)) ->
  exists (fs1 : FS) (certs : CertificatePair),
    ensureCertificates os certificateFromPem privateKeyFromPem
      certificateToPem privateKeyToPem generateSubjectKeyIdentifier addYears
      w domains fs = (fs1, Some certs).
Proof.
  intros [caCert Hc] [caKey Hk] Hw Hm.
  unfold ensureCertificates. cbv zeta.
  set (gen := match generateServerCert _ _ _ _ _ _ _ _ _ with
              | Some s => _ | None => _ end).
  assert (Hgen : exists fs1 certs, gen = (fs1, Some certs)).
  { subst gen. unfold generateServerCert, generateCA. simpl.
    rewrite Hc, Hk. simpl.
    match goal with
    | |- context [saveCertificates os ?c fs] =>
        destruct (saveCertificates_returns c fs Hw Hm) as [fs1 ->]
    end.
    by eexists _, _. }
  destruct (loadCertificates os fs) as [ex|]; [|done].
  destruct (negb _); [by eexists _, _ | done].
Qed.

End WithPlatform.

Lemma ensureCertificates_returns_witness :
  exists (fs1 : gmap string string) (certs : CertificatePair),
    ensureCertificates exampleOS storeCertFromPem exampleKeyFromPem
      exampleCertToPem exampleKeyToPem exampleKeyId exampleAddYears
      firstDraws exampleDomains ∅ = (fs1, Some certs).
Proof.
  apply (ensureCertificates_returns exampleOS storeCertFromPem
           exampleKeyFromPem exampleCertToPem exampleKeyToPem exampleKeyId
           exampleAddYears firstDraws exampleDomains ∅).
  - by eexists.
  - by eexists.
  - intros p d m fs0. by eexists.
  - intros p fs0. by eexists.
Defined.

End CertStoreTotal.

Module RecencyProps.

Import CertCache CacheCounting CacheFixtures CacheRecency RecencyFixtures
  StrFacts CertCacheProps CacheProps.

(** *** The order of last requests *)

Lemma elem_of_recency (x : string) (hs : list string) :
  x ∈ recency hs <-> x ∈ hs.
Proof.
  induction hs as [|h hs IH]; simpl; [done|].
  case_bool_decide as Hh.
  - rewrite IH, elem_of_cons. split; [tauto|]. intros [->|]; done.
  - by rewrite !elem_of_cons, IH.
Qed.

Lemma NoDup_recency (hs : list string) : NoDup (recency hs).
Proof.
  induction hs as [|h hs IH]; simpl; [constructor|].
  case_bool_decide as Hh; [done|].
  constructor; [by rewrite elem_of_recency | done].
Qed.

Lemma recency_snoc (hs : list string) (d : string) :
  recency (hs ++ [d])
    = List.filter (fun x => negb (Str.eqb x d)) (recency hs) ++ [d].
Proof.
  induction hs as [|h hs IH]; simpl; [done|].
  destruct (decide (h = d)) as [->|Hne].
  - rewrite bool_decide_eq_true_2
      by (apply elem_of_app; right; by apply list_elem_of_singleton).
    rewrite IH. case_bool_decide; simpl; [done|].
    by rewrite eqb_refl.
  - assert (Str.eqb h d = false) as Hb by (by apply eqb_neq).
    case_bool_decide as H1; case_bool_decide as H2; simpl.
    + exact IH.
    + exfalso. apply H2. apply elem_of_app in H1 as [|H1]; [done|].
      apply list_elem_of_singleton in H1. congruence.
    + exfalso. apply H1. apply elem_of_app. by left.
    + by rewrite Hb, IH.
Qed.

(** *** One call on the keys *)

(** The keys of the cache are the most recent part of the order of last
    requests: all of it below the bound, the last [max] of it from then
    on. *)
Lemma keysAfter_recency (max : nat) (older keys : list string) (d : string) :
  (1 <= max)%nat ->
  NoDup (older ++ keys) ->
  (forall k, k ∈ keys -> k <> EmptyString) ->
  length keys = max \/ (older = [] /\ (length keys <= max)%nat) ->
  exists older' : list string,
    List.filter (fun x => negb (Str.eqb x d)) (older ++ keys) ++ [d]
      = older' ++ keysAfter (Z.of_nat max) keys d /\
    (length (keysAfter (Z.of_nat max) keys d) = max \/
     (older' = [] /\ (length (keysAfter (Z.of_nat max) keys d) <= max)%nat)).
Proof.
  intros Hmax Hnd Hne Hlen.
  apply NoDup_app in Hnd as (Hno & Hdisj & Hnk).
  rewrite List.filter_app. unfold keysAfter.
  case_bool_decide as Hd.
  - assert (Hdo : d ∉ older) by (intros H; by apply (Hdisj d)).
    rewrite (filter_neq_notin d older Hdo).
    exists older. split; [by rewrite <- List.app_assoc|].
    pose proof (length_filter_neq_in d keys Hnk Hd) as Hl.
    rewrite List.length_app. simpl.
    destruct Hlen as [Hlen|[-> Hlen]]; [left | right; split; [done|]]; lia.
  - rewrite (filter_neq_notin d keys Hd).
    destruct (Z.geb_spec (Z.of_nat (length keys)) (Z.of_nat max)) as [Hge|Hlt].
    + assert (Hk : length keys = max) by (destruct Hlen as [|[_ ?]]; lia).
      destruct keys as [|k ks]; [simpl in Hk; lia|].
      assert (Str.is_empty k = false) as ->.
      { apply is_empty_false. apply Hne. by left. }
      apply NoDup_cons in Hnk as [Hk1 Hk2].
      change (List.filter (fun x => negb (Str.eqb x k)) (k :: ks))
        with (if negb (Str.eqb k k) then
                k :: List.filter (fun x => negb (Str.eqb x k)) ks
              else List.filter (fun x => negb (Str.eqb x k)) ks).
      rewrite eqb_refl. simpl. rewrite (filter_neq_notin k ks Hk1).
      exists (List.filter (fun x => negb (Str.eqb x d)) older ++ [k]).
      split; [by rewrite <- !List.app_assoc|].
      left. rewrite List.length_app. simpl in *. lia.
    + destruct Hlen as [Hlen|[-> Hlen]]; [lia|].
      exists []. split; [done|]. right. split; [done|].
      rewrite List.length_app. simpl. lia.
Qed.

Lemma lastN_app (max : nat) (older keys : list string) :
  length keys = max \/ (older = [] /\ (length keys <= max)%nat) ->
  lastN max (older ++ keys) = keys.
Proof.
  unfold lastN. rewrite List.length_app. intros [H|[-> H]].
  - replace (length older + length keys - max)%nat with (length older) by lia.
    by rewrite drop_app_length.
  - simpl. by replace (length keys - max)%nat with 0%nat by lia.
Qed.

Section Drawn.

Variable issueWith :
  Certs.Entropy -> CertificateData -> list string -> option CertificateData.

Lemma runWith_snoc (c : t) (ops : list DrawnCall) (op : DrawnCall) :
  runWith issueWith c (ops ++ [op])
    = callWith issueWith (runWith issueWith c ops) op.
Proof. unfold runWith. by rewrite foldl_app. Qed.

Lemma runWith_caData (c : t) (ops : list DrawnCall) :
  caData (runWith issueWith c ops) = caData c.
Proof.
  induction ops as [|op ops IH] using rev_ind; [done|].
  rewrite runWith_snoc. destruct op; simpl; [|done].
  by rewrite getCert_caData.
Qed.

Lemma runWith_maxSize (c : t) (ops : list DrawnCall) :
  maxSize (runWith issueWith c ops) = maxSize c.
Proof.
  induction ops as [|op ops IH] using rev_ind; [done|].
  rewrite runWith_snoc. destruct op; simpl; [|done].
  by rewrite getCert_maxSize.
Qed.

(** The keys after a sequence of requests, against the order of last
    requests. *)
Lemma requests_recency (options : CertCacheOptions)
  (calls : list (Certs.Entropy * string)) :
  1 <= opt_maxSize options ->
  (forall e d, (e, d) ∈ calls -> d <> EmptyString) ->
  (forall e d, (e, d) ∈ calls ->
     is_Some (issueWith e (caData (new options)) [d])) ->
  exists older : list string,
    recency calls.*2
      = older ++ map_keys (cache (runWith issueWith (new options)
                                    (requests calls))) /\
    (length (map_keys (cache (runWith issueWith (new options)
                                (requests calls))))
       = Z.to_nat (opt_maxSize options) \/
     (older = [] /\
      (length (map_keys (cache (runWith issueWith (new options)
                                  (requests calls))))
         <= Z.to_nat (opt_maxSize options))%nat)).
Proof.
  intros Hmax. induction calls as [|[e d] calls IH] using rev_ind;
    intros Hne Hissue.
  - exists []. split; [done|]. right. split; [done|]. simpl. lia.
  - destruct IH as (older & Hr & Hl).
    { intros e0 d0 H. apply (Hne e0 d0). apply elem_of_app. by left. }
    { intros e0 d0 H. apply Hissue. apply elem_of_app. by left. }
    assert (HK : map_keys (cache (runWith issueWith (new options)
                                    (requests (calls ++ [(e, d)]))))
                 = keysAfter (Z.of_nat (Z.to_nat (opt_maxSize options)))
                     (map_keys (cache (runWith issueWith (new options)
                                         (requests calls)))) d).
    { unfold requests. rewrite List.map_app.
      change (List.map
                (fun p : Certs.Entropy * string => GetCertWith p.1 p.2)
                [(e, d)]) with [GetCertWith e d].
      rewrite runWith_snoc.
      change (callWith issueWith ?c (GetCertWith e d))
        with (getCert (issueWith e) c d).1.
      rewrite getCert_keysAfter.
      - rewrite runWith_maxSize. simpl. by rewrite Z2Nat.id by lia.
      - rewrite runWith_caData. apply Hissue.
        apply elem_of_app. right. by apply list_elem_of_singleton. }
    rewrite HK, fmap_app. simpl. rewrite recency_snoc, Hr.
    apply keysAfter_recency; [lia | | | done].
    + rewrite <- Hr. apply NoDup_recency.
    + intros k Hk.
      assert (Hin : k ∈ recency calls.*2)
        by (rewrite Hr; apply elem_of_app; by right).
      apply elem_of_recency, list_elem_of_fmap in Hin as ([e0 d0] & -> & Hin).
      apply (Hne e0 d0). apply elem_of_app. by left.
Qed.

(** X23.  The cache is least recently used by access, a hit counting as
    an access: after any sequence of requests for non-empty host names,
    on a cache with a bound of at least 1 and with an issuer that
    answers, the cache holds exactly the hosts of the last requests, as
    many as the bound allows, each once and in the order of their last
    request, the least recently requested first.  That one is the next
    to be evicted, whenever it was first requested. *)
Theorem lru_by_recency (options : CertCacheOptions)
  (calls : list (Certs.Entropy * string)) :
  1 <= opt_maxSize options ->
  (forall e d, (e, d) ∈ calls -> d <> EmptyString) ->
  (forall e d, (e, d) ∈ calls ->
     is_Some (issueWith e
                {| cert := opt_caCert options;
                   privateKey := opt_caKey options |} [d])) ->
  map_keys (cache (runWith issueWith (new options) (requests calls)))
    = lastN (Z.to_nat (opt_maxSize options)) (recency calls.*2).
Proof.
  intros Hmax Hne Hissue.
  destruct (requests_recency options calls Hmax Hne Hissue)
    as (older & -> & Hl).
  symmetry. by apply lastN_app.
Qed.

(** What the cache holds was issued for its key at one of the calls. *)
Lemma runWith_issued (options : CertCacheOptions) (ops : list DrawnCall)
  (k : string) (v : CertificateData) :
  map_get k (cache (runWith issueWith (new options) ops)) = Some v ->
  exists e, GetCertWith e k ∈ ops /\
            issueWith e (caData (new options)) [k] = Some v.
Proof.
  revert k v. induction ops as [|op ops IH] using rev_ind; intros k v;
    [done|].
  rewrite runWith_snoc.
  assert (Hold : map_get k (cache (runWith issueWith (new options) ops))
                   = Some v ->
                 exists e, GetCertWith e k ∈ ops ++ [op] /\
                   issueWith e (caData (new options)) [k] = Some v).
  { intros (e & He & Hi)%IH. exists e. split; [|done].
    apply elem_of_app. by left. }
  destruct op as [e d|]; simpl; [|done].
  pose proof (runWith_caData (new options) ops) as Hca.
  set (c := runWith issueWith (new options) ops) in *.
  unfold getCert.
  destruct (map_get d (cache c)) as [cached|] eqn:Hd; simpl.
  - rewrite map_get_set, map_get_delete.
    destruct (Str.eqb k d) eqn:E; [|exact Hold].
    apply eqb_eq in E as ->. intros [= <-]. by apply Hold.
  - set (cache1 := if map_size (cache c) >=? maxSize c
                   then evictOldest (cache c) else cache c).
    assert (H1 : map_get k cache1 = Some v -> map_get k (cache c) = Some v).
    { subst cache1. destruct (_ >=? _); [apply evictOldest_get | done]. }
    destruct (issueWith e (caData c) [d]) as [crt|] eqn:Hi; simpl.
    + rewrite map_get_set.
      destruct (Str.eqb k d) eqn:E; [|by intros ?%H1%Hold].
      apply eqb_eq in E as ->. intros [= <-]. exists e. split.
      * apply elem_of_app. right. by apply list_elem_of_singleton.
      * rewrite Hca in Hi. exact Hi.
    + by intros ?%H1%Hold.
Qed.

(** X10.  The cache never mixes hosts up, although the issuer makes a
    new certificate at every call: after any sequence of [getCert] and
    [clear] calls on a cache made by the constructor, the certificate
    that [getCert] returns for a host was issued for that host alone,
    under the CA given to the constructor, by this call or by an earlier
    [getCert] call of the sequence for the same host. *)
Theorem issued_for_the_host (options : CertCacheOptions)
  (ops : list DrawnCall) (e : Certs.Entropy) (d : string)
  (crt : CertificateData) :
  (getCert (issueWith e) (runWith issueWith (new options) ops) d).2
    = Some crt ->
  exists e0 : Certs.Entropy,
    (e0 = e \/ (GetCertWith e0 d ∈ ops)) /\
    issueWith e0
      {| cert := opt_caCert options; privateKey := opt_caKey options |} [d]
      = Some crt.
Proof.
  pose proof (runWith_issued options ops d) as Hold.
  pose proof (runWith_caData (new options) ops) as Hca.
  set (c := runWith issueWith (new options) ops) in *.
  unfold getCert.
  destruct (map_get d (cache c)) as [cached|] eqn:Hd; simpl.
  - intros [= <-]. destruct (Hold cached eq_refl) as (e0 & He & Hi).
    exists e0. split; [by right | done].
  - rewrite Hca.
    destruct (issueWith e (caData (new options)) [d]) as [crt'|] eqn:Hi;
      simpl; [|done].
    intros [= <-]. exists e. split; [by left | done].
Qed.

End Drawn.

(** *** The empty host name *)

Lemma filter_none_kept (l l' : list string) :
  (forall k, k ∈ l -> k ∈ l') ->
  List.filter (fun k => bool_decide (k ∉ l')) l = [].
Proof.
  induction l as [|x l IH]; intros H; simpl; [done|].
  rewrite bool_decide_eq_false_2.
  - apply IH. intros k Hk. apply H. by right.
  - intros Hn. apply Hn, H. by left.
Qed.

Section WithIssuer.

Variable issue : CertificateData -> list string -> option CertificateData.

(** Claim C4, a defect of the code.  The oldest key is evicted only when
    it is a truthy string: when it is the empty host name, a miss on a
    full cache evicts nothing, the new certificate is stored beside the
    others and the cache exceeds its bound.  So with [maxSize = 2] the
    calls [getCert(A)], [getCert(B)], [getCert(C)] do not evict [A] when
    [A] is the empty string. *)
Theorem empty_oldest_host_is_kept (c : t) (v : CertificateData)
  (rest : CertMap) (d : string) (crt : CertificateData) :
  cache c = (EmptyString, v) :: rest ->
  d ∉ map_keys (cache c) ->
  maxSize c <= map_size (cache c) ->
  issue (caData c) [d] = Some crt ->
  cache (getCert issue c d).1 = cache c ++ [(d, crt)] /\
  evicted c (getCert issue c d).1 = [] /\
  maxSize c < map_size (cache (getCert issue c d).1).
Proof.
  intros Hc Hd Hmax Hi.
  assert (Hg : cache (getCert issue c d).1 = cache c ++ [(d, crt)]).
  { unfold getCert.
    assert (map_get d (cache c) = None) as ->
      by (by apply (map_get_None issue)).
    rewrite Hi. simpl.
    assert ((map_size (cache c) >=? maxSize c) = true) as ->
      by (rewrite Z.geb_leb; by apply Z.leb_le).
    unfold evictOldest. rewrite Hc at 1. simpl.
    by apply map_set_new. }
  split; [done|]. split.
  - unfold evicted. rewrite Hg. unfold map_keys. rewrite List.map_app.
    apply filter_none_kept. intros k Hk. apply elem_of_app. by left.
  - rewrite Hg. unfold map_size in *. rewrite List.length_app. simpl. lia.
Qed.

End WithIssuer.

(** The theorem at the calls of the claim, the first host being the empty
    string. *)
Lemma empty_oldest_host_is_kept_witness :
  map_keys (cache (run exampleIssuer (new (exampleOptions 2))
                     [GetCert EmptyString; GetCert "b.example"]))
    = [EmptyString; "b.example"] /\
  map_keys (cache (run exampleIssuer (new (exampleOptions 2))
                     [GetCert EmptyString; GetCert "b.example";
                      GetCert "c.example"]))
    = [EmptyString; "b.example"; "c.example"] /\
  evicted
    (run exampleIssuer (new (exampleOptions 2))
       [GetCert EmptyString; GetCert "b.example"])
    (run exampleIssuer (new (exampleOptions 2))
       [GetCert EmptyString; GetCert "b.example"; GetCert "c.example"])
    = [] /\
  2 < map_size (cache (run exampleIssuer (new (exampleOptions 2))
                         [GetCert EmptyString; GetCert "b.example";
                          GetCert "c.example"])).
Proof.
  destruct (empty_oldest_host_is_kept exampleIssuer
              (run exampleIssuer (new (exampleOptions 2))
                 [GetCert EmptyString; GetCert "b.example"])
              {| cert := "cert:"; privateKey := "key:" |}
              [("b.example",
                {| cert := "cert:b.example"; privateKey := "key:b.example" |})]
              "c.example"
              {| cert := "cert:c.example"; privateKey := "key:c.example" |})
    as (Hc & He & Hs).
  - reflexivity.
  - apply (bool_decide_unpack _). vm_compute. exact I.
  - vm_compute. discriminate.
  - reflexivity.
  - split; [reflexivity|]. split; [|split].
    + change (run exampleIssuer (new (exampleOptions 2))
                [GetCert EmptyString; GetCert "b.example";
                 GetCert "c.example"])
        with (getCert exampleIssuer
                (run exampleIssuer (new (exampleOptions 2))
                   [GetCert EmptyString; GetCert "b.example"])
                "c.example").1.
      by rewrite Hc.
    + exact He.
    + exact Hs.
Defined.

(** The theorem on four requests with a bound of two and with a bound of
    three: the second request of the first host makes the second host
    the oldest. *)
Lemma lru_by_recency_witness :
  map_keys (cache (runWith serialIssuer (new (exampleOptions 2))
     (requests [(draw "01", "a.example"); (draw "02", "b.example");
                (draw "03", "a.example"); (draw "04", "c.example")])))
    = ["a.example"; "c.example"] /\
  map_keys (cache (runWith serialIssuer (new (exampleOptions 3))
     (requests [(draw "01", "a.example"); (draw "02", "b.example");
                (draw "03", "a.example"); (draw "04", "c.example")])))
    = ["b.example"; "a.example"; "c.example"].
Proof.
  split.
  - rewrite (lru_by_recency serialIssuer (exampleOptions 2)); [reflexivity|..].
    + vm_compute. discriminate.
    + intros e d Hin. apply list_elem_of_In in Hin. simpl in Hin.
      intuition congruence.
    + intros e d Hin. by eexists.
  - rewrite (lru_by_recency serialIssuer (exampleOptions 3)); [reflexivity|..].
    + vm_compute. discriminate.
    + intros e d Hin. apply list_elem_of_In in Hin. simpl in Hin.
      intuition congruence.
    + intros e d Hin. by eexists.
Defined.

(** The theorem on a hit after a miss of the same host: the certificate
    of the first draw is returned, not one of the second. *)
Lemma issued_for_the_host_witness :
  exists e0 : Certs.Entropy,
    (e0 = draw "02" \/
     (GetCertWith e0 "a.example" ∈ [GetCertWith (draw "01") "a.example"])) /\
    serialIssuer e0
      {| cert := opt_caCert (exampleOptions 2);
         privateKey := opt_caKey (exampleOptions 2) |} ["a.example"]
      = Some {| cert := "cert:a.example#01"; privateKey := "key:priv01" |}.
Proof.
  apply (issued_for_the_host serialIssuer (exampleOptions 2)
           [GetCertWith (draw "01") "a.example"] (draw "02") "a.example").
  reflexivity.
Defined.

End RecencyProps.
